(** * Subtitle translator: sentence-count-stable batching, reassembly and
      line wrapping

    A shallow embedding of [main.py] (the current pipeline) and of the
    line rebalancer of [main_old.py] (the superseded pipeline), followed by
    the properties of the specification that concern them.

    Conventions of the embedding:
    - a Python [str] is a list of Unicode code points ([N]); [len] is
      therefore the number of code points, as in Python;
    - Python integers that count or index are [nat]; a difference that is
      passed to [abs] is computed in [Z];
    - the translation engine is a collaborator with a state of its own; the
      sentence segmenter is a deterministic function; both are arbitrary
      otherwise.  A call that raises ends the Python run; the embedding
      describes the runs in which every call returns;
    - printing is left out;
    - a [while] loop whose trip count is not structurally evident is given
      either a measure (the attempt loop) or fuel (the outer batcher loop),
      and fuel is proved sufficient. *)

From Equations Require Import Equations.
From Stdlib Require Import Ascii String.
From Stdlib Require Import List Arith ZArith NArith Lia Bool.
From Stdlib Require DecimalPos.
Import ListNotations.

Set Implicit Arguments.

(* ===================================================================== *)
(** * Part I: the embedding                                               *)
(* ===================================================================== *)

(** ** Python strings and the builtins the program uses *)

Module PyStr.

Abbreviation char := N (only parsing).
Abbreviation str := (list N) (only parsing).

(** ASCII literals of the source, as code points. *)
Definition lit (s : string) : str := map N_of_ascii (list_ascii_of_string s).

Definition SPACE : char := 32%N.
Definition NEWLINE : char := 10%N.

(** [str.isspace] on one code point: the Unicode white space of CPython
    (bidirectional classes WS, B, S and category Zs). *)
Definition isspace (c : char) : bool :=
  ((9 <=? c) && (c <=? 13) || (28 <=? c) && (c <=? 32)
   || (c =? 133) || (c =? 160) || (c =? 5760)
   || (8192 <=? c) && (c <=? 8202)
   || (c =? 8232) || (c =? 8233) || (c =? 8239) || (c =? 8287)
   || (c =? 12288))%N.

Definition len (s : str) : nat := length s.

(** [s.lstrip()], [s.rstrip()], [s.strip()] *)
Fixpoint lstrip (s : str) : str :=
  match s with
  | [] => []
  | c :: s' => if isspace c then lstrip s' else s
  end.

Definition rstrip (s : str) : str := rev (lstrip (rev s)).

Definition strip (s : str) : str := rstrip (lstrip s).

(** [s.split()]: maximal runs of non-white-space characters.  [scan]
    walks the text and returns the word in progress at its head together
    with the completed words behind it. *)
Definition push (cur : str) (ws : list str) : list str :=
  match cur with
  | [] => ws
  | _ :: _ => cur :: ws
  end.

Fixpoint scan (s : str) : str * list str :=
  match s with
  | [] => ([], [])
  | c :: s' =>
      let (cur, ws) := scan s' in
      if isspace c then ([], push cur ws) else (c :: cur, ws)
  end.

Definition split (s : str) : list str :=
  let (cur, ws) := scan s in push cur ws.

(** [sep.join(ws)] *)
Fixpoint join (sep : str) (ws : list str) : str :=
  match ws with
  | [] => []
  | w :: ws' =>
      match ws' with
      | [] => w
      | _ :: _ => w ++ sep ++ join sep ws'
      end
  end.

(** [s.startswith(p)] *)
Fixpoint startswith (p s : str) : bool :=
  match p, s with
  | [], _ => true
  | _ :: _, [] => false
  | a :: p', b :: s' => (a =? b)%N && startswith p' s'
  end.

(** [s.replace(old, new)]: the occurrences of [old] are found from left
    to right and do not overlap.  [skip] counts the characters of a
    matched occurrence that are still to be passed over.  With an empty
    [old] Python inserts [new] before every character and at the end. *)
Fixpoint replace_scan (old new : str) (skip : nat) (s : str) : str :=
  match s with
  | [] => []
  | c :: s' =>
      match skip with
      | S k => replace_scan old new k s'
      | O =>
          if startswith old s
          then new ++ replace_scan old new (length old - 1) s'
          else c :: replace_scan old new 0 s'
      end
  end.

Fixpoint intersperse_before (new s : str) : str :=
  match s with
  | [] => new
  | c :: s' => new ++ c :: intersperse_before new s'
  end.

Definition replace (s old new : str) : str :=
  match old with
  | [] => intersperse_before new s
  | _ :: _ => replace_scan old new 0 s
  end.

(** [old in s] *)
Fixpoint contains (s old : str) : bool :=
  startswith old s ||
  match s with
  | [] => false
  | _ :: s' => contains s' old
  end.

(** [str(n)] for an integer: decimal digits, with a minus sign. *)
Fixpoint digits (u : Decimal.uint) : str :=
  match u with
  | Decimal.Nil => []
  | Decimal.D0 u' => 48%N :: digits u'
  | Decimal.D1 u' => 49%N :: digits u'
  | Decimal.D2 u' => 50%N :: digits u'
  | Decimal.D3 u' => 51%N :: digits u'
  | Decimal.D4 u' => 52%N :: digits u'
  | Decimal.D5 u' => 53%N :: digits u'
  | Decimal.D6 u' => 54%N :: digits u'
  | Decimal.D7 u' => 55%N :: digits u'
  | Decimal.D8 u' => 56%N :: digits u'
  | Decimal.D9 u' => 57%N :: digits u'
  end.

Definition str_of_int (z : Z) : str :=
  match Z.to_int z with
  | Decimal.Pos u => digits u
  | Decimal.Neg u => 45%N :: digits u
  end.

(** [l[a:b]] for [0 <= a <= b]; Python clips the slice to the list. *)
Definition slice {A : Type} (l : list A) (a b : nat) : list A :=
  firstn (b - a) (skipn a l).

(** [sum(len(x) for x in l)] *)
Definition total_chars (l : list str) : nat :=
  fold_right (fun x acc => len x + acc) 0 l.

(** [range(a, b)] and [range(a, 0, -1)] *)
Definition range (a b : nat) : list nat := seq a (b - a).
Definition range_down (a : nat) : list nat := rev (seq 1 a).

(** A [for] loop that returns from its body: the first iteration that
    returns decides. *)
Fixpoint first_return {A B : Type} (body : A -> option B) (l : list A)
  : option B :=
  match l with
  | [] => None
  | x :: l' =>
      match body x with
      | Some r => Some r
      | None => first_return body l'
      end
  end.

(** [s.split(sep)] for a non-empty separator: the separators are found
    from left to right and do not overlap; the result has one piece more
    than there are separators.  [split_scan] returns the piece in progress
    at its head and the pieces behind it. *)
Fixpoint split_scan (sep : str) (skip : nat) (s : str) : str * list str :=
  match s with
  | [] => ([], [])
  | c :: s' =>
      match skip with
      | S k => split_scan sep k s'
      | O =>
          if startswith sep s
          then ([], let (cur, ps) := split_scan sep (length sep - 1) s' in
                    cur :: ps)
          else let (cur, ps) := split_scan sep 0 s' in (c :: cur, ps)
      end
  end.

Definition split_on (s sep : str) : list str :=
  let (cur, ps) := split_scan sep 0 s in cur :: ps.

(** [bool(s.strip())]: the text has a character that is not white space. *)
Definition nonblank (s : str) : bool :=
  match strip s with
  | [] => false
  | _ :: _ => true
  end.

(** [re.sub(r'\s+', ' ', s)]: every maximal run of white space becomes one
    space.  [in_run] tells that the previous character was white space. *)
Fixpoint collapse_scan (in_run : bool) (s : str) : str :=
  match s with
  | [] => []
  | c :: s' =>
      if isspace c then
        if in_run then collapse_scan true s' else SPACE :: collapse_scan true s'
      else c :: collapse_scan false s'
  end.

Definition collapse_ws (s : str) : str := collapse_scan false s.

(** [s.endswith(('.', '?', '!'))] *)
Definition ends_sentence (s : str) : bool :=
  match rev s with
  | [] => false
  | c :: _ => (c =? 46)%N || (c =? 63)%N || (c =? 33)%N
  end.

End PyStr.

Import PyStr.

(** ** Configuration ([main.py], lines 23-31) *)

Definition EXCEPTIONS : list str :=
  map lit
    [ "Angular"; "React"; "React Native"; "Python"; "Vue"; "Node.js";
      "Docker"; "Kubernetes"; "Git"; "GitHub"; "TypeScript"; "JavaScript";
      "AWS"; "Azure"; "History API"; "Zero to Mastery"; "C++"; "C#";
      "C-sharp"; "Java"; "Objective-C"; "SQL" ]%string.

Definition MAX_CHARS_PER_LINE : nat := 65.
Definition MAX_SENTENCES_PER_BLOCK : nat := 5.
Definition MAX_CHARS_PER_BLOCK : nat := 512.

(** The protection marker, the section sign U+00A7. *)
Definition MARKER : char := 167%N.

(** ** Term protector ([main.py], lines 74-81) *)

(** The f-string that puts the marker on both sides of the term. *)
Definition wrapped (term : str) : str := MARKER :: term ++ [MARKER].

Definition protect_terms (text : str) : str :=
  fold_left (fun text term => replace text term (wrapped term)) EXCEPTIONS text.

Definition unprotect_terms (text : str) : str := replace text [MARKER] [].

(** ** Line wrapper ([main.py], lines 90-137) *)

(** [f"{first_line}\n{second_line}"] *)
Definition two_lines (first_line second_line : str) : str :=
  first_line ++ NEWLINE :: second_line.

Definition format_srt_text (text : str) (max_chars_per_line : nat) : str :=
  match strip text with
  | [] => []
  | _ :: _ =>
      let text := join [SPACE] (split text) in
      if len text <=? max_chars_per_line then text
      else
        let words := split text in
        let optimal_break_index := length words / 2 in
        (* downwards from the middle *)
        let down :=
          first_return
            (fun i =>
               let first_line := join [SPACE] (firstn i words) in
               if len first_line <=? max_chars_per_line then
                 let second_line := join [SPACE] (skipn i words) in
                 if len second_line <=? max_chars_per_line
                 then Some (two_lines first_line second_line)
                 else None
               else None)
            (range_down optimal_break_index) in
        match down with
        | Some r => r
        | None =>
            (* upwards from the middle *)
            let up :=
              first_return
                (fun i =>
                   let first_line := join [SPACE] (firstn i words) in
                   if max_chars_per_line <? len first_line then
                     if 1 <? i then
                       let first_line := join [SPACE] (firstn (i - 1) words) in
                       let second_line := join [SPACE] (skipn (i - 1) words) in
                       Some (two_lines first_line second_line)
                     else None
                   else None)
                (range (optimal_break_index + 1) (length words)) in
            match up with
            | Some r => r
            | None =>
                let mid := length words / 2 in
                two_lines (join [SPACE] (firstn mid words))
                          (join [SPACE] (skipn mid words))
            end
        end
  end.

(** ** Subtitle blocks and the writer ([main.py], lines 69, 140-147) *)

Record Block : Type := mkBlock {
  index : Z;
  timestamp : str;
  text : str
}.

(** The lines that [write_srt] collects, and the text it writes. *)
Definition srt_lines (final_srt : list Block) : list str :=
  flat_map (fun blk => [str_of_int (index blk); timestamp blk; text blk; []])
           final_srt.

Definition write_srt (final_srt : list Block) : str :=
  join [NEWLINE] (srt_lines final_srt).

(** ** The parser ([main.py], lines 50-71)

    [raw] is the text of the file.  The builtin [int] is a parameter:
    [None] stands for its [ValueError], which ends [read_srt]. *)

Definition CR : char := 13%N.
Definition BOM : char := 65279%N.

Section Parser.

Variable py_int : str -> option Z.

(** [for block in blocks], with its [continue]. *)
Fixpoint read_blocks (blocks : list str) (srt_blocks : list Block)
  : option (list Block) :=
  match blocks with
  | [] => Some srt_blocks
  | block :: rest =>
      let lines := filter nonblank (split_on block [NEWLINE]) in
      if length lines <? 3 then read_blocks rest srt_blocks
      else
        let index_line := nth 0 lines [] in
        let index_line :=
          if startswith [BOM] index_line then skipn 1 index_line
          else index_line in
        match py_int (strip index_line) with
        | None => None
        | Some index =>
            let timestamp := nth 1 lines [] in
            let text := join [SPACE] (skipn 2 lines) in
            read_blocks rest (srt_blocks ++ [mkBlock index timestamp text])
        end
  end.

Definition read_srt (raw : str) : option (list Block) :=
  let raw := replace (replace raw [CR; NEWLINE] [NEWLINE]) [CR] [NEWLINE] in
  let blocks := filter nonblank (split_on raw [NEWLINE; NEWLINE]) in
  read_blocks blocks [].

End Parser.

(** ** The external collaborators

    [argos_translate] is [argostranslate.translate.translate] at the fixed
    language pair: it may depend on and change a state of its own.
    [sent_tokenize] is the sentence segmenter of [nltk]. *)

Class Collaborators : Type := {
  World : Type;
  argos_translate : str -> World -> str * World;
  sent_tokenize : str -> list str
}.

Section Pipeline.

Context {C : Collaborators}.

(** The translation engine together with the record of the texts it was
    handed, oldest first.  The record is kept for the statements about
    when the engine is invoked. *)
Record Engine : Type := mkEngine {
  world : World;
  calls : list str
}.

(** [translate_text] ([main.py], lines 84-87) *)
Definition translate_text (text : str) (e : Engine) : str * Engine :=
  let protected := protect_terms text in
  let (translated, w) := argos_translate protected (world e) in
  (unprotect_terms translated,
   {| world := w; calls := calls e ++ [protected] |}).

(** *** Batcher ([main.py], lines 167-239) *)

Record Batcher : Type := mkBatcher {
  all_hun_sentences : list str;
  current_sentence_idx : nat;
  engine : Engine
}.

(** How one pass through the body of the attempt loop ends. *)
Inductive Flow : Type :=
  | Continue (attempt_sentence_count : nat) (b : Batcher)
  | Break (b : Batcher).

Section Batching.

Variable all_eng_sentences : list str.

(** Body of [while attempt_sentence_count > 0] (lines 178-223). *)
Definition attempt_body (attempt_sentence_count : nat) (b : Batcher) : Flow :=
  let end_idx := current_sentence_idx b + attempt_sentence_count in
  let block_sentences :=
    slice all_eng_sentences (current_sentence_idx b) end_idx in
  let block_chars := total_chars block_sentences in
  if MAX_CHARS_PER_BLOCK <? block_chars then
    Continue (attempt_sentence_count - 1) b
  else
    let eng_block_text := join [SPACE] block_sentences in
    let (translated, e) := translate_text eng_block_text (engine b) in
    let hun_sentences := sent_tokenize translated in
    if length hun_sentences =? length block_sentences then
      Break {| all_hun_sentences := all_hun_sentences b ++ hun_sentences;
               current_sentence_idx :=
                 current_sentence_idx b + length block_sentences;
               engine := e |}
    else if 1 <? attempt_sentence_count then
      Continue 1 {| all_hun_sentences := all_hun_sentences b;
                    current_sentence_idx := current_sentence_idx b;
                    engine := e |}
    else
      Break {| all_hun_sentences := all_hun_sentences b ++ hun_sentences;
               current_sentence_idx := current_sentence_idx b + 1;
               engine := e |}.

(** The [else] clause of the attempt loop (lines 224-239), run when the
    loop ends without [break].  The subscript is guarded by the test,
    so the default of [nth] is never used. *)
Definition forced_single (b : Batcher) : Batcher :=
  if current_sentence_idx b <? length all_eng_sentences then
    let single_sentence :=
      nth (current_sentence_idx b) all_eng_sentences [] in
    let (translated_single, e) :=
      translate_text single_sentence (engine b) in
    let hun_single_sentences := sent_tokenize translated_single in
    {| all_hun_sentences := all_hun_sentences b ++ hun_single_sentences;
       current_sentence_idx := current_sentence_idx b + 1;
       engine := e |}
  else b.

Lemma attempt_body_decreases (n : nat) (b b' : Batcher) (a : nat) :
  attempt_body (S n) b = Continue a b' -> a < S n.
Proof.
  unfold attempt_body.
  destruct (MAX_CHARS_PER_BLOCK <? _).
  - intros [= <- _]. lia.
  - destruct (translate_text _ _) as [translated e].
    destruct (_ =? _); [discriminate|].
    destruct (1 <? S n) eqn:E; [|discriminate].
    intros [= <- _]. apply Nat.ltb_lt in E. exact E.
Qed.

(** [while attempt_sentence_count > 0: ... else: ...] *)
Equations attempt_loop (attempt_sentence_count : nat) (b : Batcher)
  : Batcher by wf attempt_sentence_count lt :=
  attempt_loop 0 b := forced_single b;
  attempt_loop (S n) b with Logic.inspect (attempt_body (S n) b) := {
  | exist _ (Continue a b') eqn => attempt_loop a b';
  | exist _ (Break b') _ => b' }.
Next Obligation. eapply attempt_body_decreases; eassumption. Qed.

(** Body of [while current_sentence_idx < len(all_eng_sentences)]. *)
Definition batch_body (b : Batcher) : Batcher :=
  let max_sentences_to_take :=
    Nat.min MAX_SENTENCES_PER_BLOCK
            (length all_eng_sentences - current_sentence_idx b) in
  attempt_loop max_sentences_to_take b.

(** The outer loop, with the number of passes it may make as fuel; the
    result carries the number of passes made. *)
Fixpoint batch_loop (fuel : nat) (b : Batcher) : option (nat * Batcher) :=
  if current_sentence_idx b <? length all_eng_sentences then
    match fuel with
    | O => None
    | S fuel' =>
        match batch_loop fuel' (batch_body b) with
        | Some (passes, b') => Some (S passes, b')
        | None => None
        end
    end
  else Some (0, b).

End Batching.

(** *** Reassembler ([main.py], lines 252-278) *)

(** [for _ in range(num_sentences)] with its guarded append. *)
Fixpoint take_sentences (all_hun : list str) (num_sentences : nat)
         (hun_sentences_for_block : list str) (hun_sentence_idx : nat)
  : list str * nat :=
  match num_sentences with
  | O => (hun_sentences_for_block, hun_sentence_idx)
  | S n =>
      if hun_sentence_idx <? length all_hun then
        take_sentences all_hun n
          (hun_sentences_for_block ++ [nth hun_sentence_idx all_hun []])
          (hun_sentence_idx + 1)
      else take_sentences all_hun n hun_sentences_for_block hun_sentence_idx
  end.

(** Body of [for eng_block in eng_blocks]. *)
Definition reassemble_block (all_hun : list str) (eng_block : Block)
           (hun_sentence_idx : nat) : Block * nat :=
  let eng_sentences_in_block := sent_tokenize (text eng_block) in
  let num_sentences := length eng_sentences_in_block in
  let (hun_sentences_for_block, hun_sentence_idx) :=
    take_sentences all_hun num_sentences [] hun_sentence_idx in
  let block_text := join [SPACE] hun_sentences_for_block in
  let formatted_text := format_srt_text block_text MAX_CHARS_PER_LINE in
  ({| index := index eng_block;
      timestamp := timestamp eng_block;
      text := formatted_text |},
   hun_sentence_idx).

Fixpoint reassemble (all_hun : list str) (eng_blocks : list Block)
         (hun_blocks : list Block) (hun_sentence_idx : nat)
  : list Block * nat :=
  match eng_blocks with
  | [] => (hun_blocks, hun_sentence_idx)
  | eng_block :: rest =>
      let (blk, hun_sentence_idx) :=
        reassemble_block all_hun eng_block hun_sentence_idx in
      reassemble all_hun rest (hun_blocks ++ [blk]) hun_sentence_idx
  end.

(** *** The pipeline ([main.py], lines 150-303), from the parsed blocks
    on.  It returns the blocks, the text written to the output file and
    the engine; [None] stands for the outer loop running out of fuel. *)

Record Output : Type := mkOutput {
  hun_blocks : list Block;
  written : str;
  final_engine : Engine
}.

Definition process_and_generate_srt (eng_blocks : list Block) (e : Engine)
  : option Output :=
  let all_eng := flat_map (fun block => sent_tokenize (text block)) eng_blocks in
  match batch_loop all_eng (length all_eng)
          {| all_hun_sentences := []; current_sentence_idx := 0; engine := e |}
  with
  | None => None
  | Some (_, b) =>
      let (blocks, _) := reassemble (all_hun_sentences b) eng_blocks [] 0 in
      Some {| hun_blocks := blocks;
              written := write_srt blocks;
              final_engine := engine b |}
  end.

End Pipeline.

(** ** The rebalancing pass of the superseded pipeline
    ([main_old.py], lines 91-120) *)

Module Legacy.

(** One pass through the body of [for _ in range(3)]; [None] is [break]. *)
Definition balance_pass (line1 line2 : str) : option (str * str) :=
  let len1 := Z.of_nat (len line1) in
  let len2 := Z.of_nat (len line2) in
  let diff := Z.abs (len1 - len2) in
  if (diff <=? 10)%Z then None
  else if (len1 >? len2)%Z then
    let parts := split line1 in
    if length parts <=? 1 then None
    else
      let moved := last parts [] in          (* parts.pop() *)
      let parts := removelast parts in
      Some (join [SPACE] parts, moved ++ [SPACE] ++ line2)
  else
    let parts := split line2 in
    if length parts <=? 1 then None
    else
      let moved := hd [] parts in            (* parts.pop(0) *)
      let parts := tl parts in
      Some (line1 ++ [SPACE] ++ moved, join [SPACE] parts).

Fixpoint balance_passes (n : nat) (line1 line2 : str) : str * str :=
  match n with
  | O => (line1, line2)
  | S n' =>
      match balance_pass line1 line2 with
      | None => (line1, line2)
      | Some (l1, l2) => balance_passes n' l1 l2
      end
  end.

Definition balance_two_lines (line1 line2 : str) : str * str :=
  let (l1, l2) := balance_passes 3 line1 line2 in
  (strip l1, strip l2).

(** [max(len(a), len(b))] of a pair of lines. *)
Definition max_len (p : str * str) : nat := Nat.max (len (fst p)) (len (snd p)).

(** *** Configuration and term protector of the superseded pipeline
    ([main_old.py], lines 27-50) *)

Definition EXCEPTIONS : list str :=
  map lit
    [ "Angular"; "React"; "Vue"; "Node.js"; "Docker"; "Kubernetes";
      "Git"; "GitHub"; "TypeScript"; "JavaScript"; "AWS"; "Azure" ]%string.

Definition MAX_CHARS_PER_LINE : nat := 60.
Definition MAX_LINES_PER_BLOCK : nat := 2.

(** The f-string that puts a space and the marker on both sides. *)
Definition spaced (term : str) : str :=
  SPACE :: MARKER :: term ++ [MARKER; SPACE].

Definition protect_terms (text : str) : str :=
  fold_left (fun text term => replace text term (spaced term)) EXCEPTIONS text.

Definition unprotect_terms (text : str) : str :=
  let text := replace text [MARKER] [] in
  strip (collapse_ws text).

(** *** The greedy wrapper ([main_old.py], lines 127-169) *)

Record Filling : Type := mkFilling {
  lines : list str;
  cur_line : list str;
  cur_len : nat
}.

(** [for i, word in enumerate(words)], with its [break]; [rest] is
    [words[i+1:]].  At the assignment to [lines[-1]] the list is not
    empty. *)
Fixpoint fill_lines (max_chars max_lines : nat) (words : list str)
         (f : Filling) : Filling :=
  match words with
  | [] => f
  | word :: rest =>
      let extra_space := match cur_line f with [] => 0 | _ :: _ => 1 end in
      if cur_len f + len word + extra_space <=? max_chars then
        fill_lines max_chars max_lines rest
          {| lines := lines f;
             cur_line := cur_line f ++ [word];
             cur_len := cur_len f + (len word + extra_space) |}
      else
        let lines1 := lines f ++ [join [SPACE] (cur_line f)] in
        if max_lines <=? length lines1 then
          let rest_text := join [SPACE] ([word] ++ rest) in
          {| lines := removelast lines1
                      ++ [last lines1 [] ++ [SPACE] ++ rest_text];
             cur_line := [word];
             cur_len := len word |}
        else
          fill_lines max_chars max_lines rest
            {| lines := lines1; cur_line := [word]; cur_len := len word |}
  end.

(** [None] stands for the [IndexError] of [lines[0]] on an empty list. *)
Definition wrap_text_to_lines (text : str) (max_chars max_lines : nat)
  : option str :=
  let words := split text in
  if len text <=? max_chars then Some text
  else
    let f := fill_lines max_chars max_lines words
                        {| lines := []; cur_line := []; cur_len := 0 |} in
    let lines1 :=
      match cur_line f with
      | [] => lines f
      | _ :: _ => lines f ++ [join [SPACE] (cur_line f)]
      end in
    match lines1 with
    | [] => None
    | [l] => Some l
    | l1 :: l2 :: _ =>
        let (line1, line2) := balance_two_lines l1 l2 in
        if len line1 + 1 + len line2 <=? max_chars
        then Some (strip (line1 ++ [SPACE] ++ line2))
        else Some (line1 ++ [NEWLINE] ++ line2)
    end.

(** *** Sentences for translation ([main_old.py], lines 261-274) *)

(** A marked clause: marker, clause, time range. *)
Definition Marked : Type := (str * str * str)%type.

(** The f-string that puts the marker and a space before the clause. *)
Definition marked_text (m : Marked) : str :=
  fst (fst m) ++ [SPACE] ++ snd (fst m).

Fixpoint collect_sentences (marked_clauses : list Marked)
         (sentences : list str) (cur_sentence : list str)
  : list str * list str :=
  match marked_clauses with
  | [] => (sentences, cur_sentence)
  | m :: rest =>
      let cur_sentence := cur_sentence ++ [marked_text m] in
      if ends_sentence (snd (fst m))
      then collect_sentences rest
             (sentences ++ [join [SPACE] cur_sentence]) []
      else collect_sentences rest sentences cur_sentence
  end.

Definition build_sentences_for_translation (marked_clauses : list Marked)
  : list str :=
  let (sentences, cur_sentence) := collect_sentences marked_clauses [] [] in
  match cur_sentence with
  | [] => sentences
  | _ :: _ => sentences ++ [join [SPACE] cur_sentence]
  end.

(** *** Reading the whole text ([main_old.py], lines 188-203) *)

Fixpoint full_text_of (blocks : list str) (full_text : list str) : list str :=
  match blocks with
  | [] => full_text
  | block :: rest =>
      let lines := filter nonblank (split_on block [NEWLINE]) in
      if length lines <? 3 then full_text_of rest full_text
      else
        let content := strip (join [SPACE] (skipn 2 lines)) in
        full_text_of rest (full_text ++ [content])
  end.

Definition read_srt_full_text (text : str) : str * list str :=
  let text := replace (replace text [CR; NEWLINE] [NEWLINE]) [CR] [NEWLINE] in
  let blocks := filter nonblank (split_on text [NEWLINE; NEWLINE]) in
  (join [SPACE] (full_text_of blocks []), blocks).

End Legacy.

(** ** Sample collaborators, used to run the embedding on inputs *)

Module Samples.

(** A segmenter that ends a sentence after each full stop. *)
Fixpoint after_stops (cur : str) (s : str) : list str :=
  match s with
  | [] => push (strip (rev cur)) []
  | c :: s' =>
      if (c =? 46)%N then push (strip (rev (c :: cur))) (after_stops [] s')
      else after_stops (c :: cur) s'
  end.

(** The identity engine with the full-stop segmenter. *)
Definition identity : Collaborators :=
  {| World := unit;
     argos_translate := fun s w => (s, w);
     sent_tokenize := after_stops [] |}.

(** An engine that turns every full stop into a comma and so merges
    whatever it is given into one sentence. *)
Definition merging : Collaborators :=
  {| World := unit;
     argos_translate :=
       fun s w => (map (fun c => if (c =? 46)%N then 44%N else c) s, w);
     sent_tokenize := after_stops [] |}.

(** An engine that counts its invocations and answers with as many
    one-letter sentences as it has been invoked. *)
Definition splitting : Collaborators :=
  {| World := nat;
     argos_translate :=
       fun _ w => (concat (repeat (lit "a. ") (S w)), S w);
     sent_tokenize := after_stops [] |}.

(** A reader of plain decimal numerals with an optional minus sign, to
    stand for the builtin [int] when the parser is run. *)
Fixpoint decimal_value (acc : Z) (s : str) : option Z :=
  match s with
  | [] => Some acc
  | c :: s' =>
      if ((48 <=? c) && (c <=? 57))%N
      then decimal_value (10 * acc + Z.of_N (c - 48)) s'
      else None
  end.

Definition decimal_int (s : str) : option Z :=
  match s with
  | [] => None
  | c :: s' =>
      if (c =? 45)%N then
        match s' with
        | [] => None
        | _ :: _ => option_map Z.opp (decimal_value 0 s')
        end
      else decimal_value 0 s
  end.

Definition start {C : Collaborators} (w : World) : Engine :=
  {| world := w; calls := [] |}.

(** Run the batcher from the start and report the passes made, the
    translated sentences, the final cursor and the engine's record. *)
Definition run (C : Collaborators) (all_eng : list str) (w : World)
  : option (nat * list str * nat * list str) :=
  match batch_loop all_eng (length all_eng)
          {| all_hun_sentences := []; current_sentence_idx := 0;
             engine := start w |}
  with
  | Some (passes, b) =>
      Some (passes, all_hun_sentences b, current_sentence_idx b,
            calls (engine b))
  | None => None
  end.

End Samples.

(* ===================================================================== *)
(** * Part II: properties                                                 *)
(* ===================================================================== *)

Unset Implicit Arguments.

(** ** Facts about the string builtins *)

Module PyStrFacts.

(** A word is a non-empty run of characters that are not white space. *)
Definition no_space (w : str) : Prop := forallb (fun c => negb (isspace c)) w = true.
Definition is_word (w : str) : Prop := w <> [] /\ no_space w.

(** Characters taken by the words of a list when each is followed by one
    separator. *)
Fixpoint weight (ws : list str) : nat :=
  match ws with
  | [] => 0
  | w :: ws' => S (length w) + weight ws'
  end.

Lemma weight_push cur ws : weight (push cur ws) <= S (length cur) + weight ws.
Proof. destruct cur; simpl; lia. Qed.

Lemma scan_weight s :
  length (fst (scan s)) + weight (snd (scan s)) <= length s.
Proof.
  induction s as [|c s IH]; simpl; [lia|].
  destruct (scan s) as [cur ws]; simpl in *.
  destruct (isspace c); simpl.
  - pose proof (weight_push cur ws). lia.
  - lia.
Qed.

Lemma join_weight ws :
  ws <> [] -> S (length (join [SPACE] ws)) = weight ws.
Proof.
  induction ws as [|w ws IH]; [congruence|]. intros _.
  destruct ws as [|w' ws].
  - simpl. lia.
  - change (join [SPACE] (w :: w' :: ws))
      with (w ++ [SPACE] ++ join [SPACE] (w' :: ws)).
    rewrite !length_app. simpl length at 2.
    change (weight (w :: w' :: ws)) with (S (length w) + weight (w' :: ws)).
    rewrite <- IH by discriminate. lia.
Qed.

Lemma join_length_le ws : length (join [SPACE] ws) <= weight ws.
Proof.
  destruct ws as [|w ws]; [simpl; lia|].
  rewrite <- (join_weight (w :: ws)) by discriminate. lia.
Qed.

(** Normalising white space never lengthens a text. *)
Lemma join_split_length s : length (join [SPACE] (split s)) <= length s.
Proof.
  unfold split. pose proof (scan_weight s) as H.
  destruct (scan s) as [cur ws]; simpl in H.
  destruct cur as [|c cur]; simpl push.
  - pose proof (join_length_le ws). lia.
  - pose proof (join_weight ((c :: cur) :: ws)) as J.
    specialize (J ltac:(discriminate)).
    change (weight ((c :: cur) :: ws)) with (S (length (c :: cur)) + weight ws) in J.
    lia.
Qed.

Lemma scan_words s :
  no_space (fst (scan s)) /\ Forall is_word (snd (scan s)).
Proof.
  induction s as [|c s [IHc IHw]]; simpl.
  - split; [reflexivity|constructor].
  - destruct (scan s) as [cur ws]; simpl in *.
    destruct (isspace c) eqn:E; simpl.
    + split; [reflexivity|].
      destruct cur; simpl; [assumption|].
      constructor; [split; [discriminate|assumption]|assumption].
    + split; [|assumption].
      unfold no_space. simpl. rewrite E. exact IHc.
Qed.

Lemma split_words s : Forall is_word (split s).
Proof.
  unfold split. destruct (scan_words s) as [Hc Hw].
  destruct (scan s) as [cur ws]; simpl in *.
  destruct cur; simpl; [assumption|].
  constructor; [split; [discriminate|assumption]|assumption].
Qed.

Lemma scan_app_word w s :
  no_space w -> scan (w ++ s) = (w ++ fst (scan s), snd (scan s)).
Proof.
  unfold no_space. induction w as [|c w IH]; simpl; intros H.
  - destruct (scan s); reflexivity.
  - apply andb_true_iff in H. destruct H as [Hc Hw].
    rewrite (IH Hw). apply negb_true_iff in Hc. rewrite Hc. reflexivity.
Qed.

Lemma split_word_space w s :
  is_word w -> split (w ++ SPACE :: s) = w :: split s.
Proof.
  intros [Hne Hw]. unfold split. rewrite (scan_app_word _ _ Hw).
  change (scan (SPACE :: s)) with (let (cur, ws) := scan s in ([] : str, push cur ws)).
  destruct (scan s) as [cur ws]. simpl fst. simpl snd.
  rewrite app_nil_r. destruct w; [congruence|reflexivity].
Qed.

Lemma split_word w : is_word w -> split w = [w].
Proof.
  intros [Hne Hw]. unfold split.
  rewrite <- (app_nil_r w) at 1. rewrite (scan_app_word _ _ Hw). simpl.
  rewrite app_nil_r. destruct w; [congruence|reflexivity].
Qed.

(** Splitting undoes joining on lists of words. *)
Lemma split_join ws : Forall is_word ws -> split (join [SPACE] ws) = ws.
Proof.
  induction 1 as [|w ws Hw Hws IH]; [reflexivity|].
  destruct ws as [|w' ws].
  - simpl. apply split_word. assumption.
  - change (join [SPACE] (w :: w' :: ws))
      with (w ++ SPACE :: join [SPACE] (w' :: ws)).
    rewrite (split_word_space _ _ Hw), IH. reflexivity.
Qed.

Lemma push_app cur ws ws' : push cur (ws ++ ws') = push cur ws ++ ws'.
Proof. destruct cur; reflexivity. Qed.

Lemma scan_app_space s t :
  scan (s ++ SPACE :: t) = (fst (scan s), snd (scan s) ++ split t).
Proof.
  induction s as [|c s IH].
  - cbn [app]. change (scan (SPACE :: t))
      with (let (cur, ws) := scan t in ([] : list N, push cur ws)).
    unfold split. destruct (scan t). reflexivity.
  - cbn [app scan]. rewrite IH. destruct (scan s) as [cur ws]. cbn [fst snd].
    destruct (isspace c); [|reflexivity].
    cbn [fst snd]. rewrite push_app. reflexivity.
Qed.

(** A single space between two texts separates their words. *)
Lemma split_app_space s t : split (s ++ SPACE :: t) = split s ++ split t.
Proof.
  unfold split at 1. rewrite scan_app_space. unfold split at 2.
  destruct (scan s) as [cur ws]. cbn [fst snd]. apply push_app.
Qed.

Lemma weight_app ws ws' : weight (ws ++ ws') = weight ws + weight ws'.
Proof. induction ws as [|w ws IH]; simpl; lia. Qed.

Lemma join_tl_length ws :
  length (join [SPACE] (tl ws)) <= length (join [SPACE] ws).
Proof.
  destruct ws as [|w [|w' ws]]; simpl; try lia.
  rewrite length_app. simpl. lia.
Qed.

Lemma join_removelast_length ws :
  length (join [SPACE] (removelast ws)) <= length (join [SPACE] ws).
Proof.
  destruct ws as [|w ws]; [simpl; lia|].
  pose proof (app_removelast_last [] (l := w :: ws) ltac:(discriminate)) as E.
  pose proof (join_weight (w :: ws) ltac:(discriminate)) as J.
  assert (Hw : weight (w :: ws)
               = weight (removelast (w :: ws)) + weight [last (w :: ws) []])
    by (rewrite <- weight_app, <- E; reflexivity).
  pose proof (join_length_le (removelast (w :: ws))).
  change (weight [last (w :: ws) []])
    with (S (length (last (w :: ws) [])) + 0) in Hw.
  lia.
Qed.

Lemma lstrip_length s : length (lstrip s) <= length s.
Proof.
  induction s as [|c s IH]; simpl; [lia|].
  destruct (isspace c); simpl; lia.
Qed.

Lemma strip_length s : length (strip s) <= length s.
Proof.
  unfold strip, rstrip. rewrite length_rev.
  pose proof (lstrip_length (rev (lstrip s))) as H. rewrite length_rev in H.
  pose proof (lstrip_length s). lia.
Qed.

Lemma lstrip_nil s : lstrip s = [] -> forallb isspace s = true.
Proof.
  induction s as [|c s IH]; simpl; [reflexivity|].
  destruct (isspace c); [exact IH|discriminate].
Qed.

Lemma lstrip_head s c r : lstrip s = c :: r -> isspace c = false.
Proof.
  induction s as [|d s IH]; simpl; [discriminate|].
  destruct (isspace d) eqn:E; [exact IH|].
  intros [= <- _]. exact E.
Qed.

Lemma strip_nil s : strip s = [] -> forallb isspace s = true.
Proof.
  unfold strip, rstrip. intros H.
  apply (f_equal (@rev char)) in H. rewrite rev_involutive in H. simpl in H.
  apply lstrip_nil in H.
  destruct (lstrip s) as [|c r] eqn:E.
  - apply lstrip_nil. exact E.
  - apply lstrip_head in E. simpl in H.
    rewrite forallb_app in H. simpl in H. rewrite E in H.
    rewrite andb_false_r in H. discriminate.
Qed.

Lemma scan_spaces s : forallb isspace s = true -> scan s = ([], []).
Proof.
  induction s as [|c s IH]; simpl; [reflexivity|].
  intros H. apply andb_true_iff in H. destruct H as [Hc Hs].
  rewrite (IH Hs), Hc. reflexivity.
Qed.

(** A text that strips to nothing has no words. *)
Lemma strip_nil_split s : strip s = [] -> split s = [].
Proof.
  intros H. unfold split. rewrite (scan_spaces _ (strip_nil _ H)). reflexivity.
Qed.

(** The joined words contain the separating space as their only white
    space. *)
Lemma join_words_chars ws c :
  Forall is_word ws -> In c (join [SPACE] ws) -> c = SPACE \/ isspace c = false.
Proof.
  induction 1 as [|w ws [_ Hw] Hws IH]; simpl; [tauto|].
  assert (Hin : forall d, In d w -> isspace d = false).
  { intros d Hd. unfold no_space in Hw. rewrite forallb_forall in Hw.
    apply negb_true_iff. apply Hw. exact Hd. }
  destruct ws as [|w' ws].
  - intros Hc. right. apply Hin. exact Hc.
  - intros Hc. apply in_app_or in Hc. destruct Hc as [Hc|Hc].
    + right. apply Hin. exact Hc.
    + simpl in Hc. destruct Hc as [Hc|Hc]; [left; congruence|].
      apply IH. exact Hc.
Qed.

End PyStrFacts.

(** ** Term protector *)

Section TermProtector.

(** The text without its marker characters. *)
Definition unmarked (s : str) : str :=
  filter (fun c => negb (c =? MARKER)%N) s.

Definition marker_free (s : str) : Prop := ~ In MARKER s.

Lemma unmarked_id s : marker_free s -> unmarked s = s.
Proof.
  unfold marker_free, unmarked. induction s as [|c s IH]; simpl; [reflexivity|].
  intros H. destruct (N.eqb_spec c MARKER) as [->|_]; simpl.
  - exfalso. apply H. left. reflexivity.
  - f_equal. apply IH. intros Hin. apply H. right. exact Hin.
Qed.

Lemma unmarked_app s t : unmarked (s ++ t) = unmarked s ++ unmarked t.
Proof. apply filter_app. Qed.

Lemma unmarked_wrapped term : marker_free term -> unmarked (wrapped term) = term.
Proof.
  intros H. unfold wrapped. change (MARKER :: term ++ [MARKER])
    with ([MARKER] ++ term ++ [MARKER]).
  rewrite !unmarked_app, (unmarked_id _ H). simpl. apply app_nil_r.
Qed.

Lemma startswith_split p s :
  startswith p s = true -> s = p ++ skipn (length p) s.
Proof.
  revert s. induction p as [|a p IH]; intros [|b s]; simpl; try discriminate;
    try reflexivity.
  intros H. apply andb_true_iff in H. destruct H as [Hab Hp].
  apply N.eqb_eq in Hab. subst b. f_equal. apply IH. exact Hp.
Qed.

(** Replacing a term by its wrapped form only adds marker characters. *)
Lemma replace_scan_unmarked old skip s :
  marker_free old -> old <> [] ->
  unmarked (replace_scan old (wrapped old) skip s) = unmarked (skipn skip s).
Proof.
  intros Hfree Hne. revert skip.
  induction s as [|c s IH]; intros skip.
  - destruct skip; reflexivity.
  - destruct skip as [|k]; [|apply IH].
    cbn [replace_scan skipn].
    destruct (startswith old (c :: s)) eqn:E.
    + rewrite unmarked_app, (unmarked_wrapped _ Hfree), IH.
      apply startswith_split in E.
      transitivity (unmarked (old ++ skipn (length old) (c :: s)));
        [|f_equal; symmetry; exact E].
      rewrite unmarked_app, (unmarked_id _ Hfree). f_equal. f_equal.
      destruct old as [|o old]; [congruence|].
      simpl. rewrite Nat.sub_0_r. reflexivity.
    + change (unmarked (c :: s)) with
        (if negb (c =? MARKER)%N then c :: unmarked s else unmarked s).
      change (unmarked (c :: replace_scan old (wrapped old) 0 s)) with
        (if negb (c =? MARKER)%N
         then c :: unmarked (replace_scan old (wrapped old) 0 s)
         else unmarked (replace_scan old (wrapped old) 0 s)).
      rewrite (IH 0). reflexivity.
Qed.

Lemma intersperse_unmarked s :
  unmarked (intersperse_before (wrapped []) s) = unmarked s.
Proof.
  induction s as [|c s IH]; [reflexivity|].
  cbn [intersperse_before]. rewrite unmarked_app.
  change (unmarked (wrapped [])) with ([] : str). cbn [app].
  unfold unmarked in *. simpl. rewrite IH. reflexivity.
Qed.

Lemma replace_wrapped_unmarked s term :
  marker_free term -> unmarked (replace s term (wrapped term)) = unmarked s.
Proof.
  intros H. destruct term as [|t term].
  - apply intersperse_unmarked.
  - unfold replace. rewrite replace_scan_unmarked by (assumption || discriminate).
    reflexivity.
Qed.

Lemma protect_with_unmarked terms s :
  Forall marker_free terms ->
  unmarked (fold_left (fun text term => replace text term (wrapped term)) terms s)
  = unmarked s.
Proof.
  intros H. revert s. induction H as [|t terms Ht Hts IH]; intros s; simpl.
  - reflexivity.
  - rewrite IH. apply replace_wrapped_unmarked. exact Ht.
Qed.

Lemma unprotect_unmarked s : unprotect_terms s = unmarked s.
Proof.
  unfold unprotect_terms, replace.
  induction s as [|c s IH]; [reflexivity|].
  cbn [replace_scan startswith]. rewrite N.eqb_sym, andb_true_r.
  unfold unmarked. simpl filter.
  destruct (c =? MARKER)%N; simpl; rewrite IH; reflexivity.
Qed.

Lemma EXCEPTIONS_marker_free : Forall marker_free EXCEPTIONS.
Proof.
  assert (H : forallb (fun t => negb (existsb (N.eqb MARKER) t)) EXCEPTIONS = true)
    by (vm_compute; reflexivity).
  rewrite forallb_forall in H. apply Forall_forall. intros t Ht Hin.
  specialize (H t Ht). apply negb_true_iff in H.
  assert (existsb (N.eqb MARKER) t = true); [|congruence].
  apply existsb_exists. exists MARKER. split; [exact Hin|apply N.eqb_refl].
Qed.

(** C5.  For every text that does not contain the marker character,
    unprotecting the protected text gives the text back: unprotection is
    a left inverse of protection under the fixed vocabulary. *)
Theorem unprotect_protect_roundtrip (text : str) :
  ~ In MARKER text -> unprotect_terms (protect_terms text) = text.
Proof.
  intros H. rewrite unprotect_unmarked. unfold protect_terms.
  rewrite (protect_with_unmarked _ _ EXCEPTIONS_marker_free).
  apply unmarked_id. exact H.
Qed.

Lemma unprotect_protect_roundtrip_witness :
  ~ In MARKER (lit "Learn React Native on GitHub")
  /\ protect_terms (lit "Learn React Native on GitHub")
     <> lit "Learn React Native on GitHub"
  /\ unprotect_terms (protect_terms (lit "Learn React Native on GitHub"))
     = lit "Learn React Native on GitHub".
Proof.
  assert (H : ~ In MARKER (lit "Learn React Native on GitHub")).
  { intros H. vm_compute in H. repeat (destruct H as [H|H]; [discriminate H|]).
    exact H. }
  split; [exact H|]. split; [vm_compute; discriminate|].
  exact (unprotect_protect_roundtrip _ H).
Defined.

(** The ordering rule of the vocabulary: no term occurs inside a term
that is listed after it. *)
Fixpoint longest_first (terms : list str) : bool :=
  match terms with
  | [] => true
  | t :: later =>
    forallb (fun t' => negb (contains t' t)) later && longest_first later
  end.

Lemma startswith_app_l p q s :
  startswith (p ++ q) s = true -> startswith p s = true.
Proof.
  revert s. induction p as [|a p IH]; intros s; [reflexivity|].
  destruct s as [|b s]; [discriminate|]. cbn [app startswith].
  intros H. apply andb_true_iff in H. destruct H as [Hab Hp].
  rewrite Hab. apply IH. exact Hp.
Qed.

(** What the replaced text starts with, up to its first marker, the text
itself starts with. *)
Lemma replace_scan_startswith old u s :
  marker_free u ->
  startswith u (replace_scan old (wrapped old) 0 s) = true ->
  startswith u s = true.
Proof.
  revert s. induction u as [|a u IH]; intros s Hu; [reflexivity|].
  assert (Ha : (a =? MARKER)%N = false).
  { apply N.eqb_neq. intros ->. apply Hu. left. reflexivity. }
  assert (Hu' : marker_free u) by (intros Hin; apply Hu; right; exact Hin).
  destruct s as [|c s]; [discriminate|].
  cbn [replace_scan]. destruct (startswith old (c :: s)).
  - cbn [wrapped app startswith]. rewrite Ha. discriminate.
  - cbn [startswith]. intros H. apply andb_true_iff in H. destruct H as [Hac Hs].
    rewrite Hac. apply (IH s Hu'). exact Hs.
Qed.

Lemma replace_scan_absent old new s :
  contains s old = false -> replace_scan old new 0 s = s.
Proof.
  induction s as [|c s IH]; [reflexivity|].
  cbn [contains replace_scan]. intros H. apply orb_false_iff in H.
  destruct H as [Hs Hc]. rewrite Hs, (IH Hc). reflexivity.
Qed.

Section ShadowedTerm.

(** A term [t0 :: old'] and a longer term [t0 :: old' ++ more] that starts
with it.  [wrap_opaque] says that the longer term does not begin inside
the wrapped form of the shorter one. *)
Variables (t0 : char) (old' more : str).
Let old : str := t0 :: old'.
Let longer : str := t0 :: old' ++ more.
Hypothesis longer_free : marker_free (old' ++ more).
Hypothesis wrap_opaque :
  forall r, contains (wrapped old ++ r) longer = contains r longer.

Lemma shadowed_absent skip s :
  contains (replace_scan old (wrapped old) skip s) longer = false.
Proof.
  revert skip. induction s as [|c s IH]; intros skip.
  - destruct skip; reflexivity.
  - destruct skip as [|k]; [|apply IH].
    cbn [replace_scan]. destruct (startswith old (c :: s)) eqn:E.
    + rewrite wrap_opaque. apply IH.
    + cbn [contains]. rewrite IH, orb_false_r.
      unfold longer. cbn [startswith].
      destruct (t0 =? c)%N eqn:Ec; [|reflexivity]. cbn [andb].
      destruct (startswith (old' ++ more) (replace_scan old (wrapped old) 0 s))
        eqn:Es; [|reflexivity].
      apply (replace_scan_startswith old _ s longer_free) in Es.
      apply startswith_app_l in Es.
      unfold old in E. cbn [startswith] in E. rewrite Ec, Es in E. discriminate E.
Qed.

(** Once the shorter term has been wrapped, replacing the longer one
changes nothing. *)
Lemma shadowed_replace_noop s :
  replace (replace s old (wrapped old)) longer (wrapped longer)
  = replace s old (wrapped old).
Proof.
  unfold replace at 1. unfold longer at 1.
  apply replace_scan_absent. unfold replace, old. apply shadowed_absent.
Qed.

End ShadowedTerm.

Lemma marker_free_dec (s : str) :
  existsb (N.eqb MARKER) s = false -> marker_free s.
Proof.
  intros H Hin.
  assert (existsb (N.eqb MARKER) s = true); [|congruence].
  apply existsb_exists. exists MARKER. split; [exact Hin|apply N.eqb_refl].
Qed.

Lemma react_native_noop s :
  replace (replace s (lit "React") (wrapped (lit "React")))
        (lit "React Native") (wrapped (lit "React Native"))
  = replace s (lit "React") (wrapped (lit "React")).
Proof.
  apply (shadowed_replace_noop 82%N (lit "eact") (lit " Native")).
  - apply marker_free_dec. vm_compute. reflexivity.
  - intros r. vm_compute. reflexivity.
Qed.

Lemma github_noop s :
  replace (replace s (lit "Git") (wrapped (lit "Git")))
        (lit "GitHub") (wrapped (lit "GitHub"))
  = replace s (lit "Git") (wrapped (lit "Git")).
Proof.
  apply (shadowed_replace_noop 71%N (lit "it") (lit "Hub")).
  - apply marker_free_dec. vm_compute. reflexivity.
  - intros r. vm_compute. reflexivity.
Qed.

(** The vocabulary without the two entries that follow a term they start
with. *)
Definition effective_vocabulary : list str :=
  map lit
  [ "Angular"; "React"; "Python"; "Vue"; "Node.js";
    "Docker"; "Kubernetes"; "Git"; "TypeScript"; "JavaScript";
    "AWS"; "Azure"; "History API"; "Zero to Mastery"; "C++"; "C#";
    "C-sharp"; "Java"; "Objective-C"; "SQL" ]%string.

Lemma shadowed_entries_dead (text : str) :
  protect_terms text
  = fold_left (fun text term => replace text term (wrapped term))
            effective_vocabulary text.
Proof.
  unfold protect_terms, EXCEPTIONS, effective_vocabulary.
  cbn [map fold_left]. rewrite react_native_noop, github_noop. reflexivity.
Qed.

(** C8.  The vocabulary of [main.py] is not in longest-first order:
"React" is listed before "React Native" and "Git" before "GitHub".  The
shorter term is wrapped first, as the two evaluations show, and the
longer entry then never matches: for every text, protection does what
it would do with the two longer entries left out. *)
Theorem EXCEPTIONS_not_longest_first :
  longest_first EXCEPTIONS = false
  /\ nth_error EXCEPTIONS 1 = Some (lit "React")
  /\ nth_error EXCEPTIONS 2 = Some (lit "React Native")
  /\ contains (lit "React Native") (lit "React") = true
  /\ nth_error EXCEPTIONS 8 = Some (lit "Git")
  /\ nth_error EXCEPTIONS 9 = Some (lit "GitHub")
  /\ contains (lit "GitHub") (lit "Git") = true
  /\ protect_terms (lit "React Native")
   = MARKER :: lit "React" ++ MARKER :: lit " Native"
  /\ protect_terms (lit "GitHub")
   = MARKER :: lit "Git" ++ MARKER :: lit "Hub"
  /\ forall text,
     protect_terms text
     = fold_left (fun text term => replace text term (wrapped term))
                 effective_vocabulary text.
Proof.
  repeat (split; [vm_compute; reflexivity|]).
  exact shadowed_entries_dead.
Qed.

End TermProtector.

(** ** Line wrapper *)

Section LineWrapper.

Import PyStrFacts.

Lemma format_short text max_chars_per_line :
  len (join [SPACE] (split text)) <= max_chars_per_line ->
  format_srt_text text max_chars_per_line = join [SPACE] (split text).
Proof.
  intros H. unfold format_srt_text.
  destruct (strip text) eqn:E.
  - rewrite (strip_nil_split _ E). reflexivity.
  - apply Nat.leb_le in H. rewrite H. reflexivity.
Qed.

(** C7, as the code has it.  A text no longer than the per-line budget
    comes back as one line with its white space normalised: the words of
    the text joined by single spaces.  It comes back unchanged exactly
    when it already has that form. *)
Theorem format_srt_text_short (text : str) (max_chars_per_line : nat) :
  len text <= max_chars_per_line ->
  format_srt_text text max_chars_per_line = join [SPACE] (split text)
  /\ ~ In NEWLINE (format_srt_text text max_chars_per_line)
  /\ (format_srt_text text max_chars_per_line = text
      <-> join [SPACE] (split text) = text).
Proof.
  intros H.
  assert (E : format_srt_text text max_chars_per_line = join [SPACE] (split text)).
  { apply format_short. pose proof (join_split_length text). unfold len in *. lia. }
  rewrite E. split; [reflexivity|]. split; [|tauto].
  intros Hin. apply (join_words_chars _ _ (split_words text)) in Hin.
  destruct Hin as [Hin|Hin]; [discriminate Hin|]. vm_compute in Hin. discriminate.
Qed.

Lemma format_srt_text_short_witness :
  len (lit "Szia vilag.") <= MAX_CHARS_PER_LINE
  /\ format_srt_text (lit "Szia vilag.") MAX_CHARS_PER_LINE = lit "Szia vilag.".
Proof.
  assert (H : len (lit "Szia vilag.") <= MAX_CHARS_PER_LINE)
    by (vm_compute; lia).
  split; [exact H|].
  destruct (format_srt_text_short _ _ H) as [E _]. rewrite E.
  vm_compute. reflexivity.
Defined.

(** The claim as worded fails: a short text with a doubled space does not
    come back unchanged. *)
Lemma wrapper_changes_short_text :
  ~ (forall (text : str) (max_chars_per_line : nat),
        len text <= max_chars_per_line ->
        format_srt_text text max_chars_per_line = text).
Proof.
  intros H. specialize (H (lit "a  b") MAX_CHARS_PER_LINE).
  assert (L : len (lit "a  b") <= MAX_CHARS_PER_LINE) by (vm_compute; lia).
  specialize (H L). vm_compute in H. discriminate H.
Qed.

End LineWrapper.

(** ** Batcher *)

(** A strictly increasing sequence of cursors cuts the positions below its
    last value into disjoint stretches. *)
Lemma increasing_covers (f : nat -> nat) (n : nat) :
  (forall k, k < n -> f k < f (S k)) ->
  forall i, f 0 <= i < f n -> exists k, k < n /\ f k <= i < f (S k).
Proof.
  induction n as [|n IH]; intros Hinc i Hi; [lia|].
  destruct (Nat.lt_ge_cases i (f n)) as [Hlt|Hge].
  - destruct (IH (fun k Hk => Hinc k (Nat.lt_lt_succ_r _ _ Hk)) i) as [k [Hk Hik]];
      [lia|]. exists k. split; [lia|exact Hik].
  - exists n. split; [lia|lia].
Qed.

Lemma increasing_monotone (f : nat -> nat) (n : nat) :
  (forall k, k < n -> f k < f (S k)) ->
  forall j k, j <= k -> k <= n -> f j <= f k.
Proof.
  intros Hinc j k Hjk. induction Hjk as [|k Hjk IH]; intros Hk; [lia|].
  specialize (Hinc k ltac:(lia)). specialize (IH ltac:(lia)). lia.
Qed.

Lemma slice_length {A : Type} (l : list A) (a n : nat) :
  a + n <= length l -> length (slice l a (a + n)) = n.
Proof.
  intros H. unfold slice. rewrite length_firstn, length_skipn. lia.
Qed.

Lemma slice_one (l : list (list N)) (a : nat) :
  a < length l -> slice l a (a + 1) = [nth a l []].
Proof.
  revert a. induction l as [|x l IH]; intros a H; simpl in H; [lia|].
  destruct a as [|a].
  - reflexivity.
  - unfold slice in *. specialize (IH a ltac:(lia)).
    replace (S a + 1 - S a) with (a + 1 - a) by lia. simpl skipn. simpl nth.
    exact IH.
Qed.

Lemma slice_head_chars (l : list (list N)) (a n : nat) :
  a < length l -> len (nth a l []) <= total_chars (slice l a (a + S n)).
Proof.
  revert a. induction l as [|x l IH]; intros a H; simpl in H; [lia|].
  destruct a as [|a].
  - unfold slice. simpl. lia.
  - unfold slice in *. specialize (IH a ltac:(lia)).
    replace (S a + S n - S a) with (a + S n - a) by lia. simpl skipn. simpl nth.
    exact IH.
Qed.

Lemma total_chars_In (l : list (list N)) (x : list N) :
  In x l -> len x <= total_chars l.
Proof.
  induction l as [|y l IH]; [intros []|].
  intros [->|H]; simpl; [lia|]. specialize (IH H). lia.
Qed.

Lemma slice_In_nth (l : list (list N)) (a n j : nat) :
  a <= j < a + n -> j < length l -> In (nth j l []) (slice l a (a + n)).
Proof.
  intros Hj Hl. unfold slice. replace (a + n - a) with n by lia.
  replace j with (a + (j - a)) by lia. rewrite <- nth_skipn.
  assert (Hk : j - a < n) by lia.
  assert (Hs : j - a < length (skipn a l)) by (rewrite length_skipn; lia).
  rewrite <- (firstn_skipn n (skipn a l)) at 1.
  rewrite app_nth1 by (rewrite length_firstn; lia).
  apply nth_In. rewrite length_firstn. lia.
Qed.

Section BatcherFacts.

Context {C : Collaborators}.
Variable all_eng : list str.

Local Abbreviation idx := current_sentence_idx.

Lemma attempt_loop_S n b :
  attempt_loop all_eng (S n) b =
  match attempt_body all_eng (S n) b with
  | Continue a b' => attempt_loop all_eng a b'
  | Break b' => b'
  end.
Proof.
  simp attempt_loop.
  destruct (Logic.inspect (attempt_body all_eng (S n) b)) as [f e].
  transitivity (match f with
                | Continue a b' => attempt_loop all_eng a b'
                | Break b' => b'
                end).
  - destruct f; simp attempt_loop; reflexivity.
  - rewrite e. reflexivity.
Qed.

Lemma translate_text_calls text e :
  calls (snd (translate_text text e)) = calls e ++ [protect_terms text].
Proof.
  unfold translate_text. destruct (argos_translate _ _). reflexivity.
Qed.

(** The batch taken at the cursor, the engine's answer to it and the
    sentences of the answer. *)
Definition batch_at (n : nat) (b : Batcher) : list str :=
  slice all_eng (idx b) (idx b + n).
Definition answer_at (n : nat) (b : Batcher) : str * Engine :=
  translate_text (join [SPACE] (batch_at n b)) (engine b).
Definition hun_at (n : nat) (b : Batcher) : list str :=
  sent_tokenize (fst (answer_at n b)).

(** The four ways through the body of the attempt loop. *)
Lemma attempt_body_cases n b :
  attempt_body all_eng n b =
  if MAX_CHARS_PER_BLOCK <? total_chars (batch_at n b) then Continue (n - 1) b
  else if length (hun_at n b) =? length (batch_at n b) then
    Break (mkBatcher (all_hun_sentences b ++ hun_at n b)
                     (idx b + length (batch_at n b)) (snd (answer_at n b)))
  else if 1 <? n then
    Continue 1 (mkBatcher (all_hun_sentences b) (idx b) (snd (answer_at n b)))
  else
    Break (mkBatcher (all_hun_sentences b ++ hun_at n b) (idx b + 1)
                     (snd (answer_at n b))).
Proof.
  unfold attempt_body, hun_at, answer_at, batch_at.
  destruct (translate_text _ _). reflexivity.
Qed.

Lemma forced_single_eq b :
  idx b < length all_eng ->
  forced_single all_eng b =
  let r := translate_text (nth (idx b) all_eng []) (engine b) in
  mkBatcher (all_hun_sentences b ++ sent_tokenize (fst r)) (idx b + 1) (snd r).
Proof.
  intros H. unfold forced_single. apply Nat.ltb_lt in H. rewrite H.
  destruct (translate_text _ _). reflexivity.
Qed.

(** Every run of the attempt loop moves the cursor forward, and never
    past the end. *)
Lemma attempt_loop_progress n b :
  idx b < length all_eng -> n <= length all_eng - idx b ->
  idx b < idx (attempt_loop all_eng n b) <= length all_eng.
Proof.
  revert b. induction n as [n IH] using lt_wf_ind. intros b Hb Hn.
  destruct n as [|n].
  - simp attempt_loop. rewrite forced_single_eq by exact Hb. simpl. lia.
  - rewrite attempt_loop_S, attempt_body_cases.
    destruct (MAX_CHARS_PER_BLOCK <? _).
    + replace (S n - 1) with n by lia. apply IH; lia.
    + unfold batch_at. rewrite slice_length by lia.
      destruct (_ =? _); [simpl; lia|].
      destruct (1 <? S n) eqn:E.
      * apply Nat.ltb_lt in E.
        exact (IH 1 E (mkBatcher _ _ _) Hb ltac:(simpl; lia)).
      * simpl. lia.
Qed.

Lemma batch_body_progress b :
  idx b < length all_eng ->
  idx b < idx (batch_body all_eng b) <= length all_eng.
Proof.
  intros H. unfold batch_body. apply attempt_loop_progress; lia.
Qed.

(** Fuel for as many passes as sentences remain is enough, and the loop
    stops with the cursor at the end. *)
Lemma batch_loop_total fuel b :
  idx b <= length all_eng -> length all_eng - idx b <= fuel ->
  exists passes b',
    batch_loop all_eng fuel b = Some (passes, b')
    /\ passes <= length all_eng - idx b
    /\ idx b' = length all_eng.
Proof.
  revert b. induction fuel as [|fuel IH]; intros b Hb Hf.
  - exists 0, b. cbn [batch_loop].
    replace (idx b <? length all_eng) with false
      by (symmetry; apply Nat.ltb_ge; lia).
    repeat split; lia.
  - cbn [batch_loop]. destruct (idx b <? length all_eng) eqn:E.
    + apply Nat.ltb_lt in E. pose proof (batch_body_progress b E) as P.
      destruct (IH (batch_body all_eng b)) as [k [b' [R [Hk Hb']]]]; [lia|lia|].
      exists (S k), b'. rewrite R. repeat split; [lia|exact Hb'].
    + apply Nat.ltb_ge in E. exists 0, b. repeat split; lia.
Qed.

(** The loop computes the iterated body, and its test held before each
    pass. *)
Lemma batch_loop_iter fuel b passes b' :
  batch_loop all_eng fuel b = Some (passes, b') ->
  b' = Nat.iter passes (batch_body all_eng) b
  /\ forall k, k < passes ->
       idx (Nat.iter k (batch_body all_eng) b) < length all_eng.
Proof.
  revert b passes. induction fuel as [|fuel IH]; intros b passes; cbn [batch_loop].
  - destruct (idx b <? length all_eng); [discriminate|].
    intros [= <- <-]. split; [reflexivity|]. intros k Hk. lia.
  - destruct (idx b <? length all_eng) eqn:E.
    + destruct (batch_loop all_eng fuel (batch_body all_eng b))
        as [[k b'']|] eqn:R; [|discriminate].
      intros [= <- <-]. destruct (IH _ _ R) as [Hb Hlt].
      split; [rewrite Nat.iter_succ_r; exact Hb|].
      intros [|j] Hj; [apply Nat.ltb_lt; exact E|].
      rewrite Nat.iter_succ_r. apply Hlt. lia.
    + intros [= <- <-]. split; [reflexivity|]. intros k Hk. lia.
Qed.

(** A pass never carries the cursor over a sentence that is longer than
the limit. *)
Lemma attempt_loop_no_jump n b j :
  idx b < length all_eng -> n <= length all_eng - idx b ->
  idx b < j < idx (attempt_loop all_eng n b) ->
  len (nth j all_eng []) <= MAX_CHARS_PER_BLOCK.
Proof.
  revert b. induction n as [n IH] using lt_wf_ind. intros b Hb Hn.
  destruct n as [|n].
  - simp attempt_loop. rewrite forced_single_eq by exact Hb. simpl. lia.
  - rewrite attempt_loop_S, attempt_body_cases.
    destruct (MAX_CHARS_PER_BLOCK <? _) eqn:E.
    + replace (S n - 1) with n by lia. apply IH; lia.
    + apply Nat.ltb_ge in E. unfold batch_at.
      rewrite slice_length by lia.
      destruct (_ =? _).
      * cbn [current_sentence_idx]. intros Hj.
        pose proof (slice_In_nth all_eng (idx b) (S n) j ltac:(lia) ltac:(lia)) as Hin.
        apply total_chars_In in Hin. unfold batch_at in E. lia.
      * destruct (1 <? S n) eqn:E1.
        -- apply Nat.ltb_lt in E1.
           exact (IH 1 E1 (mkBatcher _ _ _) Hb ltac:(simpl; lia)).
        -- simpl. lia.
Qed.

(** The batcher after one pass through the body of the attempt loop. *)
Definition after (f : Flow) : Batcher :=
  match f with
  | Continue _ b => b
  | Break b => b
  end.

(** A sentence longer than the limit makes every attempt size fail the
    character test, so the attempt loop falls through to its [else]. *)
Lemma attempt_loop_long_sentence n b :
  idx b < length all_eng ->
  MAX_CHARS_PER_BLOCK < len (nth (idx b) all_eng []) ->
  attempt_loop all_eng n b = forced_single all_eng b.
Proof.
  intros Hb Hlong. induction n as [|n IH].
  - simp attempt_loop. reflexivity.
  - rewrite attempt_loop_S, attempt_body_cases.
    pose proof (slice_head_chars all_eng (idx b) n Hb) as Hs.
    replace (MAX_CHARS_PER_BLOCK <? total_chars (batch_at (S n) b)) with true
      by (symmetry; apply Nat.ltb_lt; unfold batch_at; lia).
    replace (S n - 1) with n by lia. exact IH.
Qed.

(** The two kinds of text the engine is handed during a pass that starts
    at the cursor of [b]: a batch that passed the character test, or the
    single over-long sentence of the forced fallback. *)
Definition checked_call (b : Batcher) (c : str) : Prop :=
  exists n, 1 <= n <= MAX_SENTENCES_PER_BLOCK
            /\ total_chars (batch_at n b) <= MAX_CHARS_PER_BLOCK
            /\ c = protect_terms (join [SPACE] (batch_at n b)).

Definition forced_call (b : Batcher) (c : str) : Prop :=
  MAX_CHARS_PER_BLOCK < len (nth (idx b) all_eng [])
  /\ c = protect_terms (nth (idx b) all_eng []).

Lemma attempt_loop_calls n b :
  idx b < length all_eng -> n <= MAX_SENTENCES_PER_BLOCK ->
  (n = 0 -> MAX_CHARS_PER_BLOCK < len (nth (idx b) all_eng [])) ->
  exists new,
    calls (engine (attempt_loop all_eng n b)) = calls (engine b) ++ new
    /\ Forall (fun c => checked_call b c \/ forced_call b c) new.
Proof.
  revert b. induction n as [n IH] using lt_wf_ind. intros b Hb Hn H0.
  destruct n as [|n].
  - simp attempt_loop. rewrite forced_single_eq by exact Hb. cbn zeta.
    cbn [engine]. rewrite translate_text_calls.
    eexists. split; [reflexivity|].
    constructor; [|constructor]. right. split; [apply H0|]; reflexivity.
  - rewrite attempt_loop_S, attempt_body_cases.
    assert (Hchk : total_chars (batch_at (S n) b) <= MAX_CHARS_PER_BLOCK ->
                   checked_call b (protect_terms (join [SPACE] (batch_at (S n) b)))).
    { intros Hle. exists (S n). split; [lia|]. split; [exact Hle|reflexivity]. }
    destruct (MAX_CHARS_PER_BLOCK <? _) eqn:E.
    + apply Nat.ltb_lt in E. replace (S n - 1) with n by lia.
      apply IH; [lia|exact Hb|lia|].
      intros ->. unfold batch_at in E. rewrite slice_one in E by exact Hb.
      simpl in E. lia.
    + apply Nat.ltb_ge in E. specialize (Hchk E).
      assert (Hcalls : calls (snd (answer_at (S n) b))
                       = calls (engine b)
                         ++ [protect_terms (join [SPACE] (batch_at (S n) b))])
        by apply translate_text_calls.
      destruct (_ =? _).
      * cbn [engine]. eexists. split; [exact Hcalls|].
        constructor; [left; exact Hchk|constructor].
      * destruct (1 <? S n) eqn:E1.
        -- apply Nat.ltb_lt in E1.
           destruct (IH 1 E1 (mkBatcher (all_hun_sentences b) (idx b)
                                        (snd (answer_at (S n) b))))
             as [new [Hnew Hall]];
             [exact Hb|unfold MAX_SENTENCES_PER_BLOCK; lia|discriminate|].
           cbn [engine] in Hnew. rewrite Hcalls, <- app_assoc in Hnew.
           eexists. split; [exact Hnew|].
           constructor; [left; exact Hchk|exact Hall].
        -- cbn [engine]. eexists. split; [exact Hcalls|].
           constructor; [left; exact Hchk|constructor].
Qed.

End BatcherFacts.

(** C1.  Termination and exact consumption.  Whatever the translation
    engine and the segmenter answer, every pass of the outer loop made with
    the cursor before the end moves the cursor forward by at least one
    sentence and not past the end; the loop started at cursor 0 stops
    within [len(all_eng_sentences)] passes with the cursor equal to the
    input length; and every source position lies in the stretch consumed
    by exactly one pass. *)
Theorem batcher_terminates_and_consumes
        (C : Collaborators) (all_eng : list str) (e : Engine) :
  let start := mkBatcher [] 0 e in
  let cursor := fun k =>
    current_sentence_idx (Nat.iter k (batch_body all_eng) start) in
  (forall b, current_sentence_idx b < length all_eng ->
             current_sentence_idx b + 1
               <= current_sentence_idx (batch_body all_eng b)
               <= length all_eng)
  /\ exists passes b',
       batch_loop all_eng (length all_eng) start = Some (passes, b')
       /\ passes <= length all_eng
       /\ current_sentence_idx b' = length all_eng
       /\ cursor passes = length all_eng
       /\ (forall k, k < passes -> cursor k < cursor (S k))
       /\ (forall i, i < length all_eng ->
             exists k, k < passes /\ cursor k <= i < cursor (S k)
                       /\ forall k', k' < passes ->
                                     cursor k' <= i < cursor (S k') -> k' = k).
Proof.
  intros start cursor. split.
  - intros b Hb. pose proof (batch_body_progress all_eng b Hb). lia.
  - destruct (batch_loop_total all_eng (length all_eng) start)
      as [passes [b' [R [Hp Hb']]]]; [simpl; lia|simpl; lia|].
    exists passes, b'. destruct (batch_loop_iter all_eng _ _ _ _ R) as [Hiter Hguard].
    assert (Hend : cursor passes = length all_eng)
      by (unfold cursor; rewrite <- Hiter; exact Hb').
    assert (Hinc : forall k, k < passes -> cursor k < cursor (S k)).
    { intros k Hk. unfold cursor. cbn [Nat.iter nat_rect].
      apply batch_body_progress. apply Hguard. exact Hk. }
    split; [exact R|]. split; [simpl in Hp; lia|]. split; [exact Hb'|].
    split; [exact Hend|]. split; [exact Hinc|].
    intros i Hi.
    destruct (increasing_covers cursor passes Hinc i) as [k [Hk Hik]].
    { rewrite Hend. unfold cursor. simpl. lia. }
    exists k. split; [exact Hk|]. split; [exact Hik|].
    intros k' Hk' Hik'.
    destruct (Nat.lt_trichotomy k' k) as [Hlt|[Heq|Hgt]]; [|exact Heq|].
    + pose proof (increasing_monotone cursor passes Hinc (S k') k
                    ltac:(lia) ltac:(lia)). lia.
    + pose proof (increasing_monotone cursor passes Hinc (S k) k'
                    ltac:(lia) ltac:(lia)). lia.
Qed.

Lemma batcher_terminates_and_consumes_witness :
  let all_eng := [lit "Hello world."; lit "This is a test."; lit "Goodbye now."] in
  let start := mkBatcher [] 0 (Samples.start (C := Samples.merging) tt) in
  current_sentence_idx start < length all_eng
  /\ current_sentence_idx start + 1
       <= current_sentence_idx (batch_body all_eng start) <= length all_eng
  /\ exists passes b',
       batch_loop all_eng (length all_eng) start = Some (passes, b')
       /\ passes <= length all_eng
       /\ current_sentence_idx b' = length all_eng.
Proof.
  intros all_eng start.
  assert (H : current_sentence_idx start < length all_eng) by (simpl; lia).
  destruct (batcher_terminates_and_consumes Samples.merging all_eng
              (Samples.start (C := Samples.merging) tt))
    as [Hstep [passes [b' [R [Hp [Hb _]]]]]].
  split; [exact H|]. split; [exact (Hstep start H)|].
  exists passes, b'. split; [exact R|]. split; [exact Hp|exact Hb].
Defined.

(** C2.  Mismatch policy.  When a batch of [attempt] sentences passed the
    character test and the engine's answer does not split into [attempt]
    sentences: with [attempt > 1] the pass continues with the attempt size
    set to 1, nothing appended and the cursor unmoved, so the next batch
    tried is the single sentence at the cursor; with [attempt = 1] the pass
    ends the attempt loop with all the sentences of the answer appended and
    the cursor advanced by exactly 1. *)
Theorem mismatch_policy
        (C : Collaborators) (all_eng : list str) (attempt : nat) (b : Batcher) :
  let block_sentences :=
    slice all_eng (current_sentence_idx b) (current_sentence_idx b + attempt) in
  let answer := translate_text (join [SPACE] block_sentences) (engine b) in
  let hun_sentences := sent_tokenize (fst answer) in
  current_sentence_idx b + attempt <= length all_eng ->
  total_chars block_sentences <= MAX_CHARS_PER_BLOCK ->
  length hun_sentences <> attempt ->
  (1 < attempt ->
     let b1 := mkBatcher (all_hun_sentences b) (current_sentence_idx b)
                         (snd answer) in
     attempt_body all_eng attempt b = Continue 1 b1
     /\ attempt_loop all_eng attempt b = attempt_loop all_eng 1 b1)
  /\ (attempt = 1 ->
     let b1 := mkBatcher (all_hun_sentences b ++ hun_sentences)
                         (current_sentence_idx b + 1) (snd answer) in
     attempt_body all_eng attempt b = Break b1
     /\ attempt_loop all_eng attempt b = b1).
Proof.
  intros block answer hun Hfit Hchars Hmis.
  assert (Hlen : length block = attempt) by (apply slice_length; exact Hfit).
  assert (Hbody : attempt_body all_eng attempt b =
                  if 1 <? attempt
                  then Continue 1 (mkBatcher (all_hun_sentences b)
                                             (current_sentence_idx b) (snd answer))
                  else Break (mkBatcher (all_hun_sentences b ++ hun)
                                        (current_sentence_idx b + 1) (snd answer))).
  { rewrite attempt_body_cases. fold block. unfold hun_at, answer_at, batch_at.
    fold block. fold answer. fold hun.
    replace (MAX_CHARS_PER_BLOCK <? total_chars block) with false
      by (symmetry; apply Nat.ltb_ge; exact Hchars).
    replace (length hun =? length block) with false
      by (symmetry; apply Nat.eqb_neq; rewrite Hlen; exact Hmis).
    reflexivity. }
  split.
  - intros Hgt b1. apply Nat.ltb_lt in Hgt. rewrite Hgt in Hbody.
    split; [exact Hbody|].
    destruct attempt as [|n]; [discriminate|].
    rewrite attempt_loop_S, Hbody. reflexivity.
  - intros -> b1. cbn in Hbody. split; [exact Hbody|].
    rewrite attempt_loop_S, Hbody. reflexivity.
Qed.

Lemma mismatch_policy_witness :
  (let all_eng := [lit "Hello world."; lit "This is a test."; lit "Goodbye now."] in
   let b := mkBatcher [] 0 (Samples.start (C := Samples.merging) tt) in
   attempt_loop all_eng 3 b
   = attempt_loop all_eng 1
       (mkBatcher [] 0
          (mkEngine (C := Samples.merging) tt
             [lit "Hello world. This is a test. Goodbye now."])))
  /\ (let all_eng := [lit "Hi."] in
      let b := mkBatcher [] 0 (Samples.start (C := Samples.splitting) 1) in
      current_sentence_idx (attempt_loop all_eng 1 b) = 1
      /\ all_hun_sentences (attempt_loop all_eng 1 b) = [lit "a."; lit "a."]).
Proof.
  split.
  - intros all_eng b.
    destruct (mismatch_policy Samples.merging all_eng 3 b) as [[_ H] _].
    + simpl. lia.
    + apply Nat.leb_le. vm_compute. reflexivity.
    + vm_compute. intros H. discriminate H.
    + lia.
    + exact H.
  - intros all_eng b.
    destruct (mismatch_policy Samples.splitting all_eng 1 b) as [_ H].
    + simpl. lia.
    + apply Nat.leb_le. vm_compute. reflexivity.
    + vm_compute. intros H. discriminate H.
    + destruct (H eq_refl) as [_ E]. rewrite E. split; reflexivity.
Defined.

(** C6, as the code has it.  Cheap rejection: when the batch of [attempt]
    sentences at the cursor is longer than the limit, the pass only
    decrements the attempt size; the batcher, and with it the engine and
    its record of invocations, is left as it was.  A pass through the body
    of the attempt loop that does invoke the engine does so on a batch
    within the limit.  Over a whole outer pass, every text handed to the
    engine is such a batch, or else the single over-long sentence at the
    cursor, handed over by the forced fallback. *)
Theorem cheap_rejection
        (C : Collaborators) (all_eng : list str) (attempt : nat) (b : Batcher) :
  let block_sentences :=
    slice all_eng (current_sentence_idx b) (current_sentence_idx b + attempt) in
  (MAX_CHARS_PER_BLOCK < total_chars block_sentences ->
     attempt_body all_eng attempt b = Continue (attempt - 1) b)
  /\ (calls (engine (after (attempt_body all_eng attempt b))) <> calls (engine b) ->
      total_chars block_sentences <= MAX_CHARS_PER_BLOCK
      /\ calls (engine (after (attempt_body all_eng attempt b)))
         = calls (engine b) ++ [protect_terms (join [SPACE] block_sentences)])
  /\ (current_sentence_idx b < length all_eng ->
      exists new,
        calls (engine (batch_body all_eng b)) = calls (engine b) ++ new
        /\ Forall (fun c => checked_call all_eng b c \/ forced_call all_eng b c) new).
Proof.
  intros block. split; [|split].
  - intros H. rewrite attempt_body_cases. unfold batch_at. fold block.
    apply Nat.ltb_lt in H. rewrite H. reflexivity.
  - assert (D : after (attempt_body all_eng attempt b) = b
                 \/ total_chars block <= MAX_CHARS_PER_BLOCK
                    /\ calls (engine (after (attempt_body all_eng attempt b)))
                       = calls (engine b) ++ [protect_terms (join [SPACE] block)]).
    { rewrite attempt_body_cases. unfold batch_at. fold block.
      destruct (MAX_CHARS_PER_BLOCK <? total_chars block) eqn:E.
      - left. reflexivity.
      - right. apply Nat.ltb_ge in E. split; [exact E|].
        assert (Hc : calls (snd (answer_at all_eng attempt b))
                     = calls (engine b) ++ [protect_terms (join [SPACE] block)])
          by apply translate_text_calls.
        destruct (_ =? _); [exact Hc|]. destruct (1 <? attempt); exact Hc. }
    destruct D as [D|D]; [rewrite D; congruence|intros _; exact D].
  - intros Hb. unfold batch_body. apply attempt_loop_calls.
    + exact Hb.
    + apply Nat.le_min_l.
    + intros H0. unfold MAX_SENTENCES_PER_BLOCK in H0. lia.
Qed.

Lemma cheap_rejection_witness :
  let long := repeat 97%N 513 in
  let all_eng := [lit "Short one."; long] in
  let b := mkBatcher [] 0 (Samples.start (C := Samples.identity) tt) in
  MAX_CHARS_PER_BLOCK < total_chars (slice all_eng 0 (0 + 2))
  /\ attempt_body all_eng 2 b = Continue 1 b
  /\ current_sentence_idx b < length all_eng
  /\ exists new,
       calls (engine (batch_body all_eng b)) = calls (engine b) ++ new
       /\ Forall (fun c => checked_call all_eng b c \/ forced_call all_eng b c) new.
Proof.
  intros long all_eng b.
  assert (H1 : MAX_CHARS_PER_BLOCK < total_chars (slice all_eng 0 (0 + 2)))
    by (apply Nat.ltb_lt; vm_compute; reflexivity).
  assert (H2 : current_sentence_idx b < length all_eng) by (simpl; lia).
  destruct (cheap_rejection Samples.identity all_eng 2 b) as [R [_ P]].
  split; [exact H1|]. split; [exact (R H1)|]. split; [exact H2|exact (P H2)].
Defined.

(** The claim as worded fails: the engine is also handed a text that did
    not pass the character test, namely a single sentence longer than the
    limit. *)
Lemma translator_invoked_beyond_limit :
  ~ (forall (C : Collaborators) (all_eng : list str) (b : Batcher) (c : str),
        current_sentence_idx b < length all_eng ->
        In c (calls (engine (batch_body all_eng b))) ->
        In c (calls (engine b))
        \/ exists n,
             total_chars (slice all_eng (current_sentence_idx b)
                                (current_sentence_idx b + n))
               <= MAX_CHARS_PER_BLOCK
             /\ c = protect_terms
                      (join [SPACE] (slice all_eng (current_sentence_idx b)
                                           (current_sentence_idx b + n)))).
Proof.
  intros H.
  set (long := repeat 97%N 513).
  set (b := mkBatcher [] 0 (Samples.start (C := Samples.identity) tt)).
  assert (Hlong : MAX_CHARS_PER_BLOCK < len (nth 0 [long] []))
    by (apply Nat.ltb_lt; vm_compute; reflexivity).
  destruct (H Samples.identity [long] b long) as [Hin|[n [Hle Hc]]].
  - simpl. lia.
  - unfold batch_body.
    rewrite (attempt_loop_long_sentence [long] _ b) by (simpl; lia || exact Hlong).
    rewrite forced_single_eq by (simpl; lia). cbn zeta. cbn [engine].
    rewrite translate_text_calls. apply in_or_app. right. left.
    vm_compute. reflexivity.
  - exact Hin.
  - destruct n as [|n].
    + vm_compute in Hc. discriminate Hc.
    + pose proof (slice_head_chars [long] 0 n ltac:(simpl; lia)) as Hs.
      change (current_sentence_idx b) with 0 in Hle. lia.
Qed.

(** C10.  The character limit is not enforced on a single sentence.  When
the sentence at the cursor is itself longer than the limit, every
attempt size is rejected by the character test without the engine
being invoked, and the outer pass then invokes the engine exactly once,
on that single sentence, appends all the sentences of the answer and
advances the cursor by exactly 1.  In a run from the start the cursor
does come to stand at every such sentence, at the start of one of the
passes made. *)
Theorem forced_fallback_beyond_limit
      (C : Collaborators) (all_eng : list str) :
  (forall b : Batcher,
   let single_sentence := nth (current_sentence_idx b) all_eng [] in
   let answer := translate_text single_sentence (engine b) in
   current_sentence_idx b < length all_eng ->
   MAX_CHARS_PER_BLOCK < len single_sentence ->
   (forall n, 1 <= n -> attempt_body all_eng n b = Continue (n - 1) b)
   /\ batch_body all_eng b
      = mkBatcher (all_hun_sentences b ++ sent_tokenize (fst answer))
                  (current_sentence_idx b + 1) (snd answer)
   /\ calls (engine (batch_body all_eng b))
      = calls (engine b) ++ [protect_terms single_sentence])
  /\ (forall e : Engine,
      let start := mkBatcher [] 0 e in
      exists passes b',
        batch_loop all_eng (length all_eng) start = Some (passes, b')
        /\ forall i,
             i < length all_eng ->
             MAX_CHARS_PER_BLOCK < len (nth i all_eng []) ->
             exists k,
               k < passes
               /\ current_sentence_idx (Nat.iter k (batch_body all_eng) start) = i).
Proof.
  split.
  - intros b single answer Hb Hlong.
    assert (E : batch_body all_eng b
                = mkBatcher (all_hun_sentences b ++ sent_tokenize (fst answer))
                            (current_sentence_idx b + 1) (snd answer)).
    { unfold batch_body. rewrite attempt_loop_long_sentence by assumption.
      rewrite forced_single_eq by exact Hb. reflexivity. }
    split; [|split].
    + intros [|n] Hn; [lia|]. rewrite attempt_body_cases.
      pose proof (slice_head_chars all_eng (current_sentence_idx b) n Hb) as Hs.
      replace (MAX_CHARS_PER_BLOCK <? total_chars (batch_at all_eng (S n) b))
        with true
        by (symmetry; apply Nat.ltb_lt; unfold batch_at; fold single in Hs; lia).
      reflexivity.
    + exact E.
    + rewrite E. cbn [engine]. apply translate_text_calls.
  - intros e start.
    destruct (batch_loop_total all_eng (length all_eng) start)
      as [passes [b' [R [_ Hb']]]]; [simpl; lia|simpl; lia|].
    exists passes, b'. split; [exact R|].
    destruct (batch_loop_iter all_eng _ _ _ _ R) as [Hiter Hguard].
    set (cursor := fun k =>
           current_sentence_idx (Nat.iter k (batch_body all_eng) start)).
    assert (Hinc : forall k, k < passes -> cursor k < cursor (S k)).
    { intros k Hk. unfold cursor. cbn [Nat.iter nat_rect].
      apply batch_body_progress. apply Hguard. exact Hk. }
    intros i Hi Hlong.
    destruct (increasing_covers cursor passes Hinc i) as [k [Hk Hik]].
    { unfold cursor at 2. rewrite <- Hiter, Hb'. unfold cursor. simpl. lia. }
    exists k. split; [exact Hk|].
    destruct (Nat.eq_dec (cursor k) i) as [Heq|Hne]; [exact Heq|].
    exfalso.
    pose proof (attempt_loop_no_jump all_eng
                  (Nat.min MAX_SENTENCES_PER_BLOCK (length all_eng - cursor k))
                  (Nat.iter k (batch_body all_eng) start) i
                  (Hguard k Hk) ltac:(apply Nat.le_min_r)) as Hnj.
    fold (batch_body all_eng (Nat.iter k (batch_body all_eng) start)) in Hnj.
    assert (Hin : cursor k < i < cursor (S k)) by lia.
    specialize (Hnj Hin). lia.
Qed.

Lemma forced_fallback_beyond_limit_witness :
  let long := repeat 97%N 513 in
  let all_eng := [lit "Short one."; long] in
  let b := mkBatcher [lit "Short one."] 1
                   (mkEngine (C := Samples.identity) tt [lit "Short one."]) in
  current_sentence_idx b < length all_eng
  /\ MAX_CHARS_PER_BLOCK < len (nth (current_sentence_idx b) all_eng [])
  /\ current_sentence_idx (batch_body all_eng b) = 2
  /\ calls (engine (batch_body all_eng b)) = [lit "Short one."; protect_terms long]
  /\ exists k,
     current_sentence_idx
       (Nat.iter k (batch_body all_eng)
                 (mkBatcher [] 0 (Samples.start (C := Samples.identity) tt))) = 1.
Proof.
  intros long all_eng b.
  assert (H1 : current_sentence_idx b < length all_eng) by (simpl; lia).
  assert (H2 : MAX_CHARS_PER_BLOCK < len (nth (current_sentence_idx b) all_eng []))
    by (apply Nat.ltb_lt; vm_compute; reflexivity).
  destruct (forced_fallback_beyond_limit Samples.identity all_eng) as [P G].
  destruct (P b H1 H2) as [_ [E Hc]].
  destruct (G (Samples.start (C := Samples.identity) tt)) as [passes [b' [_ Hi]]].
  destruct (Hi 1 ltac:(simpl; lia) H2) as [k [_ Hk]].
  split; [exact H1|]. split; [exact H2|]. split; [rewrite E; reflexivity|].
  split; [exact Hc|]. exists k. exact Hk.
Defined.

(** ** Reassembler and structure of the output *)

Lemma skipn_nth {A : Type} (l : list A) (i : nat) (d : A) :
  i < length l -> skipn i l = nth i l d :: skipn (S i) l.
Proof.
  revert i. induction l as [|x l IH]; intros i H; simpl in H; [lia|].
  destruct i as [|i]; [reflexivity|].
  simpl. apply IH. lia.
Qed.

Section ReassemblerFacts.

Context {C : Collaborators}.
Variable all_hun : list str.

(** The number of source sentences of a block, as the reassembler
    recomputes it. *)
Definition sentence_count (blk : Block) : nat :=
  length (sent_tokenize (text blk)).

(** Source sentences of the first [i] blocks. *)
Definition sentences_before (blocks : list Block) (i : nat) : nat :=
  list_sum (map sentence_count (firstn i blocks)).

Lemma sentences_before_0 blocks : sentences_before blocks 0 = 0.
Proof. reflexivity. Qed.

Lemma sentences_before_S blk rest k :
  sentences_before (blk :: rest) (S k)
  = sentence_count blk + sentences_before rest k.
Proof. reflexivity. Qed.

(** The inner loop takes the next [n] sentences of the pool, or those
    that are left. *)
Lemma take_sentences_slice n acc i :
  take_sentences all_hun n acc i
  = (acc ++ slice all_hun i (i + n), i + length (slice all_hun i (i + n))).
Proof.
  unfold slice. replace (i + n - i) with n by lia.
  revert acc i. induction n as [|n IH]; intros acc i.
  - simpl. rewrite app_nil_r, Nat.add_0_r. reflexivity.
  - cbn [take_sentences]. destruct (i <? length all_hun) eqn:E.
    + apply Nat.ltb_lt in E. rewrite IH.
      rewrite (skipn_nth all_hun i [] E). cbn [firstn length].
      replace (i + 1) with (S i) by lia.
      rewrite <- app_assoc. cbn [app]. f_equal. lia.
    + apply Nat.ltb_ge in E. rewrite IH.
      rewrite (skipn_all2 all_hun E). rewrite !firstn_nil. reflexivity.
Qed.

Lemma slice_pool_length i n :
  length (slice all_hun i (i + n)) = Nat.min n (length all_hun - i).
Proof.
  unfold slice. rewrite length_firstn, length_skipn. lia.
Qed.

Lemma reassemble_block_eq blk i :
  reassemble_block all_hun blk i
  = (mkBlock (index blk) (timestamp blk)
       (format_srt_text
          (join [SPACE] (slice all_hun i (i + sentence_count blk)))
          MAX_CHARS_PER_LINE),
     i + length (slice all_hun i (i + sentence_count blk))).
Proof.
  unfold reassemble_block. rewrite take_sentences_slice. reflexivity.
Qed.

(** The blocks built so far are only appended to. *)
Lemma reassemble_acc blocks acc i :
  reassemble all_hun blocks acc i
  = (acc ++ fst (reassemble all_hun blocks [] i),
     snd (reassemble all_hun blocks [] i)).
Proof.
  revert acc i. induction blocks as [|blk rest IH]; intros acc i.
  - simpl. rewrite app_nil_r. reflexivity.
  - cbn [reassemble]. destruct (reassemble_block all_hun blk i) as [b' i'].
    rewrite (IH (acc ++ [b'])), (IH ([] ++ [b'])).
    cbn [fst snd app]. rewrite <- app_assoc. reflexivity.
Qed.

Lemma reassemble_cons blk rest i :
  reassemble all_hun (blk :: rest) [] i
  = (fst (reassemble_block all_hun blk i)
       :: fst (reassemble all_hun rest [] (snd (reassemble_block all_hun blk i))),
     snd (reassemble all_hun rest [] (snd (reassemble_block all_hun blk i)))).
Proof.
  cbn [reassemble]. destruct (reassemble_block all_hun blk i) as [b' i'].
  rewrite reassemble_acc. reflexivity.
Qed.

Lemma reassemble_cursor blocks i :
  i <= length all_hun ->
  snd (reassemble all_hun blocks [] i)
  = Nat.min (length all_hun) (i + sentences_before blocks (length blocks)).
Proof.
  revert i. induction blocks as [|blk rest IH]; intros i Hi.
  - cbn [length reassemble snd]. rewrite sentences_before_0. lia.
  - rewrite reassemble_cons. cbn [snd]. rewrite reassemble_block_eq. cbn [snd].
    rewrite slice_pool_length, IH by lia.
    cbn [length]. rewrite sentences_before_S. lia.
Qed.

Lemma reassemble_nth blocks i k blk :
  i <= length all_hun ->
  nth_error blocks k = Some blk ->
  let start := Nat.min (length all_hun) (i + sentences_before blocks k) in
  nth_error (fst (reassemble all_hun blocks [] i)) k
  = Some (mkBlock (index blk) (timestamp blk)
            (format_srt_text
               (join [SPACE] (slice all_hun start (start + sentence_count blk)))
               MAX_CHARS_PER_LINE)).
Proof.
  revert i k. induction blocks as [|b0 rest IH]; intros i k Hi Hk.
  - destruct k; discriminate.
  - rewrite reassemble_cons. cbn [fst]. destruct k as [|k].
    + injection Hk as ->. cbn [nth_error]. rewrite reassemble_block_eq. cbn [fst].
      rewrite sentences_before_0.
      replace (Nat.min (length all_hun) (i + 0)) with i by lia. reflexivity.
    + cbn [nth_error] in Hk |- *. rewrite reassemble_block_eq. cbn [snd].
      rewrite slice_pool_length.
      rewrite (IH (i + Nat.min (sentence_count b0) (length all_hun - i)) k
                  ltac:(lia) Hk).
      rewrite sentences_before_S.
      replace (Nat.min (length all_hun)
                 (i + Nat.min (sentence_count b0) (length all_hun - i)
                  + sentences_before rest k))
        with (Nat.min (length all_hun)
                (i + (sentence_count b0 + sentences_before rest k)))
        by lia.
      reflexivity.
Qed.

Lemma reassemble_frame blocks i :
  map index (fst (reassemble all_hun blocks [] i)) = map index blocks
  /\ map timestamp (fst (reassemble all_hun blocks [] i)) = map timestamp blocks.
Proof.
  revert i. induction blocks as [|blk rest IH]; intros i; [split; reflexivity|].
  rewrite reassemble_cons. cbn [fst map]. rewrite reassemble_block_eq. cbn [fst snd].
  destruct (IH (i + length (slice all_hun i (i + sentence_count blk)))) as [Hi Ht].
  rewrite Hi, Ht. split; reflexivity.
Qed.

End ReassemblerFacts.

(** C3.  Reassembler pool invariant.  Going through the blocks in order
    from the start of the pool, the block at position [i] is given the
    sentences of the pool from the cursor on, as many as the block has
    source sentences or, if fewer are left, those that are left, in which
    case the pool is exhausted; its text is these sentences joined by single
    spaces and then wrapped; a block reached after the pool is exhausted
    gets the empty text; and the final cursor, the number of sentences
    consumed in all, does not exceed the size of the pool. *)
Theorem reassembler_pool_invariant
        (C : Collaborators) (all_hun : list str) (eng_blocks : list Block) :
  let result := reassemble all_hun eng_blocks [] 0 in
  snd result
    = Nat.min (length all_hun) (sentences_before eng_blocks (length eng_blocks))
  /\ snd result <= length all_hun
  /\ forall i blk,
       nth_error eng_blocks i = Some blk ->
       let start := Nat.min (length all_hun) (sentences_before eng_blocks i) in
       let consumed := slice all_hun start (start + sentence_count blk) in
       let block_text := join [SPACE] consumed in
       nth_error (fst result) i
       = Some (mkBlock (index blk) (timestamp blk)
                       (format_srt_text block_text MAX_CHARS_PER_LINE))
       /\ length consumed = Nat.min (sentence_count blk) (length all_hun - start)
       /\ (length consumed < sentence_count blk ->
           start + length consumed = length all_hun)
       /\ (start = length all_hun ->
           consumed = [] /\ format_srt_text block_text MAX_CHARS_PER_LINE = []).
Proof.
  intros result. unfold result.
  rewrite (reassemble_cursor all_hun eng_blocks 0 ltac:(lia)), Nat.add_0_l.
  split; [reflexivity|]. split; [lia|].
  intros i blk Hblk.
  set (start := Nat.min (length all_hun) (sentences_before eng_blocks i)).
  set (consumed := slice all_hun start (start + sentence_count blk)).
  set (block_text := join [SPACE] consumed).
  pose proof (reassemble_nth all_hun eng_blocks 0 i blk ltac:(lia) Hblk) as Hn.
  cbn zeta in Hn. rewrite Nat.add_0_l in Hn.
  assert (Hlen : length consumed
                 = Nat.min (sentence_count blk) (length all_hun - start))
    by apply slice_pool_length.
  split; [exact Hn|]. split; [exact Hlen|]. split; [lia|].
  intros Hs.
  assert (Hnil : consumed = []).
  { apply length_zero_iff_nil. rewrite Hlen. lia. }
  split; [exact Hnil|]. unfold block_text. rewrite Hnil. reflexivity.
Qed.

Lemma reassembler_pool_invariant_witness :
  let b1 := mkBlock 1 (lit "00:00:01,000 --> 00:00:03,000")
                    (lit "Hello world. This is a test.") in
  let b2 := mkBlock 2 (lit "00:00:03,500 --> 00:00:05,000") (lit "Goodbye now.") in
  let all_hun := [lit "Szia vilag. "; lit "Ez egy teszt."] in
  let result := reassemble (C := Samples.identity) all_hun [b1; b2] [] 0 in
  nth_error [b1; b2] 1 = Some b2
  /\ nth_error (fst result) 1 = Some (mkBlock 2 (timestamp b2) [])
  /\ snd result = 2.
Proof.
  intros b1 b2 all_hun result.
  assert (H : nth_error [b1; b2] 1 = Some b2) by reflexivity.
  destruct (reassembler_pool_invariant Samples.identity all_hun [b1; b2])
    as [Hc [_ Hn]].
  destruct (Hn 1 b2 H) as [Hb _].
  split; [exact H|]. split; [exact Hb|exact Hc].
Defined.

Lemma srt_lines_length (blocks : list Block) :
  length (srt_lines blocks) = 4 * length blocks.
Proof.
  induction blocks as [|blk rest IH]; [reflexivity|].
  unfold srt_lines in *. cbn [flat_map]. rewrite length_app, IH. simpl. lia.
Qed.

Lemma srt_lines_timestamp (blocks : list Block) (i : nat) (blk : Block) :
  nth_error blocks i = Some blk ->
  nth_error (srt_lines blocks) (4 * i + 1) = Some (timestamp blk).
Proof.
  revert i. induction blocks as [|b0 rest IH]; intros i H.
  - destruct i; discriminate.
  - destruct i as [|i].
    + injection H as ->. reflexivity.
    + replace (4 * S i + 1) with (S (S (S (S (4 * i + 1))))) by lia.
      cbn [nth_error] in H. exact (IH i H).
Qed.

(** C4.  Structure preservation.  For every sequence of parsed input
    blocks, and whatever the collaborators answer, the pipeline produces an
    output; it has as many blocks as the input, each with the index and the
    time-range string of the input block at the same position; and in the
    written file the line after each block's index line is that same
    time-range string. *)
Theorem structure_preserved
        (C : Collaborators) (eng_blocks : list Block) (e : Engine) :
  exists out,
    process_and_generate_srt eng_blocks e = Some out
    /\ length (hun_blocks out) = length eng_blocks
    /\ map timestamp (hun_blocks out) = map timestamp eng_blocks
    /\ map index (hun_blocks out) = map index eng_blocks
    /\ written out = join [NEWLINE] (srt_lines (hun_blocks out))
    /\ length (srt_lines (hun_blocks out)) = 4 * length eng_blocks
    /\ forall i blk,
         nth_error eng_blocks i = Some blk ->
         (exists blk', nth_error (hun_blocks out) i = Some blk'
                       /\ timestamp blk' = timestamp blk)
         /\ nth_error (srt_lines (hun_blocks out)) (4 * i + 1)
            = Some (timestamp blk).
Proof.
  unfold process_and_generate_srt.
  set (all_eng := flat_map (fun block => sent_tokenize (text block)) eng_blocks).
  destruct (batch_loop_total all_eng (length all_eng) (mkBatcher [] 0 e))
    as [passes [b [R _]]]; [simpl; lia|simpl; lia|].
  rewrite R.
  destruct (reassemble_frame (all_hun_sentences b) eng_blocks 0) as [Hi Ht].
  destruct (reassemble (all_hun_sentences b) eng_blocks [] 0) as [blocks j].
  cbn [fst] in Hi, Ht.
  assert (Hlen : length blocks = length eng_blocks).
  { rewrite <- (length_map timestamp blocks), Ht. apply length_map. }
  eexists. split; [reflexivity|]. cbn [hun_blocks written].
  split; [exact Hlen|]. split; [exact Ht|]. split; [exact Hi|].
  split; [reflexivity|]. split; [rewrite srt_lines_length, Hlen; reflexivity|].
  intros i blk Hblk.
  assert (Hex : exists blk', nth_error blocks i = Some blk'
                             /\ timestamp blk' = timestamp blk).
  { pose proof (map_nth_error timestamp i eng_blocks Hblk) as Hm.
    rewrite <- Ht in Hm. destruct (nth_error blocks i) as [blk'|] eqn:E.
    - exists blk'. split; [reflexivity|].
      rewrite (map_nth_error timestamp i blocks E) in Hm. congruence.
    - apply nth_error_None in E.
      assert (i < length eng_blocks) by (apply nth_error_Some; congruence). lia. }
  split; [exact Hex|].
  destruct Hex as [blk' [Hb' Hts]]. rewrite <- Hts.
  apply srt_lines_timestamp. exact Hb'.
Qed.

Lemma structure_preserved_witness :
  let b1 := mkBlock 1 (lit "00:00:01,000 --> 00:00:03,000")
                    (lit "Hello world. This is a test.") in
  let b2 := mkBlock 2 (lit "00:00:03,500 --> 00:00:05,000") (lit "Goodbye now.") in
  exists out,
    process_and_generate_srt [b1; b2] (Samples.start (C := Samples.identity) tt)
    = Some out
    /\ length (hun_blocks out) = 2
    /\ nth_error (srt_lines (hun_blocks out)) 5 = Some (timestamp b2).
Proof.
  intros b1 b2.
  destruct (structure_preserved Samples.identity [b1; b2]
              (Samples.start (C := Samples.identity) tt))
    as [out [R [Hl [_ [_ [_ [_ Hn]]]]]]].
  exists out. split; [exact R|]. split; [exact Hl|].
  exact (proj2 (Hn 1 b2 eq_refl)).
Defined.

(** ** The rebalancing pass of the superseded pipeline *)

Section Rebalancing.

Import PyStrFacts Legacy.

(** Every word of the line has at most [n] characters. *)
Definition words_within (n : nat) (line : str) : Prop :=
  Forall (fun w => len w <= n) (split line).

Lemma Forall_removelast {A : Type} (P : A -> Prop) (l : list A) :
  Forall P l -> Forall P (removelast l).
Proof.
  induction 1 as [|x l Hx Hl IH]; [constructor|].
  destruct l as [|y l]; [constructor|].
  change (removelast (x :: y :: l)) with (x :: removelast (y :: l)).
  constructor; assumption.
Qed.

Lemma Forall_last {A : Type} (P : A -> Prop) (l : list A) (d : A) :
  l <> [] -> Forall P l -> P (last l d).
Proof.
  intros Hne H. induction H as [|x l Hx Hl IH]; [congruence|].
  destruct l as [|y l]; [exact Hx|].
  change (last (x :: y :: l) d) with (last (y :: l) d).
  apply IH. discriminate.
Qed.

(** One move keeps the words short and, the words being short, does not
    raise the longer of the two lengths. *)
Lemma balance_pass_short line1 line2 l1 l2 :
  balance_pass line1 line2 = Some (l1, l2) ->
  words_within 10 line1 -> words_within 10 line2 ->
  words_within 10 l1 /\ words_within 10 l2
  /\ max_len (l1, l2) <= max_len (line1, line2).
Proof.
  unfold balance_pass, max_len, words_within, len. cbn [fst snd].
  intros H W1 W2.
  destruct (Z.leb_spec (Z.abs (Z.of_nat (length line1) - Z.of_nat (length line2))) 10)
    as [_|Hdiff]; [discriminate|].
  destruct (Z.gtb_spec (Z.of_nat (length line1)) (Z.of_nat (length line2)))
    as [Hgt|Hle].
  - destruct (Nat.leb_spec (length (split line1)) 1) as [_|Hparts];
      [discriminate|].
    injection H as <- <-.
    assert (Hne : split line1 <> [])
      by (intros E; rewrite E in Hparts; simpl in Hparts; lia).
    pose proof (split_words line1) as Hw.
    pose proof (Forall_last _ _ [] Hne Hw) as [_ Hmoved].
    pose proof (Forall_last _ _ [] Hne W1) as Hlen. cbn beta in Hlen.
    pose proof (join_removelast_length (split line1)).
    pose proof (join_split_length line1).
    split; [|split].
    + rewrite split_join by (apply Forall_removelast; exact Hw).
      apply Forall_removelast. exact W1.
    + cbn [app]. rewrite split_app_space.
      apply Forall_app. split; [|exact W2].
      rewrite split_word by (apply (Forall_last _ _ [] Hne Hw)).
      constructor; [exact Hlen|constructor].
    + rewrite !length_app. cbn [length]. unfold len in Hlen. lia.
  - destruct (Nat.leb_spec (length (split line2)) 1) as [_|Hparts];
      [discriminate|].
    injection H as <- <-.
    destruct (split line2) as [|moved parts] eqn:E; [simpl in Hparts; lia|].
    pose proof (split_words line2) as Hw. rewrite E in Hw.
    pose proof (join_tl_length (moved :: parts)) as Htl.
    pose proof (join_split_length line2) as Hjs. rewrite E in Hjs.
    cbn [hd tl] in *.
    split; [|split].
    + cbn [app]. rewrite split_app_space.
      apply Forall_app. split; [exact W1|].
      rewrite split_word by (exact (Forall_inv Hw)).
      constructor; [exact (Forall_inv W2)|constructor].
    + rewrite split_join by (exact (Forall_inv_tail Hw)).
      exact (Forall_inv_tail W2).
    + pose proof (Forall_inv W2) as Hlen. cbn beta in Hlen. unfold len in Hlen.
      rewrite !length_app. cbn [length]. lia.
Qed.

Lemma balance_passes_short n line1 line2 :
  words_within 10 line1 -> words_within 10 line2 ->
  max_len (balance_passes n line1 line2) <= max_len (line1, line2).
Proof.
  revert line1 line2. induction n as [|n IH]; intros line1 line2 W1 W2.
  - simpl. lia.
  - cbn [balance_passes].
    destruct (balance_pass line1 line2) as [[l1 l2]|] eqn:E; [|lia].
    destruct (balance_pass_short _ _ _ _ E W1 W2) as [W1' [W2' Hmax]].
    specialize (IH l1 l2 W1' W2'). lia.
Qed.

(** Where the defect of the rebalancing pass cannot show: when no word of
    either line is longer than 10 characters, a moved word and its space
    never overshoot a difference of more than 10, and the pair of lines
    returned has a maximum line length no greater than that of the pair
    given. *)
Theorem rebalance_max_length (line1 line2 : str) :
  words_within 10 line1 -> words_within 10 line2 ->
  max_len (balance_two_lines line1 line2) <= max_len (line1, line2).
Proof.
  intros W1 W2. pose proof (balance_passes_short 3 line1 line2 W1 W2) as H.
  unfold balance_two_lines.
  destruct (balance_passes 3 line1 line2) as [l1 l2].
  unfold max_len in *. cbn [fst snd] in *.
  pose proof (strip_length l1). pose proof (strip_length l2).
  unfold len in *. lia.
Qed.

Lemma words_within_dec (n : nat) (line : str) :
  forallb (fun w => len w <=? n) (split line) = true -> words_within n line.
Proof.
  intros H. apply Forall_forall. intros w Hw.
  rewrite forallb_forall in H. apply Nat.leb_le. apply H. exact Hw.
Qed.

Lemma rebalance_max_length_witness :
  let line1 := lit "one two three four five six" in
  let line2 := lit "seven" in
  words_within 10 line1 /\ words_within 10 line2
  /\ balance_two_lines line1 line2
     = (lit "one two three four", lit "five six seven")
  /\ max_len (balance_two_lines line1 line2) <= max_len (line1, line2).
Proof.
  intros line1 line2.
  assert (W1 : words_within 10 line1)
    by (apply words_within_dec; vm_compute; reflexivity).
  assert (W2 : words_within 10 line2)
    by (apply words_within_dec; vm_compute; reflexivity).
  split; [exact W1|]. split; [exact W2|].
  split; [vm_compute; reflexivity|].
  exact (rebalance_max_length line1 line2 W1 W2).
Defined.

(** The code does not keep the maximum down for every pair: moving a long
    word to the shorter line can make that line longer than the longer
    line was. *)
Lemma rebalance_raises_max_length :
  ~ (forall line1 line2 : str,
        max_len (balance_two_lines line1 line2) <= max_len (line1, line2)).
Proof.
  intros H. specialize (H (lit "a bbbbbbbbbbbb") (lit "cc")).
  apply Nat.leb_le in H. vm_compute in H. discriminate H.
Qed.

(** C9.  The rebalancing pass is announced as balancing the line lengths
    without flip-flop ([main_old.py], line 89), and it fails to: a pass
    moves the boundary word whenever the lengths differ by more than 10,
    without comparing the length of the word with the difference.  On the
    lines "a bbbbbbbbbbbb" and "cc" the three passes move the same word
    down, up and down again, the lengths going from (14, 2) to (1, 15), to
    (14, 2) and to (1, 15): the maximum line length rises from 14 to 15
    and the difference from 12 to 14.  Through the wrapper with the limits
    of the repository (60 characters, 2 lines) a text of 96 characters that
    the greedy filling cuts into lines of 55 and 40 characters is returned
    with lines of 34 and 61 characters, the second over the limit. *)
Theorem balance_two_lines_flip_flops :
  let line1 := lit "a bbbbbbbbbbbb" in
  let line2 := lit "cc" in
  let filled1 := lit "We will now look at how to use the internationalization" in
  let filled2 := lit "features of the framework in our project" in
  (balance_pass line1 line2 = Some (lit "a", lit "bbbbbbbbbbbb cc")
   /\ balance_pass (lit "a") (lit "bbbbbbbbbbbb cc") = Some (line1, line2)
   /\ balance_two_lines line1 line2 = (lit "a", lit "bbbbbbbbbbbb cc")
   /\ max_len (line1, line2) = 14
   /\ max_len (balance_two_lines line1 line2) = 15)
  /\ (len filled1 = 55 /\ len filled2 = 40
      /\ fill_lines MAX_CHARS_PER_LINE MAX_LINES_PER_BLOCK
           (split (filled1 ++ SPACE :: filled2))
           {| lines := []; cur_line := []; cur_len := 0 |}
         = {| lines := [filled1]; cur_line := split filled2; cur_len := 40 |}
      /\ wrap_text_to_lines (filled1 ++ SPACE :: filled2)
           MAX_CHARS_PER_LINE MAX_LINES_PER_BLOCK
         = Some (lit "We will now look at how to use the"
                 ++ NEWLINE
                 :: lit "internationalization features of the framework in our project")
      /\ MAX_CHARS_PER_LINE
         < len (lit "internationalization features of the framework in our project")).
Proof.
  vm_compute. repeat split; reflexivity || lia.
Qed.

End Rebalancing.

(* ===================================================================== *)
(** * Part III: further properties of the code                            *)
(* ===================================================================== *)

(** ** More facts about the string builtins *)

Module StrMore.

Import PyStrFacts.

Lemma scan_app_ws s c t :
  isspace c = true ->
  scan (s ++ c :: t) = (fst (scan s), snd (scan s) ++ split t).
Proof.
  intros Hc. induction s as [|d s IH].
  - cbn [app scan]. rewrite Hc. unfold split. destruct (scan t). reflexivity.
  - cbn [app scan]. rewrite IH. destruct (scan s) as [cur ws]. cbn [fst snd].
    destruct (isspace d); [|reflexivity].
    cbn [fst snd]. rewrite push_app. reflexivity.
Qed.

(** Any white-space character between two texts separates their words. *)
Lemma split_app_ws s c t :
  isspace c = true -> split (s ++ c :: t) = split s ++ split t.
Proof.
  intros Hc. unfold split at 1. rewrite (scan_app_ws s c t Hc). unfold split at 2.
  destruct (scan s) as [cur ws]. cbn [fst snd]. apply push_app.
Qed.

Lemma split_cons_ws c s : isspace c = true -> split (c :: s) = split s.
Proof. intros Hc. apply (split_app_ws [] c s Hc). Qed.

Lemma scan_app_blank t q :
  forallb isspace q = true -> scan (t ++ q) = scan t.
Proof.
  intros Hq. induction t as [|c t IH].
  - apply scan_spaces. exact Hq.
  - cbn [app scan]. rewrite IH. reflexivity.
Qed.

Lemma lstrip_decomp s :
  exists p, s = p ++ lstrip s /\ forallb isspace p = true.
Proof.
  induction s as [|c s [p [Hs Hp]]].
  - exists []. split; reflexivity.
  - cbn [lstrip]. destruct (isspace c) eqn:E.
    + exists (c :: p). split; [cbn [app]; f_equal; exact Hs|].
      cbn [forallb]. rewrite E, Hp. reflexivity.
    + exists []. split; reflexivity.
Qed.

Lemma rstrip_decomp s :
  exists q, s = rstrip s ++ q /\ forallb isspace q = true.
Proof.
  unfold rstrip. destruct (lstrip_decomp (rev s)) as [p [Hs Hp]].
  exists (rev p). split.
  - rewrite <- rev_app_distr, <- Hs, rev_involutive. reflexivity.
  - rewrite forallb_forall in *. intros x Hx. apply Hp. apply in_rev. exact Hx.
Qed.

Lemma split_lstrip s : split (lstrip s) = split s.
Proof.
  destruct (lstrip_decomp s) as [p [Hs Hp]]. rewrite Hs at 2. clear Hs.
  induction p as [|c p IH]; [reflexivity|].
  cbn [forallb] in Hp. apply andb_true_iff in Hp. destruct Hp as [Hc Hp].
  cbn [app]. rewrite (split_cons_ws c _ Hc). apply IH. exact Hp.
Qed.

Lemma split_rstrip s : split (rstrip s) = split s.
Proof.
  destruct (rstrip_decomp s) as [q [Hs Hq]]. rewrite Hs at 2.
  unfold split. rewrite (scan_app_blank _ q Hq). reflexivity.
Qed.

(** Stripping keeps the words. *)
Lemma split_strip s : split (strip s) = split s.
Proof. unfold strip. rewrite split_rstrip. apply split_lstrip. Qed.

Lemma split_nil_blank s : split s = [] -> forallb isspace s = true.
Proof.
  unfold split. induction s as [|c s IH]; [reflexivity|].
  cbn [scan forallb]. destruct (scan s) as [cur ws].
  destruct (isspace c); cbn [andb].
  - intros H. apply IH. destruct cur; [exact H|discriminate H].
  - discriminate.
Qed.

Lemma lstrip_blank s : forallb isspace s = true -> lstrip s = [].
Proof.
  induction s as [|c s IH]; [reflexivity|].
  cbn [forallb lstrip]. intros H. apply andb_true_iff in H.
  destruct H as [Hc Hs]. rewrite Hc. apply IH. exact Hs.
Qed.

(** A text has no words exactly when it strips to nothing. *)
Lemma split_nil_strip s : split s = [] -> strip s = [].
Proof.
  intros H. unfold strip. rewrite (lstrip_blank s (split_nil_blank s H)).
  reflexivity.
Qed.

Lemma Forall_firstn_skipn {A : Type} (P : A -> Prop) (n : nat) (l : list A) :
  Forall P l -> Forall P (firstn n l) /\ Forall P (skipn n l).
Proof.
  intros H. rewrite <- (firstn_skipn n l) in H. apply Forall_app. exact H.
Qed.

Lemma Forall_firstn_word n ws : Forall is_word ws -> Forall is_word (firstn n ws).
Proof. intros H. exact (proj1 (Forall_firstn_skipn _ n ws H)). Qed.

Lemma Forall_skipn_word n ws : Forall is_word ws -> Forall is_word (skipn n ws).
Proof. intros H. exact (proj2 (Forall_firstn_skipn _ n ws H)). Qed.

Lemma join_words_no_newline ws :
  Forall is_word ws -> ~ In NEWLINE (join [SPACE] ws).
Proof.
  intros H Hin. apply (join_words_chars ws NEWLINE H) in Hin.
  destruct Hin as [Hin|Hin]; [discriminate Hin|]. vm_compute in Hin. discriminate.
Qed.

Lemma first_return_some {A B : Type} (body : A -> option B) (l : list A) (r : B) :
  first_return body l = Some r -> exists x, In x l /\ body x = Some r.
Proof.
  induction l as [|x l IH]; [discriminate|].
  cbn [first_return]. destruct (body x) as [r'|] eqn:E.
  - intros [= <-]. exists x. split; [left; reflexivity|exact E].
  - intros H. destruct (IH H) as [y [Hy Hb]]. exists y. split; [right; exact Hy|exact Hb].
Qed.

Lemma first_return_none {A B : Type} (body : A -> option B) (l : list A) :
  first_return body l = None -> forall x, In x l -> body x = None.
Proof.
  induction l as [|x l IH]; [intros _ y []|].
  cbn [first_return]. destruct (body x) as [r'|] eqn:E; [discriminate|].
  intros H y [<-|Hy]; [exact E|apply IH; assumption].
Qed.

End StrMore.

(** ** The line wrapper of [main.py], beyond short texts *)

Section WrapperMore.

Import PyStrFacts StrMore.

Lemma range_down_S n : range_down (S n) = S n :: range_down n.
Proof.
  unfold range_down. rewrite seq_S, rev_app_distr. reflexivity.
Qed.

(** In a downward loop the largest index whose body returns decides. *)
Lemma first_return_down {B : Type} (body : nat -> option B) (n i : nat) (r : B) :
  1 <= i <= n -> body i = Some r ->
  exists j r', i <= j <= n /\ body j = Some r'
               /\ first_return body (range_down n) = Some r'.
Proof.
  induction n as [|n IH]; intros Hi Hb; [lia|].
  rewrite range_down_S. cbn [first_return].
  destruct (body (S n)) as [r'|] eqn:E.
  - exists (S n), r'. repeat split; [lia|lia|exact E].
  - assert (Hne : i <> S n) by (intros ->; congruence).
    destruct (IH ltac:(lia) Hb) as [j [r' [Hj [Hbj Hf]]]].
    exists j, r'. repeat split; [lia|lia|exact Hbj|exact Hf].
Qed.

(** The words the wrapper works on are the words of the text. *)
Lemma split_normalised text : split (join [SPACE] (split text)) = split text.
Proof. apply split_join. apply split_words. Qed.

(** The wrapper returns the normalised text, or the words cut in two at
    some index and put on two lines. *)
Lemma format_shape text m :
  format_srt_text text m = join [SPACE] (split text)
  \/ exists j,
       format_srt_text text m
       = two_lines (join [SPACE] (firstn j (split text)))
                   (join [SPACE] (skipn j (split text))).
Proof.
  unfold format_srt_text. destruct (strip text) eqn:E.
  - left. rewrite (strip_nil_split _ E). reflexivity.
  - rewrite split_normalised.
    destruct (len (join [SPACE] (split text)) <=? m); [left; reflexivity|].
    right.
    match goal with |- context [first_return ?f (range_down ?n)] =>
      destruct (first_return f (range_down n)) as [r|] eqn:Ed end.
    + apply first_return_some in Ed. destruct Ed as [j [_ Hj]].
      destruct (len (join [SPACE] (firstn j (split text))) <=? m); [|discriminate].
      destruct (len (join [SPACE] (skipn j (split text))) <=? m); [|discriminate].
      injection Hj as <-. exists j. reflexivity.
    + match goal with |- context [first_return ?f (range ?a ?b)] =>
        destruct (first_return f (range a b)) as [r|] eqn:Eu end.
      * apply first_return_some in Eu. destruct Eu as [j [_ Hj]].
        destruct (m <? len (join [SPACE] (firstn j (split text)))); [|discriminate].
        destruct (1 <? j); [|discriminate].
        injection Hj as <-. exists (j - 1). reflexivity.
      * exists (length (split text) / 2). reflexivity.
Qed.

Lemma two_lines_words ws j :
  Forall is_word ws ->
  split (two_lines (join [SPACE] (firstn j ws)) (join [SPACE] (skipn j ws))) = ws.
Proof.
  intros H. unfold two_lines.
  rewrite (split_app_ws _ NEWLINE _ eq_refl).
  rewrite (split_join _ (Forall_firstn_word j ws H)).
  rewrite (split_join _ (Forall_skipn_word j ws H)).
  apply firstn_skipn.
Qed.

Lemma format_words text m : split (format_srt_text text m) = split text.
Proof.
  destruct (format_shape text m) as [E|[j E]]; rewrite E.
  - apply split_normalised.
  - apply two_lines_words. apply split_words.
Qed.

Lemma format_by_words t1 t2 m :
  split t1 = split t2 -> format_srt_text t1 m = format_srt_text t2 m.
Proof.
  intros H. unfold format_srt_text.
  destruct (strip t1) eqn:E1; destruct (strip t2) eqn:E2.
  - reflexivity.
  - apply strip_nil_split in E1. rewrite H in E1.
    apply split_nil_strip in E1. congruence.
  - apply strip_nil_split in E2. rewrite <- H in E2.
    apply split_nil_strip in E2. congruence.
  - rewrite H. reflexivity.
Qed.

(** X1.  The wrapper of [main.py] never returns more than two lines: its
    result contains at most one line break. *)
Theorem format_srt_text_two_lines (text : str) (max_chars_per_line : nat) :
  count_occ N.eq_dec (format_srt_text text max_chars_per_line) NEWLINE <= 1.
Proof.
  pose proof (split_words text) as Hw.
  destruct (format_shape text max_chars_per_line) as [E|[j E]]; rewrite E.
  - rewrite (proj1 (count_occ_not_In N.eq_dec _ _) (join_words_no_newline _ Hw)).
    lia.
  - unfold two_lines. rewrite count_occ_app. cbn [count_occ].
    destruct (N.eq_dec NEWLINE NEWLINE) as [_|Hne]; [|congruence].
    rewrite (proj1 (count_occ_not_In N.eq_dec _ _)
                   (join_words_no_newline _ (Forall_firstn_word j _ Hw))).
    rewrite (proj1 (count_occ_not_In N.eq_dec _ _)
                   (join_words_no_newline _ (Forall_skipn_word j _ Hw))).
    lia.
Qed.

(** X2.  Wrapping changes white space only: the result has the words of
    the text, in order.  The result depends on the text through its words
    alone, so wrapping a wrapped text changes nothing. *)
Theorem format_srt_text_keeps_words (text : str) (max_chars_per_line : nat) :
  split (format_srt_text text max_chars_per_line) = split text
  /\ (forall text',
        split text' = split text ->
        format_srt_text text' max_chars_per_line
        = format_srt_text text max_chars_per_line)
  /\ format_srt_text (format_srt_text text max_chars_per_line) max_chars_per_line
     = format_srt_text text max_chars_per_line.
Proof.
  split; [apply format_words|]. split.
  - intros text' H. apply format_by_words. exact H.
  - apply format_by_words. apply format_words.
Qed.

Lemma format_srt_text_keeps_words_witness :
  let text := lit "  one   two three  " in
  split (lit "one two three") = split text
  /\ format_srt_text (lit "one two three") 9 = format_srt_text text 9
  /\ format_srt_text text 9 = lit "one" ++ NEWLINE :: lit "two three".
Proof.
  intros text.
  assert (H : split (lit "one two three") = split text) by (vm_compute; reflexivity).
  destruct (format_srt_text_keeps_words text 9) as [_ [Hd _]].
  split; [exact H|]. split; [exact (Hd _ H)|]. vm_compute. reflexivity.
Defined.

(** X3.  When the normalised text is longer than the budget and the words
    can be cut at some index between 1 and the middle so that both lines
    fit, the wrapper cuts at the largest such index: both lines of the
    result fit the budget, and the first has no more words than the
    second. *)
Theorem format_srt_text_cut_nearest_middle
        (text : str) (max_chars_per_line i : nat) :
  let words := split text in
  max_chars_per_line < len (join [SPACE] words) ->
  1 <= i <= length words / 2 ->
  len (join [SPACE] (firstn i words)) <= max_chars_per_line ->
  len (join [SPACE] (skipn i words)) <= max_chars_per_line ->
  exists j,
    i <= j <= length words / 2
    /\ format_srt_text text max_chars_per_line
       = two_lines (join [SPACE] (firstn j words)) (join [SPACE] (skipn j words))
    /\ len (join [SPACE] (firstn j words)) <= max_chars_per_line
    /\ len (join [SPACE] (skipn j words)) <= max_chars_per_line
    /\ length (firstn j words) <= length (skipn j words).
Proof.
  intros words Hlong Hi H1 H2.
  set (body := fun k =>
         if len (join [SPACE] (firstn k words)) <=? max_chars_per_line then
           if len (join [SPACE] (skipn k words)) <=? max_chars_per_line
           then Some (two_lines (join [SPACE] (firstn k words))
                                (join [SPACE] (skipn k words)))
           else None
         else None).
  assert (Hb : body i = Some (two_lines (join [SPACE] (firstn i words))
                                        (join [SPACE] (skipn i words)))).
  { unfold body. apply Nat.leb_le in H1, H2. rewrite H1, H2. reflexivity. }
  destruct (first_return_down body (length words / 2) i _ Hi Hb)
    as [j [r [Hj [Hbj Hf]]]].
  exists j. split; [exact Hj|].
  unfold body in Hbj.
  destruct (Nat.leb_spec (len (join [SPACE] (firstn j words))) max_chars_per_line)
    as [L1|_]; [|discriminate].
  destruct (Nat.leb_spec (len (join [SPACE] (skipn j words))) max_chars_per_line)
    as [L2|_]; [|discriminate].
  injection Hbj as <-.
  split; [|split; [exact L1|split; [exact L2|]]].
  - unfold format_srt_text. destruct (strip text) eqn:E.
    + apply strip_nil_split in E. unfold words in Hlong. rewrite E in Hlong.
      simpl in Hlong. lia.
    + rewrite split_normalised. fold words.
      replace (len (join [SPACE] words) <=? max_chars_per_line) with false
        by (symmetry; apply Nat.leb_gt; exact Hlong).
      fold body. rewrite Hf. reflexivity.
  - rewrite length_firstn, length_skipn.
    pose proof (Nat.Div0.mul_div_le (length words) 2). lia.
Qed.

Lemma format_srt_text_cut_nearest_middle_witness :
  let text := lit "aaaa bb cc dddd" in
  exists j,
    2 <= j <= length (split text) / 2
    /\ format_srt_text text 8 = lit "aaaa bb" ++ NEWLINE :: lit "cc dddd"
    /\ format_srt_text text 8
       = two_lines (join [SPACE] (firstn j (split text)))
                   (join [SPACE] (skipn j (split text))).
Proof.
  intros text.
  destruct (format_srt_text_cut_nearest_middle text 8 2) as [j [Hj [E _]]].
  - apply Nat.ltb_lt. vm_compute. reflexivity.
  - split; [lia|]. apply Nat.leb_le. vm_compute. reflexivity.
  - apply Nat.leb_le. vm_compute. reflexivity.
  - apply Nat.leb_le. vm_compute. reflexivity.
  - exists j. split; [exact Hj|]. split; [vm_compute; reflexivity|exact E].
Defined.

(** X4.  A text that is a single word longer than the budget comes back
    with a line break in front of it: the fallback cuts the word list in
    the middle, which for one word leaves the first line empty. *)
Theorem format_srt_text_single_long_word (w : str) (max_chars_per_line : nat) :
  is_word w -> max_chars_per_line < len w ->
  format_srt_text w max_chars_per_line = NEWLINE :: w.
Proof.
  intros Hw Hlong. unfold format_srt_text.
  destruct (strip w) eqn:E.
  - apply strip_nil_split in E. rewrite (split_word w Hw) in E. discriminate.
  - rewrite (split_word w Hw). cbn [join]. rewrite (split_word w Hw).
    replace (len w <=? max_chars_per_line) with false
      by (symmetry; apply Nat.leb_gt; exact Hlong).
    reflexivity.
Qed.

Lemma format_srt_text_single_long_word_witness :
  is_word (lit "megszentsegtelenithetetlen") /\ 10 < len (lit "megszentsegtelenithetetlen")
  /\ format_srt_text (lit "megszentsegtelenithetetlen") 10
     = NEWLINE :: lit "megszentsegtelenithetetlen".
Proof.
  assert (Hw : is_word (lit "megszentsegtelenithetetlen")).
  { split; [vm_compute; discriminate|vm_compute; reflexivity]. }
  assert (Hl : 10 < len (lit "megszentsegtelenithetetlen"))
    by (apply Nat.ltb_lt; vm_compute; reflexivity).
  split; [exact Hw|]. split; [exact Hl|].
  exact (format_srt_text_single_long_word _ 10 Hw Hl).
Defined.

End WrapperMore.

(** ** The rebalancing pass, beyond the maximum length *)

Section RebalancingMore.

Import PyStrFacts StrMore.

(** One move keeps the words of the two lines, in order, and does not
    lengthen the two lines taken together. *)
Lemma balance_pass_keeps line1 line2 l1 l2 :
  Legacy.balance_pass line1 line2 = Some (l1, l2) ->
  split l1 ++ split l2 = split line1 ++ split line2
  /\ len l1 + len l2 <= len line1 + len line2.
Proof.
  unfold Legacy.balance_pass, len. intros H.
  destruct (Z.abs (Z.of_nat (length line1) - Z.of_nat (length line2)) <=? 10)%Z;
    [discriminate|].
  destruct (Z.of_nat (length line1) >? Z.of_nat (length line2))%Z.
  - destruct (Nat.leb_spec (length (split line1)) 1) as [_|Hparts];
      [discriminate|].
    injection H as <- <-.
    assert (Hne : split line1 <> [])
      by (intros E; rewrite E in Hparts; simpl in Hparts; lia).
    pose proof (split_words line1) as Hw.
    pose proof (app_removelast_last [] Hne) as Hsplit.
    assert (Hrl : removelast (split line1) <> []).
    { intros E. rewrite E in Hsplit. rewrite Hsplit in Hparts.
      simpl in Hparts. lia. }
    split.
    + rewrite (split_join _ (Forall_removelast _ _ Hw)).
      cbn [app]. rewrite split_app_space.
      rewrite (split_word _ (Forall_last _ _ [] Hne Hw)).
      rewrite app_assoc, <- Hsplit. reflexivity.
    + pose proof (join_weight _ Hne) as J.
      pose proof (join_weight _ Hrl) as Jr.
      assert (W : weight (split line1)
                  = weight (removelast (split line1))
                    + S (length (last (split line1) []) + 0)).
      { rewrite Hsplit at 1. rewrite weight_app. reflexivity. }
      pose proof (join_split_length line1).
      rewrite !length_app. cbn [length]. lia.
  - destruct (Nat.leb_spec (length (split line2)) 1) as [_|Hparts];
      [discriminate|].
    injection H as <- <-.
    destruct (split line2) as [|moved [|w parts]] eqn:E;
      [simpl in Hparts; lia|simpl in Hparts; lia|].
    pose proof (split_words line2) as Hw. rewrite E in Hw.
    pose proof (join_split_length line2) as Hjs. rewrite E in Hjs.
    cbn [hd tl]. split.
    + cbn [app]. rewrite split_app_space.
      rewrite (split_word _ (Forall_inv Hw)).
      rewrite (split_join _ (Forall_inv_tail Hw)).
      rewrite <- app_assoc. reflexivity.
    + change (join [SPACE] (moved :: w :: parts))
        with (moved ++ SPACE :: join [SPACE] (w :: parts)) in Hjs.
      rewrite !length_app in Hjs |- *. cbn [length app] in Hjs |- *. lia.
Qed.

Lemma balance_passes_keeps n line1 line2 :
  split (fst (Legacy.balance_passes n line1 line2))
  ++ split (snd (Legacy.balance_passes n line1 line2))
  = split line1 ++ split line2
  /\ len (fst (Legacy.balance_passes n line1 line2))
     + len (snd (Legacy.balance_passes n line1 line2))
     <= len line1 + len line2.
Proof.
  revert line1 line2. induction n as [|n IH]; intros line1 line2.
  - cbn [Legacy.balance_passes fst snd]. split; [reflexivity|lia].
  - cbn [Legacy.balance_passes].
    destruct (Legacy.balance_pass line1 line2) as [[l1 l2]|] eqn:E.
    + destruct (balance_pass_keeps _ _ _ _ E) as [Hw Hl].
      destruct (IH l1 l2) as [Hw' Hl']. split; [congruence|lia].
    + cbn [fst snd]. split; [reflexivity|lia].
Qed.

(** X5.  Rebalancing moves words between the two lines and changes white
    space, nothing else: the words of the first returned line followed by
    those of the second are the words of the first given line followed by
    those of the second. *)
Theorem balance_two_lines_keeps_words (line1 line2 : str) :
  split (fst (Legacy.balance_two_lines line1 line2))
  ++ split (snd (Legacy.balance_two_lines line1 line2))
  = split line1 ++ split line2.
Proof.
  unfold Legacy.balance_two_lines.
  destruct (balance_passes_keeps 3 line1 line2) as [Hw _].
  destruct (Legacy.balance_passes 3 line1 line2) as [l1 l2].
  cbn [fst snd] in *. rewrite !split_strip. exact Hw.
Qed.

(** X6.  Rebalancing never lengthens the two lines taken together, so
    neither returned line is longer than the two given lines together. *)
Theorem balance_two_lines_total_length (line1 line2 : str) :
  len (fst (Legacy.balance_two_lines line1 line2))
  + len (snd (Legacy.balance_two_lines line1 line2))
  <= len line1 + len line2
  /\ Legacy.max_len (Legacy.balance_two_lines line1 line2)
     <= len line1 + len line2.
Proof.
  unfold Legacy.balance_two_lines, Legacy.max_len.
  destruct (balance_passes_keeps 3 line1 line2) as [_ Hl].
  destruct (Legacy.balance_passes 3 line1 line2) as [l1 l2].
  cbn [fst snd] in *.
  pose proof (strip_length l1). pose proof (strip_length l2).
  unfold len in *. lia.
Qed.

End RebalancingMore.

(** ** The batcher: engine calls and alignment *)

Section BatcherMore.

Context {C : Collaborators}.
Variable all_eng : list str.

Local Abbreviation idx := current_sentence_idx.
Local Abbreviation ncalls := (fun b : Batcher => length (calls (engine b))).

Lemma forced_single_one_call b :
  idx b < length all_eng ->
  ncalls (forced_single all_eng b) = ncalls b + 1.
Proof.
  intros Hb. rewrite forced_single_eq by exact Hb. cbn zeta. cbn [engine].
  rewrite translate_text_calls, length_app. reflexivity.
Qed.

Lemma answer_one_call n b :
  length (calls (snd (answer_at all_eng n b))) = ncalls b + 1.
Proof.
  unfold answer_at. rewrite translate_text_calls, length_app. reflexivity.
Qed.

(** At attempt size 1 the engine is called exactly once. *)
Lemma attempt_loop_one_call b :
  idx b < length all_eng ->
  ncalls (attempt_loop all_eng 1 b) = ncalls b + 1.
Proof.
  intros Hb. rewrite attempt_loop_S, attempt_body_cases.
  destruct (MAX_CHARS_PER_BLOCK <? _).
  - cbn [Nat.sub]. simp attempt_loop. apply forced_single_one_call. exact Hb.
  - destruct (_ =? _); cbn [Nat.ltb Nat.leb engine]; apply answer_one_call.
Qed.

Lemma attempt_loop_call_count n b :
  idx b < length all_eng ->
  ncalls b + 1 <= ncalls (attempt_loop all_eng n b) <= ncalls b + 2.
Proof.
  intros Hb. induction n as [|n IH].
  - simp attempt_loop. rewrite forced_single_one_call by exact Hb. lia.
  - rewrite attempt_loop_S, attempt_body_cases.
    destruct (MAX_CHARS_PER_BLOCK <? _).
    + replace (S n - 1) with n by lia. exact IH.
    + pose proof (answer_one_call (S n) b) as Ha.
      destruct (_ =? _); [cbn [engine]; lia|].
      destruct (1 <? S n); [|cbn [engine]; lia].
      rewrite attempt_loop_one_call by exact Hb. cbn [engine]. lia.
Qed.

Lemma batch_loop_call_count fuel b passes b' :
  batch_loop all_eng fuel b = Some (passes, b') ->
  ncalls b + passes <= ncalls b' <= ncalls b + 2 * passes.
Proof.
  revert b passes. induction fuel as [|fuel IH]; intros b passes; cbn [batch_loop].
  - destruct (idx b <? length all_eng); [discriminate|].
    intros [= <- <-]. lia.
  - destruct (idx b <? length all_eng) eqn:E.
    + destruct (batch_loop all_eng fuel (batch_body all_eng b))
        as [[k b'']|] eqn:R; [|discriminate].
      intros [= <- <-]. specialize (IH _ _ R).
      apply Nat.ltb_lt in E.
      pose proof (attempt_loop_call_count
                    (Nat.min MAX_SENTENCES_PER_BLOCK (length all_eng - idx b))
                    b E) as Hc.
      fold (batch_body all_eng b) in Hc. lia.
    + intros [= <- <-]. lia.
Qed.

(** Sentences gained and cursor advance agree on a pass as long as every
    single source sentence comes back as one sentence. *)
Lemma attempt_loop_aligned n b :
  (forall i e, i < length all_eng ->
     length (sent_tokenize (fst (translate_text (nth i all_eng []) e))) = 1) ->
  idx b < length all_eng -> n <= length all_eng - idx b ->
  length (all_hun_sentences (attempt_loop all_eng n b)) + idx b
  = length (all_hun_sentences b) + idx (attempt_loop all_eng n b).
Proof.
  intros Hone. revert b. induction n as [n IH] using lt_wf_ind. intros b Hb Hn.
  destruct n as [|n].
  - simp attempt_loop. rewrite forced_single_eq by exact Hb. cbn zeta.
    cbn [all_hun_sentences current_sentence_idx].
    rewrite length_app, (Hone _ _ Hb). lia.
  - rewrite attempt_loop_S, attempt_body_cases.
    destruct (MAX_CHARS_PER_BLOCK <? _).
    + replace (S n - 1) with n by lia. apply IH; lia.
    + destruct (Nat.eqb_spec (length (hun_at all_eng (S n) b))
                             (length (batch_at all_eng (S n) b))) as [Heq|Hne].
      * cbn [all_hun_sentences current_sentence_idx]. rewrite length_app. lia.
      * destruct (1 <? S n) eqn:E1.
        -- apply Nat.ltb_lt in E1.
           exact (IH 1 E1 (mkBatcher _ _ _) Hb ltac:(simpl; lia)).
        -- apply Nat.ltb_ge in E1. assert (n = 0) by lia. subst n.
           exfalso. apply Hne.
           unfold hun_at, answer_at, batch_at.
           rewrite (slice_one all_eng (idx b) Hb). cbn [join length].
           apply Hone. exact Hb.
Qed.

Lemma batch_loop_aligned fuel b passes b' :
  (forall i e, i < length all_eng ->
     length (sent_tokenize (fst (translate_text (nth i all_eng []) e))) = 1) ->
  batch_loop all_eng fuel b = Some (passes, b') ->
  length (all_hun_sentences b') + idx b = length (all_hun_sentences b) + idx b'.
Proof.
  intros Hone. revert b passes.
  induction fuel as [|fuel IH]; intros b passes; cbn [batch_loop].
  - destruct (idx b <? length all_eng); [discriminate|].
    intros [= <- <-]. lia.
  - destruct (idx b <? length all_eng) eqn:E.
    + destruct (batch_loop all_eng fuel (batch_body all_eng b))
        as [[k b'']|] eqn:R; [|discriminate].
      intros [= <- <-]. specialize (IH _ _ R).
      apply Nat.ltb_lt in E.
      pose proof (attempt_loop_aligned
                    (Nat.min MAX_SENTENCES_PER_BLOCK (length all_eng - idx b))
                    b Hone E ltac:(lia)) as Ha.
      fold (batch_body all_eng b) in Ha. lia.
    + intros [= <- <-]. lia.
Qed.

End BatcherMore.

(** X7.  The batcher is economical with the engine: every pass of the outer
    loop calls it once or twice, so a whole run makes at least one call per
    pass and at most two calls per source sentence. *)
Theorem batcher_call_budget
        (C : Collaborators) (all_eng : list str) (e : Engine) :
  (forall b, current_sentence_idx b < length all_eng ->
     length (calls (engine b)) + 1
     <= length (calls (engine (batch_body all_eng b)))
     <= length (calls (engine b)) + 2)
  /\ exists passes b',
       batch_loop all_eng (length all_eng) (mkBatcher [] 0 e) = Some (passes, b')
       /\ length (calls e) + passes <= length (calls (engine b'))
       /\ length (calls (engine b')) <= length (calls e) + 2 * length all_eng.
Proof.
  split.
  - intros b Hb. unfold batch_body. apply attempt_loop_call_count. exact Hb.
  - destruct (batch_loop_total all_eng (length all_eng) (mkBatcher [] 0 e))
      as [passes [b' [R [Hp _]]]]; [simpl; lia|simpl; lia|].
    exists passes, b'. split; [exact R|].
    pose proof (batch_loop_call_count all_eng _ _ _ _ R) as Hc.
    cbn [engine current_sentence_idx] in Hc, Hp. lia.
Qed.

Lemma batcher_call_budget_witness :
  let all_eng := [lit "Hello world."; lit "This is a test."; lit "Goodbye now."] in
  let b := mkBatcher [] 0 (Samples.start (C := Samples.merging) tt) in
  current_sentence_idx b < length all_eng
  /\ length (calls (engine (batch_body all_eng b))) = 2.
Proof.
  intros all_eng b.
  assert (H : current_sentence_idx b < length all_eng) by (simpl; lia).
  destruct (batcher_call_budget Samples.merging all_eng
              (Samples.start (C := Samples.merging) tt)) as [Hb _].
  specialize (Hb b H). split; [exact H|].
  assert (Hge : 2 <= length (calls (engine (batch_body all_eng b))))
    by (apply Nat.leb_le; vm_compute; reflexivity).
  cbn [calls engine Samples.start b length] in Hb. lia.
Defined.

(** X8.  Alignment.  If every single source sentence, whenever it is
    translated on its own, comes back as exactly one sentence, then the run
    ends with exactly as many translated sentences as there are source
    sentences, whatever the engine does with larger batches. *)
Theorem batcher_alignment
        (C : Collaborators) (all_eng : list str) (e : Engine) :
  (forall i e', i < length all_eng ->
     length (sent_tokenize (fst (translate_text (nth i all_eng []) e'))) = 1) ->
  exists passes b',
    batch_loop all_eng (length all_eng) (mkBatcher [] 0 e) = Some (passes, b')
    /\ length (all_hun_sentences b') = length all_eng.
Proof.
  intros Hone.
  destruct (batch_loop_total all_eng (length all_eng) (mkBatcher [] 0 e))
    as [passes [b' [R [_ Hb']]]]; [simpl; lia|simpl; lia|].
  exists passes, b'. split; [exact R|].
  pose proof (batch_loop_aligned all_eng _ _ _ _ Hone R) as Ha.
  cbn [all_hun_sentences current_sentence_idx length] in Ha. lia.
Qed.

Lemma batcher_alignment_witness :
  let all_eng := [lit "Hello world."; lit "This is a test."; lit "Goodbye now."] in
  (forall i (e' : @Engine Samples.merging), i < length all_eng ->
     length (sent_tokenize (Collaborators := Samples.merging)
               (fst (translate_text (nth i all_eng []) e'))) = 1)
  /\ exists passes b',
       batch_loop all_eng (length all_eng)
                  (mkBatcher [] 0 (Samples.start (C := Samples.merging) tt))
       = Some (passes, b')
       /\ length (all_hun_sentences b') = 3.
Proof.
  intros all_eng.
  assert (H : forall i (e' : @Engine Samples.merging), i < length all_eng ->
     length (sent_tokenize (Collaborators := Samples.merging)
               (fst (translate_text (nth i all_eng []) e'))) = 1).
  { intros i [[] c] Hi.
    destruct i as [|[|[|i]]]; [reflexivity|reflexivity|reflexivity|].
    simpl in Hi. lia. }
  split; [exact H|].
  exact (batcher_alignment Samples.merging all_eng
           (Samples.start (C := Samples.merging) tt) H).
Defined.

(** ** The reassembler and the pipeline at their edges *)

Section ReassemblerMore.

Context {C : Collaborators}.

Lemma slice_firstn (pool : list str) (T i c : nat) :
  i + c <= T -> slice (firstn T pool) i (i + c) = slice pool i (i + c).
Proof.
  intros H. unfold slice. replace (i + c - i) with c by lia.
  rewrite skipn_firstn_comm, firstn_firstn.
  replace (Nat.min c (T - i)) with c by lia. reflexivity.
Qed.

Lemma reassemble_firstn (pool : list str) (blocks : list Block) (T i : nat) :
  i + sentences_before blocks (length blocks) <= T ->
  fst (reassemble (firstn T pool) blocks [] i) = fst (reassemble pool blocks [] i).
Proof.
  revert i. induction blocks as [|blk rest IH]; intros i H; [reflexivity|].
  cbn [length] in H. rewrite sentences_before_S in H.
  rewrite !reassemble_cons. cbn [fst]. rewrite !reassemble_block_eq. cbn [fst snd].
  rewrite (slice_firstn pool T i (sentence_count blk)) by lia.
  f_equal. apply IH.
  pose proof (slice_pool_length pool i (sentence_count blk)). lia.
Qed.

Lemma reassemble_no_sentences (pool : list str) (blocks : list Block) (i : nat) :
  Forall (fun blk => sent_tokenize (text blk) = []) blocks ->
  fst (reassemble pool blocks [] i)
  = map (fun blk => mkBlock (index blk) (timestamp blk) []) blocks.
Proof.
  intros H. revert i. induction H as [|blk rest Hb Hr IH]; intros i; [reflexivity|].
  rewrite reassemble_cons. cbn [fst map]. rewrite reassemble_block_eq. cbn [fst snd].
  unfold sentence_count. rewrite Hb. cbn [length].
  unfold slice. rewrite Nat.add_0_r, Nat.sub_diag. cbn [firstn join length].
  rewrite Nat.add_0_r, IH. reflexivity.
Qed.

End ReassemblerMore.

(** X9.  Translated sentences in excess of what the blocks call for never
    reach the output: the blocks built from a pool are those built from
    its first [n] sentences, [n] being the number of source sentences of
    all the blocks. *)
Theorem reassembler_drops_surplus
        (C : Collaborators) (all_hun : list str) (eng_blocks : list Block) :
  let needed := sentences_before eng_blocks (length eng_blocks) in
  fst (reassemble (firstn needed all_hun) eng_blocks [] 0)
  = fst (reassemble all_hun eng_blocks [] 0).
Proof.
  intros needed. apply reassemble_firstn. unfold needed. lia.
Qed.

(** X10.  Input without sentences.  When the segmenter finds no sentence in
    any block (in particular when there is no block), the pipeline does not
    call the engine and returns every block with its index and time range
    and an empty text. *)
Theorem pipeline_without_sentences
        (C : Collaborators) (eng_blocks : list Block) (e : Engine) :
  Forall (fun blk => sent_tokenize (text blk) = []) eng_blocks ->
  exists out,
    process_and_generate_srt eng_blocks e = Some out
    /\ hun_blocks out
       = map (fun blk => mkBlock (index blk) (timestamp blk) []) eng_blocks
    /\ final_engine out = e.
Proof.
  intros H. unfold process_and_generate_srt.
  assert (Hnil : flat_map (fun block => sent_tokenize (text block)) eng_blocks = []).
  { induction H as [|blk rest Hb Hr IH]; [reflexivity|].
    cbn [flat_map]. rewrite Hb, IH. reflexivity. }
  rewrite Hnil. cbn [length batch_loop current_sentence_idx Nat.ltb Nat.leb].
  pose proof (reassemble_no_sentences [] eng_blocks 0 H) as Hr.
  cbn [all_hun_sentences]. destruct (reassemble [] eng_blocks [] 0) as [blocks j].
  cbn [fst] in Hr. eexists. split; [reflexivity|].
  cbn [hun_blocks final_engine engine]. split; [exact Hr|reflexivity].
Qed.

Lemma pipeline_without_sentences_witness :
  let b1 := mkBlock 7 (lit "00:00:01,000 --> 00:00:03,000") (lit "   ") in
  Forall (fun blk => sent_tokenize (Collaborators := Samples.identity) (text blk) = [])
         [b1]
  /\ exists out,
       process_and_generate_srt [b1] (Samples.start (C := Samples.identity) tt)
       = Some out
       /\ hun_blocks out = [mkBlock 7 (timestamp b1) []].
Proof.
  intros b1.
  assert (H : Forall (fun blk => sent_tokenize (Collaborators := Samples.identity)
                                   (text blk) = []) [b1]).
  { constructor; [vm_compute; reflexivity|constructor]. }
  split; [exact H|].
  destruct (pipeline_without_sentences Samples.identity [b1]
              (Samples.start (C := Samples.identity) tt) H) as [out [R [Hb _]]].
  exists out. split; [exact R|exact Hb].
Defined.

(** ** The term protector of the superseded pipeline *)

Section LegacyProtector.

Import StrMore.

(** The text without its white space. *)
Definition unspaced (s : str) : str := filter (fun c => negb (isspace c)) s.

(** The text without white space and markers. *)
Definition bare (s : str) : str :=
  filter (fun c => negb (isspace c) && negb (c =? MARKER)%N) s.

Lemma bare_unmarked s : bare s = unspaced (unmarked s).
Proof.
  unfold bare, unspaced, unmarked. induction s as [|c s IH]; [reflexivity|].
  cbn [filter]. destruct (c =? MARKER)%N; destruct (isspace c) eqn:E;
    cbn [negb andb filter]; rewrite ?E; cbn [negb]; rewrite IH; reflexivity.
Qed.

Lemma bare_spaced term : bare (Legacy.spaced term) = bare term.
Proof.
  unfold Legacy.spaced, bare.
  change (SPACE :: MARKER :: term ++ [MARKER; SPACE])
    with ([SPACE; MARKER] ++ term ++ [MARKER; SPACE]).
  rewrite !filter_app. cbn. apply app_nil_r.
Qed.

(** Replacing a term by a text with the same bare characters keeps the
    bare characters. *)
Lemma replace_scan_bare old new skip s :
  old <> [] -> bare new = bare old ->
  bare (replace_scan old new skip s) = bare (skipn skip s).
Proof.
  intros Hne Hnew. revert skip.
  induction s as [|c s IH]; intros skip.
  - destruct skip; reflexivity.
  - destruct skip as [|k]; [|apply IH].
    cbn [replace_scan skipn].
    destruct (startswith old (c :: s)) eqn:E.
    + unfold bare at 1. rewrite filter_app. fold (bare new).
      fold (bare (replace_scan old new (length old - 1) s)).
      rewrite Hnew, IH.
      apply startswith_split in E.
      transitivity (bare (old ++ skipn (length old) (c :: s)));
        [|f_equal; symmetry; exact E].
      unfold bare at 3. rewrite filter_app. f_equal.
      destruct old as [|o old]; [congruence|].
      simpl. rewrite Nat.sub_0_r. reflexivity.
    + unfold bare in *. cbn [filter]. rewrite (IH 0). reflexivity.
Qed.

Lemma legacy_protect_bare text : bare (Legacy.protect_terms text) = bare text.
Proof.
  unfold Legacy.protect_terms.
  assert (H : Forall (fun t => t <> []) Legacy.EXCEPTIONS).
  { repeat (constructor; [discriminate|]). constructor. }
  revert text. induction H as [|t terms Ht Hts IH]; intros text; [reflexivity|].
  cbn [fold_left]. rewrite IH. destruct t as [|a t]; [congruence|].
  unfold replace. rewrite replace_scan_bare; [reflexivity|discriminate|].
  apply bare_spaced.
Qed.

Lemma unspaced_collapse flag s : unspaced (collapse_scan flag s) = unspaced s.
Proof.
  unfold unspaced. revert flag. induction s as [|c s IH]; intros flag; [reflexivity|].
  cbn [collapse_scan filter]. destruct (isspace c) eqn:E; cbn [negb].
  - destruct flag; [apply IH|]. cbn [filter].
    change (negb (isspace SPACE)) with false. cbn iota. apply IH.
  - cbn [filter]. rewrite E. cbn [negb]. rewrite IH. reflexivity.
Qed.

Lemma unspaced_blank p : forallb isspace p = true -> unspaced p = [].
Proof.
  unfold unspaced. induction p as [|c p IH]; [reflexivity|].
  cbn [forallb filter]. intros H. apply andb_true_iff in H.
  destruct H as [Hc Hp]. rewrite Hc. cbn [negb]. apply IH. exact Hp.
Qed.

Lemma unspaced_strip s : unspaced (strip s) = unspaced s.
Proof.
  unfold strip.
  destruct (lstrip_decomp s) as [p [Hs Hp]].
  destruct (rstrip_decomp (lstrip s)) as [q [Hl Hq]].
  rewrite Hs at 2. rewrite Hl at 2.
  unfold unspaced at 2. rewrite !filter_app.
  fold (unspaced p) (unspaced q) (unspaced (rstrip (lstrip s))).
  rewrite (unspaced_blank p Hp), (unspaced_blank q Hq), app_nil_r. reflexivity.
Qed.

Lemma strip_chars s c : In c (strip s) -> In c s.
Proof.
  unfold strip. intros H.
  destruct (lstrip_decomp s) as [p [Hs _]].
  destruct (rstrip_decomp (lstrip s)) as [q [Hl _]].
  rewrite Hs. apply in_or_app. right. rewrite Hl. apply in_or_app. left. exact H.
Qed.

Lemma collapse_chars flag s c :
  In c (collapse_scan flag s) -> c = SPACE \/ In c s.
Proof.
  revert flag. induction s as [|d s IH]; intros flag; [intros []|].
  cbn [collapse_scan]. destruct (isspace d).
  - destruct flag.
    + intros H. destruct (IH _ H); [left|right; right]; assumption.
    + intros [<-|H]; [left; reflexivity|].
      destruct (IH _ H); [left|right; right]; assumption.
  - intros [<-|H]; [right; left; reflexivity|].
    destruct (IH _ H); [left|right; right]; assumption.
Qed.

Lemma unmarked_no_marker s : ~ In MARKER (unmarked s).
Proof.
  unfold unmarked. intros H. apply filter_In in H. destruct H as [_ H].
  rewrite N.eqb_refl in H. discriminate.
Qed.

(** X11.  The term protector of the superseded pipeline gives a marker-free
    text back up to white space only: unprotecting the protected text keeps
    the characters that are not white space, in order, and leaves no
    marker; but the spaces put around the terms stay, collapsed, so that
    the text itself need not come back. *)
Theorem legacy_protect_roundtrip_modulo_space (text : str) :
  ~ In MARKER text ->
  unspaced (Legacy.unprotect_terms (Legacy.protect_terms text)) = unspaced text
  /\ ~ In MARKER (Legacy.unprotect_terms (Legacy.protect_terms text)).
Proof.
  intros Hfree. unfold Legacy.unprotect_terms.
  change (replace (Legacy.protect_terms text) [MARKER] [])
    with (unprotect_terms (Legacy.protect_terms text)).
  rewrite unprotect_unmarked. split.
  - unfold collapse_ws. rewrite unspaced_strip, unspaced_collapse.
    rewrite <- bare_unmarked, legacy_protect_bare, bare_unmarked.
    rewrite (unmarked_id text Hfree). reflexivity.
  - intros H. apply strip_chars in H. apply collapse_chars in H.
    destruct H as [H|H]; [discriminate H|].
    exact (unmarked_no_marker _ H).
Qed.

Lemma legacy_protect_roundtrip_modulo_space_witness :
  ~ In MARKER (lit "GitHub hosts React.")
  /\ Legacy.unprotect_terms (Legacy.protect_terms (lit "GitHub hosts React."))
     = lit "Git Hub hosts React ."
  /\ unspaced (Legacy.unprotect_terms (Legacy.protect_terms (lit "GitHub hosts React.")))
     = unspaced (lit "GitHub hosts React.").
Proof.
  assert (H : ~ In MARKER (lit "GitHub hosts React.")).
  { apply marker_free_dec. vm_compute. reflexivity. }
  split; [exact H|]. split; [vm_compute; reflexivity|].
  exact (proj1 (legacy_protect_roundtrip_modulo_space _ H)).
Defined.

End LegacyProtector.

(** ** Sentences for translation in the superseded pipeline *)

Section LegacySentences.

Lemma join_app_nonempty (g r : list str) :
  g <> [] -> r <> [] ->
  join [SPACE] (g ++ r) = join [SPACE] g ++ [SPACE] ++ join [SPACE] r.
Proof.
  intros Hg Hr. induction g as [|x g IH]; [congruence|].
  destruct g as [|y g].
  - cbn [app]. destruct r; [congruence|reflexivity].
  - change (join [SPACE] ((x :: y :: g) ++ r))
      with (x ++ [SPACE] ++ join [SPACE] ((y :: g) ++ r)).
    rewrite IH by discriminate.
    change (join [SPACE] (x :: y :: g))
      with (x ++ [SPACE] ++ join [SPACE] (y :: g)).
    rewrite <- !app_assoc. reflexivity.
Qed.

(** Joining a joined group in place of its members changes nothing. *)
Lemma join_flatten (l g r : list str) :
  g <> [] ->
  join [SPACE] (l ++ [join [SPACE] g] ++ r) = join [SPACE] (l ++ g ++ r).
Proof.
  intros Hg.
  assert (Hbase : join [SPACE] ([join [SPACE] g] ++ r) = join [SPACE] (g ++ r)).
  { destruct r as [|y r]; [cbn [app]; rewrite app_nil_r; reflexivity|].
    rewrite (join_app_nonempty g (y :: r) Hg) by discriminate. reflexivity. }
  induction l as [|x l IH]; [exact Hbase|].
  assert (N1 : l ++ [join [SPACE] g] ++ r <> [])
    by (destruct l; discriminate).
  assert (N2 : l ++ g ++ r <> []).
  { destruct l; [|discriminate]. destruct g; [congruence|discriminate]. }
  change ((x :: l) ++ [join [SPACE] g] ++ r)
    with ([x] ++ (l ++ [join [SPACE] g] ++ r)).
  change ((x :: l) ++ g ++ r) with ([x] ++ (l ++ g ++ r)).
  rewrite (join_app_nonempty [x] (l ++ [join [SPACE] g] ++ r))
    by (assumption || discriminate).
  rewrite (join_app_nonempty [x] (l ++ g ++ r)) by (assumption || discriminate).
  rewrite IH. reflexivity.
Qed.

Lemma ends_sentence_app q clause :
  ends_sentence clause = true -> ends_sentence (q ++ clause) = true.
Proof.
  unfold ends_sentence. rewrite rev_app_distr.
  destruct (rev clause) as [|c r]; [discriminate|]. intros H. exact H.
Qed.

Lemma join_snoc (cur : list str) (x : str) :
  exists p, join [SPACE] (cur ++ [x]) = p ++ x.
Proof.
  destruct cur as [|y cur]; [exists []; reflexivity|].
  rewrite (join_app_nonempty (y :: cur) [x]) by discriminate.
  exists (join [SPACE] (y :: cur) ++ [SPACE]). rewrite <- app_assoc. reflexivity.
Qed.

Definition ends_clause (m : Legacy.Marked) : bool := ends_sentence (snd (fst m)).

Lemma collect_sentences_spec marked sentences cur :
  let r := Legacy.collect_sentences marked sentences cur in
  join [SPACE] (fst r ++ snd r)
  = join [SPACE] (sentences ++ cur ++ map Legacy.marked_text marked)
  /\ (Forall (fun s => ends_sentence s = true) sentences ->
      Forall (fun s => ends_sentence s = true) (fst r))
  /\ length (fst r) = length sentences + length (filter ends_clause marked).
Proof.
  revert sentences cur. induction marked as [|m rest IH]; intros sentences cur.
  - cbn. rewrite app_nil_r. repeat split; [tauto|lia].
  - cbn [Legacy.collect_sentences map filter]. unfold ends_clause at 1.
    destruct (ends_sentence (snd (fst m))) eqn:E.
    + destruct (IH (sentences ++ [join [SPACE] (cur ++ [Legacy.marked_text m])]) [])
        as [Hj [Hf Hl]].
      cbv zeta in *. split; [|split].
      * rewrite Hj. cbn [app]. rewrite <- app_assoc.
        rewrite (join_flatten sentences (cur ++ [Legacy.marked_text m]))
          by (destruct cur; discriminate).
        rewrite <- !app_assoc. reflexivity.
      * intros Hs. apply Hf. apply Forall_app. split; [exact Hs|].
        constructor; [|constructor].
        destruct (join_snoc cur (Legacy.marked_text m)) as [p Hp]. rewrite Hp.
        unfold Legacy.marked_text. rewrite !app_assoc.
        apply ends_sentence_app. exact E.
      * rewrite Hl, length_app. cbn [length]. lia.
    + destruct (IH sentences (cur ++ [Legacy.marked_text m])) as [Hj [Hf Hl]].
      cbv zeta in *. split; [|split].
      * rewrite Hj, <- !app_assoc. reflexivity.
      * exact Hf.
      * exact Hl.
Qed.

(** X12.  Grouping the marked clauses into sentences loses and reorders
    nothing: the sentences joined by single spaces are the marked clauses
    joined by single spaces.  Every sentence but the last ends with a
    clause that ends in a full stop, question mark or exclamation mark, and
    there is one sentence for each such clause, plus one for clauses left
    over at the end. *)
Theorem build_sentences_keeps_clauses (marked_clauses : list Legacy.Marked) :
  let sentences := Legacy.build_sentences_for_translation marked_clauses in
  join [SPACE] sentences = join [SPACE] (map Legacy.marked_text marked_clauses)
  /\ Forall (fun s => ends_sentence s = true) (removelast sentences)
  /\ length (filter ends_clause marked_clauses) <= length sentences
     <= length (filter ends_clause marked_clauses) + 1.
Proof.
  unfold Legacy.build_sentences_for_translation.
  destruct (collect_sentences_spec marked_clauses [] []) as [Hj [Hf Hl]].
  destruct (Legacy.collect_sentences marked_clauses [] []) as [sentences cur].
  cbn [fst snd app length] in *. specialize (Hf (Forall_nil _)).
  destruct cur as [|x cur].
  - rewrite app_nil_r in Hj. split; [exact Hj|]. split; [|lia].
    apply Forall_removelast. exact Hf.
  - split; [|split].
    + rewrite <- Hj.
      pose proof (join_flatten sentences (x :: cur) []) as F.
      rewrite !app_nil_r in F. apply F. discriminate.
    + rewrite removelast_last. exact Hf.
    + rewrite length_app. cbn [length]. lia.
Qed.

End LegacySentences.

(** ** The parser and the writer *)

Section SplitOn.

(** Splitting at a single character [c]. *)
Variable c : char.

Lemma split_scan_char_hit r :
  split_scan [c] 0 (c :: r)
  = ([], fst (split_scan [c] 0 r) :: snd (split_scan [c] 0 r)).
Proof.
  cbn [split_scan startswith length Nat.sub]. rewrite N.eqb_refl. cbn [andb].
  destruct (split_scan [c] 0 r). reflexivity.
Qed.

Lemma split_scan_char_miss x r :
  x <> c ->
  split_scan [c] 0 (x :: r)
  = (x :: fst (split_scan [c] 0 r), snd (split_scan [c] 0 r)).
Proof.
  intros Hx. cbn [split_scan startswith].
  replace (c =? x)%N with false by (symmetry; apply N.eqb_neq; congruence).
  cbn [andb]. destruct (split_scan [c] 0 r). reflexivity.
Qed.

Lemma split_on_char_free p r :
  ~ In c p -> split_on (p ++ c :: r) [c] = p :: split_on r [c].
Proof.
  intros Hp. unfold split_on.
  assert (H : split_scan [c] 0 (p ++ c :: r)
              = (p, fst (split_scan [c] 0 r) :: snd (split_scan [c] 0 r))).
  { induction p as [|x p IH].
    - apply split_scan_char_hit.
    - cbn [app]. rewrite split_scan_char_miss
        by (intros ->; apply Hp; left; reflexivity).
      rewrite IH by (intros Hin; apply Hp; right; exact Hin). reflexivity. }
  rewrite H. destruct (split_scan [c] 0 r). reflexivity.
Qed.

Lemma split_on_char_whole p : ~ In c p -> split_on p [c] = [p].
Proof.
  intros Hp. unfold split_on.
  assert (H : split_scan [c] 0 p = (p, [])).
  { induction p as [|x p IH]; [reflexivity|].
    rewrite split_scan_char_miss by (intros ->; apply Hp; left; reflexivity).
    rewrite IH by (intros Hin; apply Hp; right; exact Hin). reflexivity. }
  rewrite H. reflexivity.
Qed.

(** Splitting undoes joining, for pieces free of the separator. *)
Lemma split_on_join_char L :
  L <> [] -> Forall (fun p => ~ In c p) L -> split_on (join [c] L) [c] = L.
Proof.
  intros Hne H. induction H as [|p L Hp HL IH]; [congruence|].
  destruct L as [|q L].
  - apply split_on_char_whole. exact Hp.
  - change (join [c] (p :: q :: L)) with (p ++ c :: join [c] (q :: L)).
    rewrite (split_on_char_free p _ Hp), IH by discriminate. reflexivity.
Qed.

Lemma join_cons_char x cur ps :
  join [c] ((x :: cur) :: ps) = x :: join [c] (cur :: ps).
Proof. destruct ps; reflexivity. Qed.

(** Joining undoes splitting. *)
Lemma join_split_on_char s : join [c] (split_on s [c]) = s.
Proof.
  unfold split_on. induction s as [|x s IH]; [reflexivity|].
  destruct (N.eq_dec x c) as [->|Hx].
  - rewrite split_scan_char_hit. destruct (split_scan [c] 0 s) as [cur ps].
    cbn [fst snd] in *. change (join [c] ([] :: cur :: ps))
      with ([] ++ [c] ++ join [c] (cur :: ps)).
    rewrite IH. reflexivity.
  - rewrite (split_scan_char_miss x s Hx).
    destruct (split_scan [c] 0 s) as [cur ps]. cbn [fst snd] in *.
    rewrite join_cons_char, IH. reflexivity.
Qed.

(** The pieces are free of the separator. *)
Lemma split_on_char_pieces s : Forall (fun p => ~ In c p) (split_on s [c]).
Proof.
  unfold split_on. induction s as [|x s IH].
  - constructor; [intros []|constructor].
  - destruct (N.eq_dec x c) as [->|Hx].
    + rewrite split_scan_char_hit. destruct (split_scan [c] 0 s) as [cur ps].
      constructor; [intros []|exact IH].
    + rewrite (split_scan_char_miss x s Hx).
      destruct (split_scan [c] 0 s) as [cur ps]. cbn [fst snd] in *.
      inversion IH as [|? ? Hcur Hps]; subst.
      constructor; [|exact Hps].
      intros [->|Hin]; [congruence|exact (Hcur Hin)].
Qed.

End SplitOn.

(** The characters of the pieces are characters of the text. *)
Lemma split_scan_chars sep skip s x :
  (In x (fst (split_scan sep skip s))
   \/ exists p, In p (snd (split_scan sep skip s)) /\ In x p) ->
  In x s.
Proof.
  revert skip. induction s as [|d s IH]; intros skip.
  - cbn. intros [[]|[p [[] _]]].
  - cbn [split_scan]. destruct skip as [|k].
    + destruct (startswith sep (d :: s)).
      * destruct (split_scan sep (length sep - 1) s) as [cur ps] eqn:E.
        cbn [fst snd]. intros [[]|[p [[<-|Hp] Hx]]]; right.
        -- apply (IH (length sep - 1)). rewrite E. left. exact Hx.
        -- apply (IH (length sep - 1)). rewrite E. right. exists p. tauto.
      * destruct (split_scan sep 0 s) as [cur ps] eqn:E.
        cbn [fst snd]. intros [[<-|Hx]|[p [Hp Hx]]].
        -- left. reflexivity.
        -- right. apply (IH 0). rewrite E. left. exact Hx.
        -- right. apply (IH 0). rewrite E. right. exists p. tauto.
    + intros H. right. apply (IH k). exact H.
Qed.

Lemma split_on_chars s sep p x : In p (split_on s sep) -> In x p -> In x s.
Proof.
  unfold split_on. intros Hp Hx. apply (split_scan_chars sep 0).
  destruct (split_scan sep 0 s) as [cur ps]. cbn [fst snd].
  destruct Hp as [<-|Hp]; [left; exact Hx|right; exists p; tauto].
Qed.

Lemma join_chars sep L x :
  In x (join sep L) -> In x sep \/ exists p, In p L /\ In x p.
Proof.
  induction L as [|p L IH]; [intros []|].
  destruct L as [|q L].
  - intros H. right. exists p. split; [left; reflexivity|exact H].
  - change (join sep (p :: q :: L)) with (p ++ sep ++ join sep (q :: L)).
    intros H. apply in_app_or in H. destruct H as [H|H].
    + right. exists p. split; [left; reflexivity|exact H].
    + apply in_app_or in H. destruct H as [H|H]; [left; exact H|].
      destruct (IH H) as [Hs|[p' [Hp' Hx]]]; [left; exact Hs|].
      right. exists p'. split; [right; exact Hp'|exact Hx].
Qed.

Lemma join_chars_of sep L p x : In p L -> In x p -> In x (join sep L).
Proof.
  induction L as [|q L IH]; [intros []|].
  intros Hp Hx. destruct L as [|q' L].
  - destruct Hp as [->|[]]. exact Hx.
  - change (join sep (q :: q' :: L)) with (q ++ sep ++ join sep (q' :: L)).
    apply in_or_app. destruct Hp as [->|Hp]; [left; exact Hx|].
    right. apply in_or_app. right. apply IH; assumption.
Qed.

(** A text is not blank exactly when it has a character that is not white
    space. *)
Lemma nonblank_ink s :
  nonblank s = true <-> exists x, In x s /\ isspace x = false.
Proof.
  unfold nonblank. split.
  - intros H. destruct (forallb isspace s) eqn:E.
    + rewrite (StrMore.split_nil_strip s) in H; [discriminate|].
      unfold split. rewrite (PyStrFacts.scan_spaces s E). reflexivity.
    + assert (Hex : existsb (fun x => negb (isspace x)) s = true).
      { clear H. induction s as [|x s IH]; [discriminate|].
        cbn [forallb existsb] in *. destruct (isspace x); cbn [negb andb orb] in *;
          [apply IH; exact E|reflexivity]. }
      apply existsb_exists in Hex. destruct Hex as [x [Hx Hs]].
      exists x. split; [exact Hx|]. apply negb_true_iff. exact Hs.
  - intros [x [Hx Hs]]. destruct (strip s) eqn:E; [|reflexivity].
    apply PyStrFacts.strip_nil in E. rewrite forallb_forall in E.
    rewrite (E x Hx) in Hs. discriminate.
Qed.

Lemma replace_char_gone (a b : char) s :
  a <> b -> ~ In a (replace s [a] [b]).
Proof.
  intros Hab. unfold replace. induction s as [|x s IH]; [intros []|].
  cbn [replace_scan startswith length Nat.sub]. rewrite andb_true_r.
  destruct (N.eqb_spec a x) as [->|Hx].
  - cbn [app]. intros [H|H]; [congruence|exact (IH H)].
  - intros [H|H]; [congruence|exact (IH H)].
Qed.

Section ParserFacts.

Variable py_int : str -> option Z.

(** What the parser promises of every block it returns. *)
Definition clean_block (b : Block) : Prop :=
  nonblank (timestamp b) = true /\ nonblank (text b) = true
  /\ ~ In NEWLINE (timestamp b) /\ ~ In CR (timestamp b)
  /\ ~ In NEWLINE (text b) /\ ~ In CR (text b).

Lemma read_blocks_clean blocks acc result :
  Forall (fun block => ~ In CR block) blocks ->
  Forall clean_block acc ->
  read_blocks py_int blocks acc = Some result ->
  Forall clean_block result.
Proof.
  revert acc. induction blocks as [|block rest IH]; intros acc Hcr Hacc.
  - cbn. intros [= <-]. exact Hacc.
  - inversion Hcr as [|? ? Hb Hrest]; subst. cbn [read_blocks].
    set (lines := filter nonblank (split_on block [NEWLINE])).
    destruct (Nat.ltb_spec (length lines) 3) as [_|Hlen]; [apply IH; assumption|].
    destruct (py_int _) as [index|]; [|discriminate].
    apply IH; [exact Hrest|]. apply Forall_app. split; [exact Hacc|].
    constructor; [|constructor].
    assert (Hline : forall l, In l lines ->
              nonblank l = true /\ ~ In NEWLINE l /\ ~ In CR l).
    { intros l Hl. unfold lines in Hl. apply filter_In in Hl.
      destruct Hl as [Hl Hnb]. split; [exact Hnb|]. split.
      - pose proof (split_on_char_pieces NEWLINE block) as Hp.
        rewrite Forall_forall in Hp. exact (Hp l Hl).
      - intros Hin. apply Hb. exact (split_on_chars _ _ _ _ Hl Hin). }
    destruct lines as [|l0 [|l1 [|l2 more]]] eqn:El;
      try (cbn [length] in Hlen; lia).
    cbn [nth skipn]. unfold clean_block. cbn [timestamp text].
    destruct (Hline l1 ltac:(right; left; reflexivity)) as [N1 [L1 C1]].
    destruct (Hline l2 ltac:(right; right; left; reflexivity)) as [N2 _].
    assert (Hsub : forall l, In l (l2 :: more) ->
              nonblank l = true /\ ~ In NEWLINE l /\ ~ In CR l)
      by (intros l Hl; apply Hline; right; right; exact Hl).
    repeat split; try assumption.
    + apply nonblank_ink. apply nonblank_ink in N2. destruct N2 as [x [Hx Hs]].
      exists x. split; [|exact Hs].
      apply (join_chars_of _ _ l2); [left; reflexivity|exact Hx].
    + intros Hin. apply join_chars in Hin.
      destruct Hin as [[H|[]]|[p [Hp Hin]]]; [discriminate H|].
      exact (proj1 (proj2 (Hsub p Hp)) Hin).
    + intros Hin. apply join_chars in Hin.
      destruct Hin as [[H|[]]|[p [Hp Hin]]]; [discriminate H|].
      exact (proj2 (proj2 (Hsub p Hp)) Hin).
Qed.

(** X13.  Whatever the file holds, every block the parser returns has a
    time range and a text that are not blank and hold no line break, be it
    a line feed or a carriage return. *)
Theorem read_srt_blocks_clean (raw : str) (blocks : list Block) :
  read_srt py_int raw = Some blocks -> Forall clean_block blocks.
Proof.
  unfold read_srt. intros H.
  apply (read_blocks_clean _ [] blocks) in H; [exact H| |constructor].
  apply Forall_forall. intros block Hb Hin. apply filter_In in Hb.
  destruct Hb as [Hb _].
  apply (split_on_chars _ _ _ _ Hb) in Hin.
  revert Hin. apply replace_char_gone. discriminate.
Qed.

(** The superseded reader walks the same blocks as the parser. *)
Lemma full_text_of_read_blocks chunks acc result :
  read_blocks py_int chunks acc = Some result ->
  exists new,
    result = acc ++ new
    /\ forall full_text,
         Legacy.full_text_of chunks full_text
         = full_text ++ map (fun b => strip (text b)) new.
Proof.
  revert acc. induction chunks as [|chunk rest IH]; intros acc.
  - cbn. intros [= <-]. exists []. split; [symmetry; apply app_nil_r|].
    intros full_text. symmetry. apply app_nil_r.
  - cbn [read_blocks Legacy.full_text_of].
    destruct (length (filter nonblank (split_on chunk [NEWLINE])) <? 3);
      [apply IH|].
    destruct (py_int _) as [index|]; [|discriminate].
    intros H. destruct (IH _ H) as [new [Hr Hf]].
    eexists (_ :: new). split; [rewrite Hr, <- app_assoc; reflexivity|].
    intros full_text. rewrite Hf, <- app_assoc. reflexivity.
Qed.

(** X14.  The two readers agree: when the parser of [main.py] accepts a
    file, the whole text that the reader of [main_old.py] extracts from it
    is the stripped texts of the parsed blocks joined by single spaces, and
    the raw blocks it returns are the ones the parser went through. *)
Theorem read_srt_full_text_agrees (raw : str) (blocks : list Block) :
  read_srt py_int raw = Some blocks ->
  fst (Legacy.read_srt_full_text raw)
  = join [SPACE] (map (fun b => strip (text b)) blocks)
  /\ length blocks <= length (snd (Legacy.read_srt_full_text raw)).
Proof.
  unfold read_srt, Legacy.read_srt_full_text. cbn [fst snd].
  set (chunks := filter nonblank (split_on _ _)). intros H.
  destruct (full_text_of_read_blocks chunks [] blocks H) as [new [Hr Hf]].
  cbn [app] in Hr. subst new. split; [rewrite Hf; reflexivity|].
  clear Hf.
  assert (G : forall acc result,
            read_blocks py_int chunks acc = Some result ->
            length result <= length acc + length chunks).
  { clear H. induction chunks as [|chunk rest IH]; intros acc result.
    - cbn. intros [= <-]. lia.
    - cbn [read_blocks length].
      destruct (length (filter nonblank (split_on chunk [NEWLINE])) <? 3).
      + intros H. specialize (IH _ _ H). lia.
      + destruct (py_int _); [|discriminate].
        intros H. specialize (IH _ _ H). rewrite length_app in IH.
        cbn [length] in IH. lia. }
  exact (G [] blocks H).
Qed.

End ParserFacts.

Lemma read_srt_blocks_clean_witness :
  let raw := BOM :: lit "1" ++ CR :: NEWLINE :: lit "00:00:01,000 --> 00:00:03,000"
             ++ CR :: NEWLINE :: lit "Hello" ++ CR :: NEWLINE :: lit "world."
             ++ CR :: NEWLINE :: CR :: NEWLINE :: lit "orphan line"
             ++ CR :: NEWLINE :: CR :: NEWLINE :: [] in
  let blocks := [mkBlock 1 (lit "00:00:01,000 --> 00:00:03,000")
                         (lit "Hello world.")] in
  read_srt Samples.decimal_int raw = Some blocks
  /\ Forall clean_block blocks.
Proof.
  intros raw blocks.
  assert (H : read_srt Samples.decimal_int raw = Some blocks)
    by (vm_compute; reflexivity).
  split; [exact H|].
  exact (read_srt_blocks_clean Samples.decimal_int raw blocks H).
Defined.

Lemma read_srt_full_text_agrees_witness :
  let raw := lit "1" ++ NEWLINE :: lit "00:00:01,000 --> 00:00:03,000"
             ++ NEWLINE :: lit "Hello" ++ NEWLINE :: lit "world."
             ++ NEWLINE :: NEWLINE :: lit "2" ++ NEWLINE
             :: lit "00:00:03,500 --> 00:00:05,000" ++ NEWLINE :: lit "Bye." in
  let blocks := [mkBlock 1 (lit "00:00:01,000 --> 00:00:03,000") (lit "Hello world.");
                 mkBlock 2 (lit "00:00:03,500 --> 00:00:05,000") (lit "Bye.")] in
  read_srt Samples.decimal_int raw = Some blocks
  /\ fst (Legacy.read_srt_full_text raw) = lit "Hello world. Bye.".
Proof.
  intros raw blocks.
  assert (H : read_srt Samples.decimal_int raw = Some blocks)
    by (vm_compute; reflexivity).
  split; [exact H|].
  rewrite (proj1 (read_srt_full_text_agrees Samples.decimal_int raw blocks H)).
  vm_compute. reflexivity.
Defined.

(** *** Reading back what the writer wrote *)

Section RoundTrip.

Lemma join_app_sep (sep : str) (g r : list str) :
  g <> [] -> r <> [] ->
  join sep (g ++ r) = join sep g ++ sep ++ join sep r.
Proof.
  intros Hg Hr. induction g as [|x g IH]; [congruence|].
  destruct g as [|y g].
  - cbn [app]. destruct r; [congruence|reflexivity].
  - change (join sep ((x :: y :: g) ++ r))
      with (x ++ sep ++ join sep ((y :: g) ++ r)).
    rewrite IH by discriminate.
    change (join sep (x :: y :: g)) with (x ++ sep ++ join sep (y :: g)).
    rewrite <- !app_assoc. reflexivity.
Qed.

Local Abbreviation NL := NEWLINE.
Local Abbreviation gap := [NEWLINE; NEWLINE].

Lemma split2_free p r :
  ~ In NL p ->
  split_scan gap 0 (p ++ r)
  = (p ++ fst (split_scan gap 0 r), snd (split_scan gap 0 r)).
Proof.
  intros Hp. induction p as [|x p IH].
  - cbn [app]. destruct (split_scan gap 0 r). reflexivity.
  - cbn [app split_scan startswith].
    replace (NL =? x)%N with false
      by (symmetry; apply N.eqb_neq; intros <-; apply Hp; left; reflexivity).
    cbn [andb]. rewrite IH by (intros Hin; apply Hp; right; exact Hin).
    reflexivity.
Qed.

Lemma split2_hit r :
  split_scan gap 0 (NL :: NL :: r)
  = ([], fst (split_scan gap 0 r) :: snd (split_scan gap 0 r)).
Proof.
  cbn [split_scan startswith length Nat.sub]. rewrite !N.eqb_refl. cbn [andb].
  destruct (split_scan gap 0 r). reflexivity.
Qed.

Lemma split2_lone y r :
  y <> NL ->
  split_scan gap 0 (NL :: y :: r)
  = (NL :: fst (split_scan gap 0 (y :: r)), snd (split_scan gap 0 (y :: r))).
Proof.
  intros Hy. cbn [split_scan startswith].
  replace (NL =? y)%N with false by (symmetry; apply N.eqb_neq; congruence).
  rewrite N.eqb_refl. cbn [andb].
  destruct (startswith gap (y :: r)); destruct (split_scan gap _ r); reflexivity.
Qed.

(** Lines that are not empty and hold no line feed. *)
Definition solid (L : list str) : Prop :=
  Forall (fun p => p <> [] /\ ~ In NL p) L.

Lemma join_solid_head q L :
  solid (q :: L) -> exists y t, y <> NL /\ join [NL] (q :: L) = y :: t.
Proof.
  intros H. inversion H as [|? ? [Hne Hfree] _]; subst.
  destruct q as [|y q]; [congruence|]. exists y.
  destruct L as [|q' L]; eexists; (split;
    [intros ->; apply Hfree; left; reflexivity|reflexivity]).
Qed.

Lemma split2_chunk L tail_cur tail_ps rest :
  L <> [] -> solid L ->
  split_scan gap 0 rest = (tail_cur, tail_ps) ->
  (rest = [NL] \/ exists r, rest = NL :: NL :: r) ->
  split_scan gap 0 (join [NL] L ++ rest)
  = (join [NL] L ++ tail_cur, tail_ps).
Proof.
  intros Hne H Hrest Hshape. induction H as [|p L [Hp Hfree] HL IH]; [congruence|].
  destruct L as [|q L].
  - cbn [join]. rewrite (split2_free p rest Hfree), Hrest. reflexivity.
  - change (join [NL] (p :: q :: L)) with (p ++ NL :: join [NL] (q :: L)).
    rewrite <- app_assoc. cbn [app].
    rewrite (split2_free p _ Hfree).
    destruct (join_solid_head q L HL) as [y [t [Hy Ej]]].
    specialize (IH ltac:(discriminate)). rewrite Ej in IH |- *. cbn [app] in IH |- *.
    rewrite (split2_lone y _ Hy), IH. cbn [fst snd].
    rewrite <- app_assoc. reflexivity.
Qed.

Lemma digits_chars u x : In x (digits u) -> (48 <= x <= 57)%N.
Proof.
  induction u; cbn [digits]; intros H; try (destruct H as [<-|H]; [lia|auto]).
  destruct H.
Qed.

Lemma str_of_int_chars z x : In x (str_of_int z) -> (45 <= x <= 57)%N.
Proof.
  unfold str_of_int. destruct (Z.to_int z) as [u|u].
  - intros H. apply digits_chars in H. lia.
  - intros [<-|H]; [lia|]. apply digits_chars in H. lia.
Qed.

Lemma digits_nonnil u : u <> Decimal.Nil -> digits u <> [].
Proof. destruct u; [congruence|discriminate..]. Qed.

Lemma str_of_int_nonnil z : str_of_int z <> [].
Proof.
  unfold str_of_int. destruct z as [|p|p]; cbn [Z.to_int].
  - discriminate.
  - apply digits_nonnil. apply DecimalPos.Unsigned.to_uint_nonnil.
  - discriminate.
Qed.

Variable py_int : str -> option Z.

(** The lines of a block as the writer lays them out and the parser finds
    them again. *)
Definition block_lines (b : Block) : list str :=
  str_of_int (index b) :: timestamp b :: split_on (text b) [NL].

(** What a block must be like to survive being written and read. *)
Definition writable (b : Block) : Prop :=
  nonblank (timestamp b) = true
  /\ ~ In NL (timestamp b) /\ ~ In CR (timestamp b) /\ ~ In CR (text b)
  /\ Forall (fun l => nonblank l = true) (split_on (text b) [NL])
  /\ py_int (strip (str_of_int (index b))) = Some (index b).

Lemma block_lines_nonnil b : block_lines b <> [].
Proof. unfold block_lines. discriminate. Qed.

Lemma nonblank_nonnil l : nonblank l = true -> l <> [].
Proof. intros H ->. discriminate H. Qed.

Lemma str_of_int_nonblank z : nonblank (str_of_int z) = true.
Proof.
  apply nonblank_ink. pose proof (str_of_int_nonnil z) as Hne.
  destruct (str_of_int z) as [|x t] eqn:E; [congruence|].
  exists x. split; [left; reflexivity|].
  assert (Hx : (45 <= x <= 57)%N)
    by (apply (str_of_int_chars z); rewrite E; left; reflexivity).
  unfold isspace.
  repeat match goal with
         | |- context [(?a <=? ?b)%N] => destruct (N.leb_spec a b); try lia
         | |- context [(?a =? ?b)%N] => destruct (N.eqb_spec a b); try lia
         end; reflexivity.
Qed.

Lemma block_lines_solid b : writable b -> solid (block_lines b).
Proof.
  intros [Hts [Hnl [_ [_ [Hlines _]]]]]. unfold block_lines, solid.
  constructor; [|constructor].
  - split; [apply str_of_int_nonnil|].
    intros H. apply str_of_int_chars in H. unfold NEWLINE in H. lia.
  - split; [apply nonblank_nonnil; exact Hts|exact Hnl].
  - pose proof (split_on_char_pieces NL (text b)) as Hp.
    rewrite Forall_forall in *. intros l Hl.
    split; [apply nonblank_nonnil; apply Hlines; exact Hl|apply Hp; exact Hl].
Qed.

Lemma block_lines_nonblank b :
  writable b -> filter nonblank (block_lines b) = block_lines b.
Proof.
  intros [Hts [_ [_ [_ [Hlines _]]]]]. unfold block_lines. cbn [filter].
  rewrite str_of_int_nonblank, Hts. f_equal. f_equal.
  induction Hlines as [|l ls Hl Hls IH]; [reflexivity|].
  cbn [filter]. rewrite Hl, IH. reflexivity.
Qed.

Lemma split_on_nonnil s sep : split_on s sep <> [].
Proof. unfold split_on. destruct (split_scan sep 0 s). discriminate. Qed.

(** The text of a block as the writer lays it out. *)
Lemma block_lines_join b :
  join [NL] (block_lines b)
  = str_of_int (index b) ++ NL :: timestamp b ++ NL :: text b.
Proof.
  unfold block_lines. pose proof (join_split_on_char NL (text b)) as J.
  pose proof (split_on_nonnil (text b) [NL]) as Hne.
  destruct (split_on (text b) [NL]) as [|l ls]; [congruence|].
  change (join [NL] (str_of_int (index b) :: timestamp b :: l :: ls))
    with (str_of_int (index b) ++ NL :: timestamp b ++ NL :: join [NL] (l :: ls)).
  rewrite J. reflexivity.
Qed.

Lemma write_srt_cons b rest :
  write_srt (b :: rest)
  = join [NL] (block_lines b)
    ++ match rest with
       | [] => [NL]
       | _ :: _ => NL :: NL :: write_srt rest
       end.
Proof.
  rewrite block_lines_join. unfold write_srt, srt_lines. cbn [flat_map].
  destruct rest as [|b' rest].
  - cbn [flat_map app join]. rewrite <- !app_assoc. cbn [app]. 
    rewrite <- !app_assoc. reflexivity.
  - cbn [flat_map app]. cbn [join]. rewrite <- !app_assoc. cbn [app].
    rewrite <- !app_assoc. reflexivity.
Qed.

(** The blocks of text between the blank lines of a written file. *)
Fixpoint chunks_of (blocks : list Block) : list str :=
  match blocks with
  | [] => []
  | b :: rest =>
      match rest with
      | [] => [join [NL] (block_lines b) ++ [NL]]
      | _ :: _ => join [NL] (block_lines b) :: chunks_of rest
      end
  end.

Lemma split_on_write b blocks :
  Forall writable (b :: blocks) ->
  split_on (write_srt (b :: blocks)) gap = chunks_of (b :: blocks).
Proof.
  revert b. induction blocks as [|b' rest IH]; intros b H.
  - rewrite write_srt_cons. unfold split_on.
    rewrite (split2_chunk (block_lines b) [NL] [] [NL]);
      [reflexivity|apply block_lines_nonnil
       |apply block_lines_solid; exact (Forall_inv H)
       |reflexivity|left; reflexivity].
  - rewrite write_srt_cons. unfold split_on.
    specialize (IH b' (Forall_inv_tail H)). unfold split_on in IH.
    destruct (split_scan gap 0 (write_srt (b' :: rest))) as [cur ps] eqn:E.
    rewrite (split2_chunk (block_lines b) [] (cur :: ps));
      [|apply block_lines_nonnil|apply block_lines_solid; exact (Forall_inv H)
       |rewrite split2_hit, E; reflexivity|right; eexists; reflexivity].
    rewrite app_nil_r.
    change (chunks_of (b :: b' :: rest))
      with (join [NL] (block_lines b) :: chunks_of (b' :: rest)).
    rewrite <- IH. reflexivity.
Qed.

Lemma chunk_lines b (tail : str) :
  writable b -> tail = [] \/ tail = [NL] ->
  filter nonblank (split_on (join [NL] (block_lines b) ++ tail) [NL])
  = block_lines b.
Proof.
  intros Hb Htail. pose proof (block_lines_solid b Hb) as Hs.
  assert (Hfree : Forall (fun p => ~ In NL p) (block_lines b)).
  { unfold solid in Hs. rewrite Forall_forall in *. intros p Hp.
    exact (proj2 (Hs p Hp)). }
  destruct Htail as [->| ->].
  - rewrite app_nil_r, (split_on_join_char NL _ (block_lines_nonnil b) Hfree).
    apply block_lines_nonblank. exact Hb.
  - replace (join [NL] (block_lines b) ++ [NL])
      with (join [NL] (block_lines b ++ [[]])).
    + rewrite (split_on_join_char NL (block_lines b ++ [[]])).
      * rewrite filter_app, (block_lines_nonblank b Hb).
        change (filter nonblank [[]]) with (@nil (list N)). apply app_nil_r.
      * unfold block_lines. discriminate.
      * apply Forall_app. split; [exact Hfree|].
        constructor; [intros []|constructor].
    + rewrite (join_app_sep [NL] (block_lines b) [[]] (block_lines_nonnil b))
        by discriminate.
      cbn [join]. rewrite app_nil_r. reflexivity.
Qed.

Lemma chunk_nonblank b (tail : str) :
  nonblank (join [NL] (block_lines b) ++ tail) = true.
Proof.
  pose proof (str_of_int_nonblank (index b)) as H. apply nonblank_ink in H.
  destruct H as [x [Hx Hs]]. apply nonblank_ink. exists x. split; [|exact Hs].
  apply in_or_app. left.
  apply (join_chars_of _ _ (str_of_int (index b))); [left; reflexivity|exact Hx].
Qed.

(** The text of a block as the parser reads it back: its lines joined by
    single spaces. *)
Definition read_back (b : Block) : Block :=
  mkBlock (index b) (timestamp b) (join [SPACE] (split_on (text b) [NL])).

Lemma read_chunk b (tail : str) rest acc :
  writable b -> tail = [] \/ tail = [NL] ->
  read_blocks py_int ((join [NL] (block_lines b) ++ tail) :: rest) acc
  = read_blocks py_int rest (acc ++ [read_back b]).
Proof.
  intros Hb Htail. cbn [read_blocks]. rewrite (chunk_lines b tail Hb Htail).
  pose proof (split_on_nonnil (text b) [NL]) as Hne.
  unfold block_lines. destruct (split_on (text b) [NL]) as [|l ls] eqn:E;
    [congruence|].
  cbn [length Nat.ltb Nat.leb nth skipn].
  assert (Hbom : startswith [BOM] (str_of_int (index b)) = false).
  { pose proof (str_of_int_nonnil (index b)) as Hn.
    destruct (str_of_int (index b)) as [|x t] eqn:Ei; [congruence|].
    assert (Hx : (45 <= x <= 57)%N)
      by (apply (str_of_int_chars (index b)); rewrite Ei; left; reflexivity).
    cbn [startswith]. replace (BOM =? x)%N with false; [reflexivity|].
    symmetry. apply N.eqb_neq. unfold BOM. lia. }
  rewrite Hbom. destruct Hb as [_ [_ [_ [_ [_ Hint]]]]]. rewrite Hint.
  unfold read_back. rewrite E. reflexivity.
Qed.

Lemma read_chunks blocks acc :
  Forall writable blocks ->
  read_blocks py_int (filter nonblank (chunks_of blocks)) acc
  = Some (acc ++ map read_back blocks).
Proof.
  intros H. revert acc. induction H as [|b rest Hb Hrest IH]; intros acc.
  - cbn. rewrite app_nil_r. reflexivity.
  - cbn [chunks_of map]. destruct rest as [|b' rest].
    + cbn [filter]. rewrite chunk_nonblank.
      rewrite (read_chunk b [NL] [] acc Hb) by (right; reflexivity).
      reflexivity.
    + cbn [filter]. rewrite <- (app_nil_r (join [NL] (block_lines b))).
      rewrite chunk_nonblank.
      rewrite (read_chunk b [] _ acc Hb) by (left; reflexivity).
      rewrite IH, <- app_assoc. reflexivity.
Qed.

Lemma contains_absent (a : char) (p s : str) :
  ~ In a s -> contains s (a :: p) = false.
Proof.
  induction s as [|x s IH]; intros H; [reflexivity|].
  cbn [contains startswith].
  replace (a =? x)%N with false
    by (symmetry; apply N.eqb_neq; intros ->; apply H; left; reflexivity).
  cbn [andb orb]. apply IH. intros Hin. apply H. right. exact Hin.
Qed.

Lemma write_srt_no_cr blocks :
  Forall writable blocks -> ~ In CR (write_srt blocks).
Proof.
  intros H Hin. unfold write_srt in Hin. apply join_chars in Hin.
  destruct Hin as [[Hin|[]]|[p [Hp Hin]]]; [discriminate Hin|].
  unfold srt_lines in Hp. apply in_flat_map in Hp.
  destruct Hp as [b [Hb Hp]]. rewrite Forall_forall in H.
  destruct (H b Hb) as [_ [_ [Hts [Htx _]]]].
  destruct Hp as [<-|[<-|[<-|[<-|[]]]]].
  - apply str_of_int_chars in Hin. unfold CR in Hin. lia.
  - exact (Hts Hin).
  - exact (Htx Hin).
  - destruct Hin.
Qed.

(** X15.  Round trip.  Written blocks are read back as they were, with the
    lines of each text joined by single spaces, provided that every time
    range is a single line that is not blank, that no line of a text is
    blank, that there is no carriage return, and that [int] reads the
    index back from its decimal form.  A text of one line thus comes back
    unchanged, and a text of two lines comes back on one line. *)
Theorem read_srt_write_srt (blocks : list Block) :
  Forall writable blocks ->
  read_srt py_int (write_srt blocks) = Some (map read_back blocks)
  /\ (Forall (fun b => ~ In NL (text b)) blocks ->
      read_srt py_int (write_srt blocks) = Some blocks).
Proof.
  intros H.
  assert (R : read_srt py_int (write_srt blocks) = Some (map read_back blocks)).
  { unfold read_srt. pose proof (write_srt_no_cr blocks H) as Hcr.
    unfold replace.
    rewrite (replace_scan_absent [CR; NL] [NL] _ (contains_absent CR [NL] _ Hcr)).
    rewrite (replace_scan_absent [CR] [NL] _ (contains_absent CR [] _ Hcr)).
    destruct blocks as [|b rest]; [reflexivity|].
    rewrite (split_on_write b rest H).
    exact (read_chunks (b :: rest) [] H). }
  split; [exact R|].
  intros Hone. rewrite R. f_equal.
  clear R H. induction Hone as [|b rest Hb Hrest IH]; [reflexivity|].
  cbn [map]. rewrite IH. f_equal.
  unfold read_back. rewrite (split_on_char_whole NL _ Hb). cbn [join].
  destruct b. reflexivity.
Qed.

End RoundTrip.

Lemma not_in_dec (c : char) (s : str) :
  existsb (N.eqb c) s = false -> ~ In c s.
Proof.
  intros H Hin.
  assert (existsb (N.eqb c) s = true); [|congruence].
  apply existsb_exists. exists c. split; [exact Hin|apply N.eqb_refl].
Qed.

(** The conditions of [writable], as a test. *)
Definition writable_test (py_int : str -> option Z) (b : Block) : bool :=
  nonblank (timestamp b)
  && negb (existsb (N.eqb NEWLINE) (timestamp b))
  && negb (existsb (N.eqb CR) (timestamp b))
  && negb (existsb (N.eqb CR) (text b))
  && forallb nonblank (split_on (text b) [NEWLINE])
  && match py_int (strip (str_of_int (index b))) with
     | Some z => (z =? index b)%Z
     | None => false
     end.

Lemma writable_test_ok py_int b :
  writable_test py_int b = true -> writable py_int b.
Proof.
  unfold writable_test, writable. intros H.
  repeat (apply andb_true_iff in H; destruct H as [H ?]).
  repeat match goal with
         | H : negb _ = true |- _ => apply negb_true_iff in H
         end.
  split; [assumption|]. split; [apply not_in_dec; assumption|].
  split; [apply not_in_dec; assumption|].
  split; [apply not_in_dec; assumption|]. split.
  - apply Forall_forall. intros l Hl.
    match goal with F : forallb _ _ = true |- _ =>
      rewrite forallb_forall in F; exact (F l Hl) end.
  - destruct (py_int _) as [z|]; [|discriminate].
    f_equal. apply Z.eqb_eq. assumption.
Qed.

Lemma read_srt_write_srt_witness :
  let b1 := mkBlock 1 (lit "00:00:01,000 --> 00:00:03,000")
                    (lit "Szia" ++ NEWLINE :: lit "vilag.") in
  let b2 := mkBlock 2 (lit "00:00:03,500 --> 00:00:05,000") (lit "Viszlat.") in
  Forall (writable Samples.decimal_int) [b1; b2]
  /\ read_srt Samples.decimal_int (write_srt [b1; b2])
     = Some [mkBlock 1 (timestamp b1) (lit "Szia vilag."); b2].
Proof.
  intros b1 b2.
  assert (H : Forall (writable Samples.decimal_int) [b1; b2]).
  { constructor; [|constructor; [|constructor]];
      apply writable_test_ok; vm_compute; reflexivity. }
  split; [exact H|].
  exact (proj1 (read_srt_write_srt Samples.decimal_int [b1; b2] H)).
Defined.

(** ** The greedy wrapper of the superseded pipeline *)

Section LegacyWrapper.

Import PyStrFacts StrMore.

(** The lines that [wrap_text_to_lines] has after its loop. *)
Definition closed_lines (f : Legacy.Filling) : list str :=
  match Legacy.cur_line f with
  | [] => Legacy.lines f
  | _ :: _ => Legacy.lines f ++ [join [SPACE] (Legacy.cur_line f)]
  end.

(** The words of the first two lines. *)
Definition two_line_words (ls : list str) : list str :=
  match ls with
  | [] => []
  | [l] => split l
  | l1 :: l2 :: _ => split l1 ++ split l2
  end.

(** With two lines allowed, the first two lines after the loop hold all
    the words: those already placed and those still to come. *)
Lemma fill_lines_words max_chars ws f :
  Forall is_word ws -> Forall is_word (Legacy.cur_line f) ->
  length (Legacy.lines f) <= 1 ->
  two_line_words (closed_lines (Legacy.fill_lines max_chars 2 ws f))
  = two_line_words (Legacy.lines f) ++ Legacy.cur_line f ++ ws.
Proof.
  intros Hws. revert f. induction Hws as [|w rest Hw Hrest IH]; intros f Hcl Hl.
  - cbn [Legacy.fill_lines]. rewrite app_nil_r. unfold closed_lines.
    destruct f as [ls cl n]. cbn [Legacy.lines Legacy.cur_line] in *.
    destruct ls as [|l0 [|l1 ls]]; [| |cbn [length] in Hl; lia];
      destruct cl as [|x cl]; cbn [app two_line_words];
      rewrite ?app_nil_r; try rewrite (split_join _ Hcl); reflexivity.
  - cbn [Legacy.fill_lines].
    destruct (_ <=? max_chars).
    + rewrite IH; cbn [Legacy.lines Legacy.cur_line].
      * rewrite <- app_assoc. reflexivity.
      * apply Forall_app. split; [exact Hcl|]. constructor; [exact Hw|constructor].
      * exact Hl.
    + destruct f as [ls cl n]. cbn [Legacy.lines Legacy.cur_line] in *.
      destruct ls as [|l0 [|l1 ls]]; [| |cbn [length] in Hl; lia].
      * cbn [app length Nat.leb]. rewrite IH; cbn [Legacy.lines Legacy.cur_line].
        -- cbn [two_line_words app]. rewrite (split_join _ Hcl). reflexivity.
        -- constructor; [exact Hw|constructor].
        -- cbn [length]. lia.
      * cbn [app length Nat.leb removelast last]. unfold closed_lines.
        cbn [Legacy.lines Legacy.cur_line app two_line_words].
        rewrite split_app_space, (split_join _ Hcl).
        rewrite (split_join (w :: rest)) by (constructor; assumption).
        reflexivity.
Qed.

(** X16.  With two lines allowed, the greedy wrapper only changes white
    space: whatever it returns has the words of the text, in order.  It
    fails, with the [IndexError] of an empty list of lines, exactly on a
    blank text that is longer than the limit. *)
Theorem wrap_text_to_lines_keeps_words (text : str) (max_chars : nat) :
  (forall r, Legacy.wrap_text_to_lines text max_chars 2 = Some r ->
             split r = split text)
  /\ (Legacy.wrap_text_to_lines text max_chars 2 = None
      <-> max_chars < len text /\ split text = []).
Proof.
  unfold Legacy.wrap_text_to_lines.
  destruct (Nat.leb_spec (len text) max_chars) as [Hshort|Hlong].
  { split; [intros r [= <-]; reflexivity|].
    split; [discriminate|]. intros [H _]. lia. }
  pose proof (fill_lines_words max_chars (split text)
                (Legacy.mkFilling [] [] 0) (split_words text)
                (Forall_nil _) ltac:(cbn; lia)) as Hw.
  cbn [Legacy.lines Legacy.cur_line two_line_words app] in Hw.
  fold (closed_lines (Legacy.fill_lines max_chars 2 (split text)
                        (Legacy.mkFilling [] [] 0))).
  destruct (closed_lines _) as [|l1 [|l2 more]] eqn:Hfill.
  - cbn [two_line_words] in Hw. split; [discriminate|].
    split; [intros _; split; [exact Hlong|symmetry; exact Hw]|reflexivity].
  - cbn [two_line_words] in Hw. split; [intros r [= <-]; exact Hw|].
    split; [discriminate|]. intros [_ H]. exfalso.
    revert Hfill. rewrite H. cbn [Legacy.fill_lines]. unfold closed_lines.
    cbn [Legacy.cur_line Legacy.lines]. discriminate.
  - cbn [two_line_words] in Hw.
    assert (Hb : split (fst (Legacy.balance_two_lines l1 l2))
                 ++ split (snd (Legacy.balance_two_lines l1 l2))
                 = split text).
    { unfold Legacy.balance_two_lines.
      destruct (balance_passes_keeps 3 l1 l2) as [Hk _].
      destruct (Legacy.balance_passes 3 l1 l2) as [a b].
      cbn [fst snd] in *. rewrite !split_strip. congruence. }
    destruct (Legacy.balance_two_lines l1 l2) as [line1 line2].
    cbn [fst snd] in Hb. split.
    + intros r. destruct (_ <=? max_chars); intros [= <-].
      * rewrite split_strip. cbn [app]. rewrite split_app_space. exact Hb.
      * cbn [app]. rewrite (split_app_ws _ NEWLINE _ eq_refl). exact Hb.
    + split; [destruct (_ <=? max_chars); discriminate|].
      intros [_ H]. exfalso.
      revert Hfill. rewrite H. cbn [Legacy.fill_lines]. unfold closed_lines.
      cbn [Legacy.cur_line Legacy.lines]. discriminate.
Qed.

Lemma wrap_text_to_lines_keeps_words_witness :
  let text := lit "one two three four five six seven eight" in
  Legacy.wrap_text_to_lines text 20 2
  = Some (lit "one two three four" ++ NEWLINE :: lit "five six seven eight")
  /\ split (lit "one two three four" ++ NEWLINE :: lit "five six seven eight")
     = split text
  /\ Legacy.wrap_text_to_lines (repeat SPACE 21) 20 2 = None.
Proof.
  intros text.
  assert (H : Legacy.wrap_text_to_lines text 20 2
              = Some (lit "one two three four" ++ NEWLINE
                      :: lit "five six seven eight"))
    by (vm_compute; reflexivity).
  split; [exact H|]. split.
  - exact (proj1 (wrap_text_to_lines_keeps_words text 20) _ H).
  - apply (proj2 (wrap_text_to_lines_keeps_words (repeat SPACE 21) 20)).
    split; [apply Nat.ltb_lt; vm_compute; reflexivity|vm_compute; reflexivity].
Defined.

End LegacyWrapper.

(** ** The pipeline with an engine that changes nothing *)

Lemma firstn_slice {A : Type} (l : list A) (a b : nat) :
  a <= b -> a <= length l -> firstn a l ++ slice l a b = firstn b l.
Proof.
  intros Hab Hl. unfold slice.
  rewrite <- (firstn_skipn a l) at 3.
  rewrite firstn_app, firstn_firstn, length_firstn.
  replace (Nat.min b a) with a by lia.
  replace (b - Nat.min a (length l)) with (b - a) by lia. reflexivity.
Qed.

Lemma slice_middle {A : Type} (pre x r : list A) :
  slice (pre ++ x ++ r) (length pre) (length pre + length x) = x.
Proof.
  unfold slice. replace (length pre + length x - length pre) with (length x) by lia.
  rewrite skipn_app, skipn_all, Nat.sub_diag. cbn [app skipn].
  rewrite firstn_app, firstn_all, Nat.sub_diag. cbn [firstn]. apply app_nil_r.
Qed.

Section FixedPoint.

Context {C : Collaborators}.

Hypothesis engine_identity : forall s w, argos_translate s w = (s, w).

Lemma translate_text_identity text e :
  marker_free text ->
  translate_text text e
  = (text, mkEngine (world e) (calls e ++ [protect_terms text])).
Proof.
  intros Hfree. unfold translate_text. rewrite engine_identity.
  rewrite unprotect_unmarked. unfold protect_terms at 1.
  rewrite (protect_with_unmarked _ _ EXCEPTIONS_marker_free).
  rewrite (unmarked_id text Hfree). reflexivity.
Qed.

Lemma join_marker_free l :
  Forall marker_free l -> marker_free (join [SPACE] l).
Proof.
  intros H Hin. apply join_chars in Hin.
  destruct Hin as [[Hin|[]]|[p [Hp Hin]]]; [discriminate Hin|].
  rewrite Forall_forall in H. exact (H p Hp Hin).
Qed.

Lemma slice_Forall {A : Type} (P : A -> Prop) (l : list A) (a b : nat) :
  Forall P l -> Forall P (slice l a b).
Proof.
  intros H. unfold slice.
  exact (proj1 (StrMore.Forall_firstn_skipn P (b - a) _
                  (proj2 (StrMore.Forall_firstn_skipn P a l H)))).
Qed.

Variable all_eng : list str.

Hypothesis sentences_free : Forall marker_free all_eng.

Hypothesis segmenter_stable :
  forall i n, 1 <= n <= MAX_SENTENCES_PER_BLOCK -> i + n <= length all_eng ->
    sent_tokenize (join [SPACE] (slice all_eng i (i + n))) = slice all_eng i (i + n).

Local Abbreviation idx := current_sentence_idx.

Lemma attempt_loop_faithful n b :
  idx b < length all_eng -> n <= length all_eng - idx b ->
  n <= MAX_SENTENCES_PER_BLOCK ->
  exists k,
    1 <= k /\ idx b + k <= length all_eng
    /\ idx (attempt_loop all_eng n b) = idx b + k
    /\ all_hun_sentences (attempt_loop all_eng n b)
       = all_hun_sentences b ++ slice all_eng (idx b) (idx b + k)
    /\ world (engine (attempt_loop all_eng n b)) = world (engine b).
Proof.
  intros Hb. induction n as [|n IH]; intros Hn Hmax.
  - simp attempt_loop. rewrite forced_single_eq by exact Hb. cbn zeta.
    assert (Hs : marker_free (nth (idx b) all_eng [])).
    { rewrite Forall_forall in sentences_free. apply sentences_free.
      apply nth_In. exact Hb. }
    rewrite (translate_text_identity _ _ Hs). cbn [fst snd].
    pose proof (segmenter_stable (idx b) 1
                  ltac:(unfold MAX_SENTENCES_PER_BLOCK; lia) ltac:(lia)) as Hseg.
    rewrite (slice_one all_eng (idx b) Hb) in Hseg. cbn [join] in Hseg.
    exists 1. cbn [current_sentence_idx all_hun_sentences engine world].
    rewrite Hseg, (slice_one all_eng (idx b) Hb). repeat split; lia.
  - rewrite attempt_loop_S, attempt_body_cases.
    destruct (MAX_CHARS_PER_BLOCK <? _).
    + replace (S n - 1) with n by lia. apply IH; lia.
    + assert (Hh : hun_at all_eng (S n) b = batch_at all_eng (S n) b
                   /\ world (snd (answer_at all_eng (S n) b)) = world (engine b)).
      { unfold hun_at, answer_at, batch_at.
        rewrite translate_text_identity
          by (apply join_marker_free; apply slice_Forall; exact sentences_free).
        cbn [fst snd world]. split; [|reflexivity].
        apply segmenter_stable; lia. }
      destruct Hh as [Hh Hw]. rewrite Hh, Nat.eqb_refl.
      exists (S n). cbn [current_sentence_idx all_hun_sentences engine].
      unfold batch_at. rewrite slice_length by lia. repeat split; [lia|lia|exact Hw].
Qed.

Lemma batch_loop_faithful fuel b passes b' :
  idx b <= length all_eng ->
  all_hun_sentences b = firstn (idx b) all_eng ->
  batch_loop all_eng fuel b = Some (passes, b') ->
  all_hun_sentences b' = firstn (idx b') all_eng
  /\ world (engine b') = world (engine b).
Proof.
  revert b passes. induction fuel as [|fuel IH]; intros b passes Hle Hinv;
    cbn [batch_loop].
  - destruct (idx b <? length all_eng); [discriminate|].
    intros [= <- <-]. split; [exact Hinv|reflexivity].
  - destruct (idx b <? length all_eng) eqn:E.
    + destruct (batch_loop all_eng fuel (batch_body all_eng b))
        as [[k b'']|] eqn:R; [|discriminate].
      intros [= <- <-]. apply Nat.ltb_lt in E.
      destruct (attempt_loop_faithful
                  (Nat.min MAX_SENTENCES_PER_BLOCK (length all_eng - idx b)) b E
                  ltac:(lia) ltac:(lia)) as [j [Hj [Hfit [Hidx [Hhun Hw]]]]].
      fold (batch_body all_eng b) in Hidx, Hhun, Hw.
      destruct (IH (batch_body all_eng b) k ltac:(lia)
                   ltac:(rewrite Hhun, Hinv, Hidx; apply firstn_slice; lia) R)
        as [Hfin Hw'].
      split; [exact Hfin|congruence].
    + intros [= <- <-]. split; [exact Hinv|reflexivity].
Qed.

End FixedPoint.

Lemma reassemble_own {C : Collaborators} (blocks : list Block) (pre : list str) :
  fst (reassemble
         (pre ++ flat_map (fun block => sent_tokenize (text block)) blocks)
         blocks [] (length pre))
  = map (fun b => mkBlock (index b) (timestamp b)
                    (format_srt_text (join [SPACE] (sent_tokenize (text b)))
                                     MAX_CHARS_PER_LINE))
        blocks.
Proof.
  revert pre. induction blocks as [|blk rest IH]; intros pre; [reflexivity|].
  rewrite reassemble_cons. cbn [fst map flat_map].
  rewrite reassemble_block_eq. cbn [fst snd]. unfold sentence_count.
  rewrite slice_middle. f_equal.
  specialize (IH (pre ++ sent_tokenize (text blk))).
  rewrite <- app_assoc, length_app in IH. exact IH.
Qed.

(** X17.  Fixed point.  When the engine returns every text unchanged, the
    source sentences hold no marker, and the segmenter cuts every run of
    up to five consecutive source sentences, joined by single spaces, back
    into those sentences, then every block comes out with its own
    sentences: its text is its sentences joined by single spaces and
    wrapped; index and time range are kept and the engine's state is left
    as it was. *)
Theorem pipeline_fixed_point
        (C : Collaborators) (eng_blocks : list Block) (e : Engine) :
  let all_eng := flat_map (fun block => sent_tokenize (text block)) eng_blocks in
  (forall s w, argos_translate s w = (s, w)) ->
  Forall marker_free all_eng ->
  (forall i n, 1 <= n <= MAX_SENTENCES_PER_BLOCK -> i + n <= length all_eng ->
     sent_tokenize (join [SPACE] (slice all_eng i (i + n)))
     = slice all_eng i (i + n)) ->
  exists out,
    process_and_generate_srt eng_blocks e = Some out
    /\ hun_blocks out
       = map (fun b => mkBlock (index b) (timestamp b)
                         (format_srt_text
                            (join [SPACE] (sent_tokenize (text b)))
                            MAX_CHARS_PER_LINE))
             eng_blocks
    /\ world (final_engine out) = world e.
Proof.
  intros all_eng Hid Hfree Hseg. unfold process_and_generate_srt. fold all_eng.
  destruct (batch_loop_total all_eng (length all_eng) (mkBatcher [] 0 e))
    as [passes [b [R [_ Hb]]]]; [simpl; lia|simpl; lia|].
  rewrite R.
  destruct (batch_loop_faithful Hid all_eng Hfree Hseg (length all_eng)
              (mkBatcher [] 0 e) passes b (Nat.le_0_l _) eq_refl R) as [Hhun Hw].
  rewrite Hb, firstn_all in Hhun. rewrite Hhun.
  pose proof (reassemble_own eng_blocks []) as Hown.
  cbn [app length] in Hown. fold all_eng in Hown.
  destruct (reassemble all_eng eng_blocks [] 0) as [blocks j].
  cbn [fst] in Hown. eexists. split; [reflexivity|].
  cbn [hun_blocks final_engine]. split; [exact Hown|exact Hw].
Qed.

Lemma pipeline_fixed_point_witness :
  let b1 := mkBlock 1 (lit "00:00:01,000 --> 00:00:03,000")
                    (lit "Hello world.   This is a test.") in
  let b2 := mkBlock 2 (lit "00:00:03,500 --> 00:00:05,000") (lit "Goodbye now.") in
  exists out,
    process_and_generate_srt [b1; b2] (Samples.start (C := Samples.identity) tt)
    = Some out
    /\ hun_blocks out
       = [mkBlock 1 (timestamp b1) (lit "Hello world. This is a test."); b2].
Proof.
  intros b1 b2.
  destruct (pipeline_fixed_point Samples.identity [b1; b2]
              (Samples.start (C := Samples.identity) tt))
    as [out [R [Hb _]]].
  - intros s []. reflexivity.
  - repeat constructor; apply marker_free_dec; vm_compute; reflexivity.
  - intros i n Hn Hi.
    change (length (flat_map (fun block => sent_tokenize (text block)) [b1; b2]))
      with 3 in Hi.
    unfold MAX_SENTENCES_PER_BLOCK in Hn.
    destruct i as [|[|[|i]]]; destruct n as [|[|[|[|n]]]];
      try lia; vm_compute; reflexivity.
  - exists out. split; [exact R|exact Hb].
Defined.

(** ** The parser: line endings and the byte-order mark *)

Section ParserEdges.

Variable py_int : str -> option Z.

(** The two replacements at the head of [read_srt]. *)
Definition unix_lines (raw : str) : str :=
  replace (replace raw [CR; NEWLINE] [NEWLINE]) [CR] [NEWLINE].

Lemma read_srt_unix_lines raw :
  read_srt py_int raw
  = read_blocks py_int
      (filter nonblank (split_on (unix_lines raw) [NEWLINE; NEWLINE])) [].
Proof. reflexivity. Qed.

Lemma unix_lines_id raw : ~ In CR raw -> unix_lines raw = raw.
Proof.
  intros H. unfold unix_lines, replace.
  rewrite (replace_scan_absent [CR; NEWLINE] [NEWLINE] _
             (contains_absent CR [NEWLINE] _ H)).
  apply replace_scan_absent. apply contains_absent. exact H.
Qed.

Lemma crlf_undone s :
  ~ In CR s ->
  replace_scan [CR; NEWLINE] [NEWLINE] 0
    (replace_scan [NEWLINE] [CR; NEWLINE] 0 s) = s.
Proof.
  induction s as [|x s IH]; intros H; [reflexivity|].
  assert (Hs : ~ In CR s) by (intros Hin; apply H; right; exact Hin).
  assert (Hx : x <> CR) by (intros ->; apply H; left; reflexivity).
  cbn [replace_scan startswith length Nat.sub]. rewrite andb_true_r.
  destruct (N.eqb_spec NEWLINE x) as [<-|Hnl].
  - cbn [app replace_scan startswith length Nat.sub]. rewrite !N.eqb_refl.
    cbn [andb app]. rewrite (IH Hs). reflexivity.
  - cbn [replace_scan startswith].
    replace (CR =? x)%N with false by (symmetry; apply N.eqb_neq; congruence).
    cbn [andb]. rewrite (IH Hs). reflexivity.
Qed.

Lemma crlf_no_cr_left s :
  ~ In CR s ->
  ~ In CR (replace_scan [CR; NEWLINE] [NEWLINE] 0
             (replace_scan [NEWLINE] [CR; NEWLINE] 0 s)).
Proof. intros H. rewrite (crlf_undone s H). exact H. Qed.

Lemma cr_pairs_absent s : ~ In NEWLINE s -> contains s [CR; NEWLINE] = false.
Proof.
  induction s as [|x s IH]; intros H; [reflexivity|].
  cbn [contains]. rewrite IH by (intros Hin; apply H; right; exact Hin).
  rewrite orb_false_r. cbn [startswith]. destruct (CR =? x)%N; [|reflexivity].
  destruct s as [|y s]; [reflexivity|]. cbn [andb startswith].
  replace (NEWLINE =? y)%N with false; [reflexivity|].
  symmetry. apply N.eqb_neq. intros <-. apply H. right. left. reflexivity.
Qed.

Lemma cr_undone s :
  ~ In CR s ->
  replace_scan [CR] [NEWLINE] 0 (replace_scan [NEWLINE] [CR] 0 s) = s.
Proof.
  induction s as [|x s IH]; intros H; [reflexivity|].
  assert (Hs : ~ In CR s) by (intros Hin; apply H; right; exact Hin).
  assert (Hx : x <> CR) by (intros ->; apply H; left; reflexivity).
  cbn [replace_scan startswith length Nat.sub]. rewrite andb_true_r.
  destruct (N.eqb_spec NEWLINE x) as [<-|Hnl].
  - cbn [app replace_scan startswith length Nat.sub]. rewrite N.eqb_refl.
    cbn [andb app]. rewrite (IH Hs). reflexivity.
  - cbn [replace_scan startswith].
    replace (CR =? x)%N with false by (symmetry; apply N.eqb_neq; congruence).
    cbn [andb]. rewrite (IH Hs). reflexivity.
Qed.

(** X18.  Line endings do not matter to the parser: a text with line feeds
    only is parsed in the same way when its line feeds are written as
    carriage return and line feed, or as carriage returns. *)
Theorem read_srt_line_endings (raw : str) :
  ~ In CR raw ->
  read_srt py_int (replace raw [NEWLINE] [CR; NEWLINE]) = read_srt py_int raw
  /\ read_srt py_int (replace raw [NEWLINE] [CR]) = read_srt py_int raw.
Proof.
  intros H. rewrite !read_srt_unix_lines. rewrite (unix_lines_id raw H). split.
  - f_equal. f_equal. f_equal. unfold unix_lines, replace.
    rewrite (crlf_undone raw H).
    apply replace_scan_absent. apply contains_absent. exact H.
  - f_equal. f_equal. f_equal. unfold unix_lines.
    assert (Hnl : ~ In NEWLINE (replace raw [NEWLINE] [CR]))
      by (apply replace_char_gone; discriminate).
    unfold replace at 2.
    rewrite (replace_scan_absent [CR; NEWLINE] [NEWLINE] _ (cr_pairs_absent _ Hnl)).
    unfold replace. apply cr_undone. exact H.
Qed.

Lemma split_scan_gap_ink x s :
  x <> NEWLINE ->
  split_scan [NEWLINE; NEWLINE] 0 (x :: s)
  = (x :: fst (split_scan [NEWLINE; NEWLINE] 0 s),
     snd (split_scan [NEWLINE; NEWLINE] 0 s)).
Proof.
  intros Hx. cbn [split_scan startswith].
  replace (NEWLINE =? x)%N with false by (symmetry; apply N.eqb_neq; congruence).
  cbn [andb]. destruct (split_scan _ 0 s). reflexivity.
Qed.

Lemma unix_lines_ink x s :
  x <> CR -> unix_lines (x :: s) = x :: unix_lines s.
Proof.
  intros Hx. unfold unix_lines, replace.
  cbn [replace_scan startswith].
  replace (CR =? x)%N with false by (symmetry; apply N.eqb_neq; congruence).
  cbn [andb replace_scan startswith].
  replace (CR =? x)%N with false by (symmetry; apply N.eqb_neq; congruence).
  reflexivity.
Qed.

Lemma nonblank_ink_head x s : isspace x = false -> nonblank (x :: s) = true.
Proof.
  intros Hx. apply nonblank_ink. exists x. split; [left; reflexivity|exact Hx].
Qed.

(** X19.  A byte-order mark in front of the file is ignored: when the text
    starts with a character that is neither white space nor a byte-order
    mark, putting a byte-order mark in front of it does not change what
    the parser returns. *)
Theorem read_srt_ignores_bom (x : char) (rest : str) :
  isspace x = false -> x <> BOM ->
  read_srt py_int (BOM :: x :: rest) = read_srt py_int (x :: rest).
Proof.
  intros Hx Hbom.
  assert (Hcr : x <> CR) by (intros ->; discriminate Hx).
  assert (Hnl : x <> NEWLINE) by (intros ->; discriminate Hx).
  rewrite !read_srt_unix_lines.
  rewrite (unix_lines_ink BOM (x :: rest)) by discriminate.
  rewrite (unix_lines_ink x rest Hcr).
  unfold split_on.
  rewrite (split_scan_gap_ink BOM) by discriminate.
  rewrite (split_scan_gap_ink x _ Hnl).
  destruct (split_scan [NEWLINE; NEWLINE] 0 (unix_lines rest)) as [chunk chunks].
  cbn [fst snd filter].
  rewrite (nonblank_ink_head BOM (x :: chunk) eq_refl).
  rewrite (nonblank_ink_head x chunk Hx).
  cbn [read_blocks]. unfold split_on.
  rewrite (split_scan_char_miss NEWLINE BOM) by discriminate.
  rewrite (split_scan_char_miss NEWLINE x _ Hnl).
  destruct (split_scan [NEWLINE] 0 chunk) as [line lines].
  cbn [fst snd filter].
  rewrite (nonblank_ink_head BOM (x :: line) eq_refl).
  rewrite (nonblank_ink_head x line Hx).
  cbn [length nth]. destruct (S (length (filter nonblank lines)) <? 3);
    [reflexivity|].
  cbn [startswith skipn]. rewrite N.eqb_refl. cbn [andb].
  replace (BOM =? x)%N with false by (symmetry; apply N.eqb_neq; congruence).
  reflexivity.
Qed.

End ParserEdges.

Lemma read_srt_line_endings_witness :
  let raw := lit "1" ++ NEWLINE :: lit "00:00:01,000 --> 00:00:03,000"
             ++ NEWLINE :: lit "Hello." ++ [NEWLINE] in
  ~ In CR raw
  /\ read_srt Samples.decimal_int (replace raw [NEWLINE] [CR; NEWLINE])
     = Some [mkBlock 1 (lit "00:00:01,000 --> 00:00:03,000") (lit "Hello.")].
Proof.
  intros raw.
  assert (H : ~ In CR raw) by (apply not_in_dec; vm_compute; reflexivity).
  split; [exact H|].
  rewrite (proj1 (read_srt_line_endings Samples.decimal_int raw H)).
  vm_compute. reflexivity.
Defined.

Lemma read_srt_ignores_bom_witness :
  let rest := NEWLINE :: lit "00:00:01,000 --> 00:00:03,000"
              ++ NEWLINE :: lit "Hello." in
  isspace 49%N = false /\ 49%N <> BOM
  /\ read_srt Samples.decimal_int (BOM :: 49%N :: rest)
     = Some [mkBlock 1 (lit "00:00:01,000 --> 00:00:03,000") (lit "Hello.")].
Proof.
  intros rest.
  assert (H1 : isspace 49%N = false) by reflexivity.
  assert (H2 : 49%N <> BOM) by discriminate.
  split; [exact H1|]. split; [exact H2|].
  rewrite (read_srt_ignores_bom Samples.decimal_int 49%N rest H1 H2).
  vm_compute. reflexivity.
Defined.

(** ** The embedding run on sample inputs *)

Example protect_ex1 :
  protect_terms (lit "I like Python")
  = lit "I like " ++ MARKER :: lit "Python" ++ [MARKER].
Proof. vm_compute. reflexivity. Qed.

Example split_ex1 :
  split (lit "  ab  c d ") = [lit "ab"; lit "c"; lit "d"].
Proof. vm_compute. reflexivity. Qed.

Example strip_ex1 : strip (lit "  ab  c d ") = lit "ab  c d".
Proof. vm_compute. reflexivity. Qed.

Example replace_ex1 :
  replace (lit "aaaa") (lit "aa") (lit "b") = lit "bb"
  /\ replace (lit "ab") [] (lit "-") = lit "-a-b-"
  /\ replace (lit "abcabc") (lit "bc") (lit "xyz") = lit "axyzaxyz".
Proof. vm_compute. repeat split. Qed.

Example str_of_int_ex : str_of_int 120 = lit "120" /\ str_of_int (-7) = lit "-7" /\ str_of_int 0 = lit "0".
Proof. vm_compute. repeat split. Qed.

Example after_stops_ex :
  Samples.after_stops [] (lit "Hello world. This is a test.")
  = [lit "Hello world."; lit "This is a test."].
Proof. vm_compute. reflexivity. Qed.

Example batch_ex1 :
  let all_eng := [lit "Hello world."; lit "This is a test."; lit "Goodbye now."] in
  Samples.run Samples.identity all_eng tt
  = Some (1, all_eng, 3, [lit "Hello world. This is a test. Goodbye now."]).
Proof. vm_compute. reflexivity. Qed.

Example batch_ex2 :
  let all_eng := [lit "Hello world."; lit "This is a test."; lit "Goodbye now."] in
  Samples.run Samples.merging all_eng tt
  = Some (3, [lit "Hello world,"; lit "This is a test,"; lit "Goodbye now,"], 3,
          [lit "Hello world. This is a test. Goodbye now.";
           lit "Hello world.";
           lit "This is a test. Goodbye now.";
           lit "This is a test.";
           lit "Goodbye now."]).
Proof. vm_compute. reflexivity. Qed.

Example pipeline_ex :
  let b1 := mkBlock 1 (lit "00:00:01,000 --> 00:00:03,000")
                    (lit "Hello world. This is a test.") in
  let b2 := mkBlock 2 (lit "00:00:03,500 --> 00:00:05,000") (lit "Goodbye now.") in
  option_map (fun out => (hun_blocks out, written out))
    (process_and_generate_srt [b1; b2] (Samples.start (C := Samples.identity) tt))
  = Some ([b1; b2],
          lit "1" ++ NEWLINE :: timestamp b1 ++ NEWLINE :: text b1 ++ NEWLINE
          :: NEWLINE :: lit "2" ++ NEWLINE :: timestamp b2 ++ NEWLINE :: text b2
          ++ [NEWLINE]).
Proof. vm_compute. reflexivity. Qed.

Example balance_ex :
  Legacy.balance_two_lines (lit "a bbbbbbbbbbbb") (lit "cc")
  = (lit "a", lit "bbbbbbbbbbbb cc").
Proof. vm_compute. reflexivity. Qed.
